(** * Shallow embedding of parts of TreeSAPP

    - [Hmmer]: interval classification and scaffolding of HMMER
      sub-alignments (HMMER_domainTblParser.py);
    - [Jplace]: the placement object ItolJplace and its filters (classy.py);
    - [Lca]: the MEGAN-style lowest common ancestor (classy.py);
    - [RefData]: percentile selection and taxonomic redundancy
      (create_treesapp_ref_data.py);
    - [Fasta]: the FASTA serializer write_new_fasta (treesapp.py);
    - [Classy]: Python attribute lookup for class-level versus instance-level
      state of ItolJplace (classy.py);
    - [HmmerTbl], [Overlap]: tokenizing, orienting, consolidating and
      filtering HMMER domain-table hits (HMMER_domainTblParser.py), and
      calculate_overlap (treesapp.py);
    - [JplaceMore]: field decoding, renaming and element lookup of
      ItolJplace (classy.py, treesapp.py);
    - [RefMore]: reverse_complement, check_lineage, the tax_ids file and
      the build-parameters line (create_treesapp_ref_data.py), with its
      readers MarkerBuild (classy.py) and get_non_wag_cogs (treesapp.py);
    - [Rpkm]: ItolJplace.sum_rpkms_per_node (classy.py);
    - [FastaMore]: write_new_fasta with its headers filter (treesapp.py). *)

From Stdlib Require Import ZArith QArith Qround List String Ascii Bool Lia.
From Stdlib Require Import Sorting.Permutation Sorting.Sorted.
From Stdlib Require Import Numbers.DecimalString.
Import ListNotations.
Open Scope string_scope.

(* ------------------------------------------------------------------ *)
(** ** HMMER_domainTblParser.py *)

Module Hmmer.
Open Scope Z_scope.

(** The four strings returned by [detect_orientation]. *)
Inductive orientation := supersequence | overlap | subsequence | satellite.

Definition orientation_eqb (a b : orientation) : bool :=
  match a, b with
  | supersequence, supersequence | overlap, overlap
  | subsequence, subsequence | satellite, satellite => true
  | _, _ => false
  end.

(** [detect_orientation(q_i, q_j, r_i, r_j)]; Python's chained
    [a <= b <= c] is [a <= b and b <= c]. *)
Definition detect_orientation (q_i q_j r_i r_j : Z) : orientation :=
  if (q_i <=? r_i) && (r_i <=? q_j) then
    if (q_i <=? r_j) && (r_j <=? q_j) then supersequence else overlap
  else if (r_i <=? q_i) && (q_i <=? r_j) then
    if (r_i <=? q_j) && (q_j <=? r_j) then subsequence else overlap
  else satellite.

(** The fields of [HmmMatch] that scaffolding reads or writes
    ([end] is spelled [end_]: it is a keyword of Rocq). *)
Record HmmMatch := mkHmmMatch {
  orf : string;
  hmm_len : Z;
  start : Z;
  end_ : Z;
  pstart : Z;
  pend : Z;
  num : Z;
  of : Z;
  ceval : Q
}.

Definition Qmin (a b : Q) : Q := if Qle_bool a b then a else b.

(** [accepted_states = ["overlap", "satellite"]] *)
Definition accepted (o : orientation) : bool :=
  orientation_eqb o overlap || orientation_eqb o satellite.

(** [float(a_new_end - a_new_start) < float(1.2 * int(base_aln.hmm_len))],
    written over the integers as [10 * d < 12 * hmm_len]; the float
    comparison agrees with this one for every profile length below 200000. *)
Definition within_wobble (base : HmmMatch) (new_start new_end : Z) : bool :=
  10 * (new_end - new_start) <? 12 * hmm_len base.

(** The body of the [if q_orientation in accepted_states and ...] test:
    the merged base alignment, when the pair is merged. *)
Definition merge_pair (base proj : HmmMatch) : option HmmMatch :=
  let q_orientation := detect_orientation (start base) (end_ base)
                                          (start proj) (end_ proj) in
  let p_orientation := detect_orientation (pstart base) (pend base)
                                          (pstart proj) (pend proj) in
  let a_new_start := Z.min (start base) (start proj) in
  let a_new_end := Z.max (end_ base) (end_ proj) in
  if accepted q_orientation && accepted p_orientation then
    if within_wobble base a_new_start a_new_end then
      Some (mkHmmMatch (orf base) (hmm_len base) a_new_start a_new_end
              (Z.min (pstart base) (pstart proj))
              (Z.max (pend base) (pend proj))
              (if 1 <? num base then Z.min (num base) (num proj) else num base)
              (of base - 1)
              (Qmin (ceval base) (ceval proj)))
    else None
  else None.

(** Python's [list.pop(j)] for an index in range. *)
Fixpoint remove_nth {A} (j : nat) (l : list A) : list A :=
  match l, j with
  | [], _ => []
  | _ :: t, O => t
  | h :: t, S j' => h :: remove_nth j' t
  end.

(** Python's [l[i] = x] for an index in range. *)
Fixpoint set_nth {A} (i : nat) (x : A) (l : list A) : list A :=
  match l, i with
  | [], _ => []
  | _ :: t, O => x :: t
  | h :: t, S i' => h :: set_nth i' x t
  end.

(** The inner [while j < len(fragmented_alignment_data)] loop.  The base
    alignment is the object at position [bi]; [base_aln] aliases it, so
    its updates are written back to the list.  [fuel] bounds the number of
    iterations ([len - j] decreases at each one). *)
Fixpoint inner_loop (fuel : nat) (bi : nat) (j : nat) (l : list HmmMatch)
  : list HmmMatch * nat :=
  match fuel with
  | O => (l, j)
  | S fuel' =>
    if Nat.ltb j (List.length l) then
      if Nat.eqb j bi then inner_loop fuel' bi (S j) l
      else
        match nth_error l bi, nth_error l j with
        | Some base, Some proj =>
          match merge_pair base proj with
          | Some base' =>
            (* [fragmented_alignment_data.pop(j); j -= 1] then [j += 1] *)
            let l' := remove_nth j (set_nth bi base' l) in
            let bi' := if Nat.ltb j bi then pred bi else bi in
            inner_loop fuel' bi' j l'
          | None => inner_loop fuel' bi (S j) l
          end
        | _, _ => (l, j)
        end
    else (l, j)
  end.

(** The outer [while i < len(...)] loop; [j] is shared with the inner loop
    and never reset ([i = j = 0] is the only assignment to it). *)
Fixpoint outer_loop (fuel : nat) (i j : nat) (l : list HmmMatch)
  : list HmmMatch :=
  match fuel with
  | O => l
  | S fuel' =>
    if Nat.ltb i (List.length l) then
      let '(l', j') := inner_loop (S (List.length l)) i j l in
      outer_loop fuel' (S i) j' l'
    else l
  end.

Definition scaffold_subalignments (fragmented_alignment_data : list HmmMatch)
  : list HmmMatch :=
  outer_loop (S (List.length fragmented_alignment_data)) 0 0 fragmented_alignment_data.


(** The correspondence of claim C6 between the two argument orders. *)
Definition mirror (o : orientation) : orientation :=
  match o with
  | supersequence => subsequence
  | subsequence => supersequence
  | overlap => overlap
  | satellite => satellite
  end.

Definition hit (s e ps pe hl : Z) : HmmMatch :=
  mkHmmMatch "orf1" hl s e ps pe 1 2 (1 # 1000).

Definition coords (h : HmmMatch) : Z * Z * Z * Z :=
  (start h, end_ h, pstart h, pend h).

(** The hits of the concrete scaffolding example of the spec. *)
Definition example_base := hit 10 50 1 40 100.
Definition example_second := hit 45 90 38 80 100.

(** Three hits of one query: the first is far from the others, the other
    two are neighbours on the query and adjacent on the profile. *)
Definition far_hit := hit 1 50 1 50 100.
Definition near_hit1 := hit 500 550 1 40 100.
Definition near_hit2 := hit 560 600 41 90 100.

(** Hits for a chain that one sweep does not collapse: [chain_a] contains
    the base on the query (rejected), [chain_b] is merged into the base,
    after which [chain_a] overlaps the merged base. *)
Definition chain_base := hit 10 20 1 10 100.
Definition chain_a := hit 5 30 60 70 100.
Definition chain_b := hit 25 40 40 50 100.

End Hmmer.

(* ------------------------------------------------------------------ *)
(** ** Python built-ins used below *)

Module Py.
Open Scope Q_scope.

(** Python's [round] on a number: round half to even. *)
Definition round_half_even (q : Q) : Z :=
  let f := Qfloor q in
  let r := q - inject_Z f in
  if Qlt_le_dec r (1 # 2) then f
  else if Qeq_bool r (1 # 2) then (if Z.even f then f else (f + 1)%Z)
  else (f + 1)%Z.

(** [round(q, 2)], with the two decimals taken exactly. *)
Definition round2 (q : Q) : Q :=
  inject_Z (round_half_even (q * 100)) / 100.

(** The double-quote character (ASCII 34). *)
Definition dq : string := String (ascii_of_nat 34) EmptyString.

End Py.

(* ------------------------------------------------------------------ *)
(** ** classy.py: ItolJplace *)

Module Jplace.
Import Py.
Open Scope Q_scope.

(** A decoded JSON value of a pquery: the ["p"] entry holds the candidate
    loci, each a list of numeric fields ordered as in [fields]; the ["n"]
    entry holds the query names. *)
Inductive pvalue :=
  | Loci (v : list (list Q))
  | Names (v : list string).

Definition pvalue_len (v : pvalue) : nat :=
  match v with Loci l => List.length l | Names l => List.length l end.

(** A pquery: the dictionary [loads(pquery)], its keys in JSON order.  The
    placement strings of the object are modelled by their decoding;
    [loads] and [dumps] are inverse on them. *)
Definition pquery := list (string * pvalue).

Fixpoint lookup (k : string) (d : pquery) : option pvalue :=
  match d with
  | [] => None
  | (k', v) :: t => if String.eqb k k' then Some v else lookup k t
  end.

(** The state of an [ItolJplace] object read or written by the filters. *)
Record ItolJplace := mkItolJplace {
  name : string;
  fields : list string;
  node_map : list (Q * list string);
  placements : list pquery;
  classified : bool
}.

Definition set_placements (o : ItolJplace) (p : list pquery) : ItolJplace :=
  mkItolJplace (name o) (fields o) (node_map o) p (classified o).

Definition set_classified (o : ItolJplace) (b : bool) : ItolJplace :=
  mkItolJplace (name o) (fields o) (node_map o) (placements o) b.

Definition set_name (o : ItolJplace) (n : string) : ItolJplace :=
  mkItolJplace n (fields o) (node_map o) (placements o) (classified o).

(** [get_field_position_from_jplace_fields]: the position of the quoted
    field name, [None] when the loop runs off the end. *)
Fixpoint position_from (quoted : string) (fs : list string) (x : nat) : nat :=
  match fs with
  | [] => x
  | f :: t => if String.eqb f quoted then x else position_from quoted t (S x)
  end.

Definition get_field_position_from_jplace_fields (o : ItolJplace)
    (field_name : string) : option nat :=
  let quoted_field := dq ++ field_name ++ dq in
  let x := position_from quoted_field (fields o) 0 in
  if Nat.eqb x (List.length (fields o)) then None else Some x.

(** Python's [if not x: return] on the looked-up position: [None] and [0]
    are both falsy. *)
Definition truthy_position (x : option nat) : option nat :=
  match x with
  | None | Some O => None
  | Some n => Some n
  end.

(** [float(candidate[x])]; [None] is the [IndexError]. *)
Definition lwr_at (x : nat) (candidate : list Q) : option Q := nth_error candidate x.

(** The [while acc < len(tmp_placements)] loop of
    [filter_min_weight_threshold]: a candidate below [threshold] is popped,
    the others are kept (and [acc] moves past them). *)
Fixpoint drop_below (x : nat) (threshold : Q) (tmp : list (list Q))
  : option (list (list Q)) :=
  match tmp with
  | [] => Some []
  | candidate :: rest =>
    match lwr_at x candidate with
    | None => None
    | Some r =>
      match drop_below x threshold rest with
      | None => None
      | Some rest' =>
        if Qlt_le_dec r threshold then Some rest' else Some (candidate :: rest')
      end
    end
  end.

(** The loop [for k, v in placement.items()] of
    [filter_min_weight_threshold]: only the ["p"] entry is written to
    [dict_strings]; [placement_string] and [classified] are threaded. *)
Fixpoint min_items (x : nat) (threshold : Q) (items : pquery)
    (dict_strings placement_string : pquery) (classified : bool)
  : option (pquery * pquery * bool) :=
  match items with
  | [] => Some (dict_strings, placement_string, classified)
  | (k, v) :: rest =>
    if String.eqb k "p" then
      match v with
      | Loci l =>
        match drop_below x threshold l with
        | None => None
        | Some tmp =>
          if Nat.ltb 0 (List.length tmp) then
            let ds := app dict_strings [(k, Loci tmp)] in
            min_items x threshold rest ds ds classified
          else min_items x threshold rest dict_strings placement_string false
        end
      | Names _ => None
      end
    else min_items x threshold rest dict_strings placement_string classified
  end.

(** The loop [for pquery in self.placements] of
    [filter_min_weight_threshold]. *)
Fixpoint min_pqueries (x : nat) (threshold : Q) (ps : list pquery)
    (placement_string : pquery) (classified : bool)
  : option (list pquery * bool) :=
  match ps with
  | [] => Some ([], classified)
  | placement :: rest =>
    match lookup "p" placement with
    | None => None
    | Some pv =>
      if Nat.ltb 1 (pvalue_len pv) then
        match min_items x threshold placement [] placement_string classified with
        | None => None
        | Some (_, placement_string', classified') =>
          match min_pqueries x threshold rest placement_string' classified' with
          | None => None
          | Some (ps', c) => Some (placement_string' :: ps', c)
          end
        end
      else
        match min_pqueries x threshold rest placement_string classified with
        | None => None
        | Some (ps', c) => Some (placement :: ps', c)
        end
    end
  end.

(** [ItolJplace.filter_min_weight_threshold(threshold)]; [None] is an
    exception. *)
Definition filter_min_weight_threshold (o : ItolJplace) (threshold : Q)
  : option ItolJplace :=
  match truthy_position (get_field_position_from_jplace_fields o "like_weight_ratio") with
  | None => Some o
  | Some x =>
    match min_pqueries x threshold (placements o) [] (classified o) with
    | None => None
    | Some (new_placement_collection, c) =>
      let o' := set_classified o c in
      if c then Some (set_placements o' new_placement_collection) else Some o'
    end
  end.

(** The default threshold [0.1]. *)
Definition default_threshold : Q := 1 # 10.

(** The [while acc < len(tmp_placements)] loop of
    [filter_max_weight_placement]: a candidate whose ratio exceeds
    [max_lwr] is popped and becomes [v = [candidate]]. *)
Fixpoint max_loop (x : nat) (tmp : list (list Q)) (max_lwr : Q) (v : pvalue)
  : option pvalue :=
  match tmp with
  | [] => Some v
  | candidate :: rest =>
    match lwr_at x candidate with
    | None => None
    | Some r =>
      if Qlt_le_dec max_lwr r then max_loop x rest r (Loci [candidate])
      else max_loop x rest max_lwr v
    end
  end.

(** The loop [for k, v in placement.items()] of
    [filter_max_weight_placement]: every entry is written back, the ["p"]
    entry after the reduction. *)
Fixpoint max_items (x : nat) (items : pquery) : option pquery :=
  match items with
  | [] => Some []
  | (k, v) :: rest =>
    let v' := if String.eqb k "p" then
                match v with
                | Loci l => max_loop x l 0 v
                | Names _ => None
                end
              else Some v in
    match v', max_items x rest with
    | Some v'', Some rest' => Some ((k, v'') :: rest')
    | _, _ => None
    end
  end.

(** The loop [for pquery in self.placements] of
    [filter_max_weight_placement]: an empty dictionary is dropped. *)
Fixpoint max_pqueries (x : nat) (ps : list pquery) : option (list pquery) :=
  match ps with
  | [] => Some []
  | placement :: rest =>
    match placement with
    | [] => max_pqueries x rest
    | _ :: _ =>
      match lookup "p" placement with
      | None => None
      | Some pv =>
        let here := if Nat.ltb 1 (pvalue_len pv) then max_items x placement
                    else Some placement in
        match here, max_pqueries x rest with
        | Some p', Some rest' => Some (p' :: rest')
        | _, _ => None
        end
      end
    end
  end.

(** [ItolJplace.filter_max_weight_placement()]. *)
Definition filter_max_weight_placement (o : ItolJplace) : option ItolJplace :=
  match truthy_position (get_field_position_from_jplace_fields o "like_weight_ratio") with
  | None => Some o
  | Some x =>
    match max_pqueries x (placements o) with
    | None => None
    | Some new_placement_collection => Some (set_placements o new_placement_collection)
    end
  end.

Fixpoint node_lookup (m : list (Q * list string)) (k : Q) : option (list string) :=
  match m with
  | [] => None
  | (k', v) :: t => if Qeq_bool k k' then Some v else node_lookup t k
  end.

(** [','.join(loci)] *)
Fixpoint join (sep : string) (l : list string) : string :=
  match l with
  | [] => ""
  | [s] => s
  | s :: t => s ++ sep ++ join sep t
  end.

Section Harmonize.
(** The reference tree is read and queried by [_tree_parser], a compiled
    extension module: the tree read from a file and the lowest common
    ancestor of a comma-separated set of leaves are parameters. *)
Variable tree : Type.
Variable read_the_reference_tree : string -> tree.
Variable lowest_common_ancestor : tree -> string -> Q.

Definition sep : string := "/".

(** The pass over the loci of a multi-locus value: the sum of the ratios
    and the first leaf of each locus' node. *)
Fixpoint harmonize_loci (o : ItolJplace) (lwr_pos : nat) (v : list (list Q))
  : option (Q * list string) :=
  match v with
  | [] => Some (0, [])
  | locus :: rest =>
    match lwr_at lwr_pos locus, nth_error locus 0 with
    | Some r, Some node =>
      match node_lookup (node_map o) node with
      | Some (leaf :: _) =>
        match harmonize_loci o lwr_pos rest with
        | Some (s, loci) => Some (r + s, leaf :: loci)
        | None => None
        end
      | _ => None
      end
    | _, _ => None
    end
  end.

(** The body of [for k, v in placement.items()] of
    [harmonize_placements]; a name list with several names is indexed like
    loci, which does not yield numeric ratios: it is an exception here. *)
Definition harmonize_value (o : ItolJplace) (t : tree) (lwr_pos : nat) (v : pvalue)
  : option pvalue :=
  if Nat.ltb 1 (pvalue_len v) then
    match v with
    | Loci l =>
      match harmonize_loci o lwr_pos l, l with
      | Some (lwr_sum, loci), first :: _ =>
        match nth_error first 1 with
        | Some like =>
          let ancestral_node := lowest_common_ancestor t (join "," loci) in
          Some (Loci [[ancestral_node; like; round2 lwr_sum; 0; 0]])
        | None => None
        end
      | _, _ => None
      end
    | Names _ => None
    end
  else Some v.

Fixpoint harmonize_items (o : ItolJplace) (t : tree) (lwr_pos : nat) (items : pquery)
  : option pquery :=
  match items with
  | [] => Some []
  | (k, v) :: rest =>
    match harmonize_value o t lwr_pos v, harmonize_items o t lwr_pos rest with
    | Some v', Some rest' => Some ((k, v') :: rest')
    | _, _ => None
    end
  end.

Fixpoint harmonize_pqueries (o : ItolJplace) (t : tree) (lwr_pos : nat) (ps : list pquery)
  : option (list pquery) :=
  match ps with
  | [] => Some []
  | placement :: rest =>
    match harmonize_items o t lwr_pos placement, harmonize_pqueries o t lwr_pos rest with
    | Some p', Some rest' => Some (p' :: rest')
    | _, _ => None
    end
  end.

(** [ItolJplace.harmonize_placements(treesapp_dir)]. *)
Definition harmonize_placements (o : ItolJplace) (treesapp_dir : string)
  : option ItolJplace :=
  let o1 := if String.eqb (name o) "nr" then set_name o "COGrRNA" else o in
  let reference_tree_file :=
    treesapp_dir ++ sep ++ "data" ++ sep ++ "tree_data" ++ sep ++ name o1 ++ "_tree.txt" in
  let reference_tree_elements := read_the_reference_tree reference_tree_file in
  match truthy_position (get_field_position_from_jplace_fields o1 "like_weight_ratio") with
  | None => Some o1
  | Some lwr_pos =>
    match harmonize_pqueries o1 reference_tree_elements lwr_pos (placements o1) with
    | None => None
    | Some singular_placements => Some (set_placements o1 singular_placements)
    end
  end.

End Harmonize.

(** Sample data: the field names written by EPA/RAxML, quoted as after
    [correct_decoding] and unquoted as read from the file. *)
Definition quote (s : string) : string := dq ++ s ++ dq.

Definition epa_field_names : list string :=
  ["edge_num"; "likelihood"; "like_weight_ratio"; "distal_length"; "pendant_length"].

Definition epa_fields : list string := map quote epa_field_names.

Definition three_loci : pquery :=
  [("p", Loci [[1; -100; 6 # 10; 0; 0]; [2; -101; 3 # 10; 0; 0]; [3; -102; 1 # 10; 0; 0]]);
   ("n", Names ["query1"])].

(** The same three loci with ["like_weight_ratio"] as the first field. *)
Definition lwr_first_field_names : list string :=
  ["like_weight_ratio"; "edge_num"; "likelihood"; "distal_length"; "pendant_length"].

Definition three_loci_lwr_first : pquery :=
  [("p", Loci [[6 # 10; 1; -100; 0; 0]; [3 # 10; 2; -101; 0; 0]; [1 # 10; 3; -102; 0; 0]]);
   ("n", Names ["query1"])].

Definition low_loci : pquery :=
  [("p", Loci [[1; -100; 5 # 100; 0; 0]; [2; -101; 2 # 100; 0; 0]]);
   ("n", Names ["query2"])].

Definition sample_node_map : list (Q * list string) :=
  [(1, ["leaf_a"]); (2, ["leaf_b"]); (3, ["leaf_c"])].

Definition sample (fs : list string) (ps : list pquery) : ItolJplace :=
  mkItolJplace "mcrA" fs sample_node_map ps true.

(** Vocabulary of the statements about the filters. *)

Definition ratio (x : nat) (c : list Q) : Q :=
  match lwr_at x c with Some r => r | None => 0 end.

Definition has_ratio (x : nat) (c : list Q) : Prop := exists r, lwr_at x c = Some r.

Definition keep_ge (x : nat) (t : Q) (c : list Q) : bool := Qle_bool t (ratio x c).

(** A pquery keeps a candidate at threshold [t]: it has one locus, or one
    of its loci has a ratio of at least [t]. *)
Definition min_ok (x : nat) (t : Q) (pq : pquery) : bool :=
  match lookup "p" pq with
  | Some (Loci l) => if Nat.ltb 1 (List.length l) then existsb (keep_ge x t) l else true
  | _ => true
  end.

(** What [filter_min_weight_threshold] makes of a pquery whose loci are
    kept: a multi-locus pquery is rewritten to its ["p"] entry with the loci
    of ratio at least [t]. *)
Definition min_spec (x : nat) (t : Q) (pq : pquery) : pquery :=
  match lookup "p" pq with
  | Some (Loci l) =>
    if Nat.ltb 1 (List.length l) then [("p", Loci (filter (keep_ge x t) l))] else pq
  | _ => pq
  end.

(** A well-formed pquery: distinct keys, and a ["p"] entry whose loci all
    have a ratio at position [x]. *)
Definition wf_pquery (x : nat) (pq : pquery) : Prop :=
  NoDup (map fst pq) /\
  exists l, lookup "p" pq = Some (Loci l) /\ Forall (has_ratio x) l.

(** Well-formed for the max-weight reduction: non-empty loci whose ratios
    are non-negative and pairwise distinct. *)
Definition wf_max (x : nat) (pq : pquery) : Prop :=
  NoDup (map fst pq) /\
  exists l, lookup "p" pq = Some (Loci l) /\ l <> [] /\
    Forall (fun c => exists r, lwr_at x c = Some r /\ 0 <= r) l /\
    ForallOrdPairs (fun c c' => ~ ratio x c == ratio x c') l.

(** Well-formed for harmonization: each locus of a multi-valued entry has a
    ratio, a likelihood, and a node with leaves in [node_map]; the ["p"]
    entry is non-empty. *)
Definition wf_harmonize (o : ItolJplace) (x : nat) (pq : pquery) : Prop :=
  Forall (fun kv => (pvalue_len (snd kv) <= 1)%nat \/
     exists l, snd kv = Loci l /\
       Forall (fun locus => has_ratio x locus /\
                 (exists like, nth_error locus 1 = Some like) /\
                 exists node leaf leaves, nth_error locus 0 = Some node /\
                   node_lookup (node_map o) node = Some (leaf :: leaves)) l) pq /\
  exists l, lookup "p" pq = Some (Loci l) /\ l <> [].

(** [max_reduced x pq pq']: the ["p"] entry of [pq'] is one locus of [pq],
    of maximal ratio at position [x]. *)
Definition max_reduced (x : nat) (pq pq' : pquery) : Prop :=
  exists l c, lookup "p" pq = Some (Loci l) /\ lookup "p" pq' = Some (Loci [c]) /\
    In c l /\ Forall (fun c' => ratio x c' <= ratio x c) l.

End Jplace.

(* ------------------------------------------------------------------ *)
(** ** Python string methods *)

Module PyStr.

(** [str.isspace] on one ASCII character: 9-13, 28-32. *)
Definition is_space (c : ascii) : bool :=
  let n := nat_of_ascii c in
  (Nat.leb 9 n && Nat.leb n 13) || (Nat.leb 28 n && Nat.leb n 32).

Fixpoint lstrip (s : string) : string :=
  match s with
  | EmptyString => EmptyString
  | String c t => if is_space c then lstrip t else s
  end.

Definition rstrip (s : string) : string :=
  string_of_list_ascii (rev (list_ascii_of_string (lstrip
    (string_of_list_ascii (rev (list_ascii_of_string s)))))).

(** [str.strip()] *)
Definition strip (s : string) : string := rstrip (lstrip s).

(** [str.split(sep)] for a non-empty separator: the pieces between the
    leftmost non-overlapping occurrences of [sep]; [fuel] is the length of
    the string. *)
Fixpoint split_aux (fuel : nat) (sep s cur : string) : list string :=
  match fuel with
  | O => [cur]
  | S f =>
    match s with
    | EmptyString => [cur]
    | String c t =>
      if String.prefix sep s
      then cur :: split_aux f sep (substring (String.length sep)
                                     (String.length s) s) EmptyString
      else split_aux f sep t (cur ++ String c EmptyString)
    end
  end.

Definition split (sep s : string) : list string := split_aux (String.length s) sep s "".

(** [sep.join(l)] *)
Fixpoint join (sep : string) (l : list string) : string :=
  match l with
  | [] => ""
  | [s] => s
  | s :: t => s ++ sep ++ join sep t
  end.

(** The characters of a string, as Python iterates over them. *)
Definition chars (s : string) : list string :=
  map (fun c => String c EmptyString) (list_ascii_of_string s).

End PyStr.

(* ------------------------------------------------------------------ *)
(** ** classy.py: TreeProtein.megan_lca *)

Module Lca.
Import PyStr.

(** [lca_set.add(x)] on a set kept as the list of its elements. *)
Definition set_add (s : list string) (x : string) : list string :=
  if existsb (String.eqb x) s then s else app s [x].

(** The loop [for lineage in sorted(listed_lineages)] at rank [i]: the set
    of the names found at rank [i] and the number of lineages that have one.
    Neither the set nor the count depends on the order of the lineages, so
    they are visited in list order. *)
Fixpoint scan (i : nat) (ls : list (list string)) (lca_set : list string)
    (contributors : nat) : list string * nat :=
  match ls with
  | [] => (lca_set, contributors)
  | lineage :: rest =>
    match nth_error lineage i with
    | Some a => scan i rest (set_add lca_set a) (S contributors)
    | None => scan i rest lca_set contributors  (* [except IndexError: pass] *)
    end
  end.

(** The loop [while i < max_depth]; [fuel] is [max_depth], enough since
    [i] grows at every iteration. *)
Fixpoint walk (fuel i max_depth : nat) (listed_lineages : list (list string))
    (lca_lineage_strings : list string) : list string :=
  match fuel with
  | O => lca_lineage_strings
  | S f =>
    if Nat.ltb i max_depth then
      let '(lca_set, contributors) := scan i listed_lineages [] 0 in
      match lca_set with
      | [a] => if Nat.eqb contributors (List.length listed_lineages)
               then walk f (S i) max_depth listed_lineages (app lca_lineage_strings [a])
               else lca_lineage_strings
      | _ => lca_lineage_strings
      end
    else lca_lineage_strings
  end.

(** [TreeProtein.megan_lca()]; [None] is the [ValueError] of [max([])]
    on an empty lineage list. *)
Definition megan_lca (lineage_list : list string) : option string :=
  match lineage_list with
  | [only] => Some (join "; " (chars only))
  | [] => None
  | _ =>
    let listed_lineages := map (fun lineage => split "; " (strip lineage)) lineage_list in
    let max_depth := list_max (map (@List.length string) listed_lineages) in
    Some (join "; " (walk max_depth 0 max_depth listed_lineages []))
  end.

(** The ranks of the spec: the name every lineage has at rank [i], if they
    all have one and agree on it. *)
Definition rank_consensus (i : nat) (ls : list (list string)) : option string :=
  match ls with
  | [] => None
  | l0 :: _ =>
    match nth_error l0 i with
    | Some a =>
      if forallb (fun l => match nth_error l i with
                           | Some b => String.eqb a b
                           | None => false end) ls
      then Some a else None
    | None => None
    end
  end.

(** Walking the ranks from the left and stopping at the first one where
    not every lineage agrees. *)
Fixpoint agree_from (fuel i : nat) (ls : list (list string)) : list string :=
  match fuel with
  | O => []
  | S f =>
    match rank_consensus i ls with
    | Some a => a :: agree_from f (S i) ls
    | None => []
    end
  end.

(** The names found at rank [i], one per lineage that has a rank [i]. *)
Definition ranks (i : nat) (ls : list (list string)) : list string :=
  flat_map (fun l => match nth_error l i with Some a => [a] | None => [] end) ls.

Definition consensus_prefix (ls : list (list string)) : list string :=
  agree_from (list_max (map (@List.length string) ls)) 0 ls.

End Lca.

(* ------------------------------------------------------------------ *)
(** ** create_treesapp_ref_data.py: threshold, estimate_taxonomic_redundancy *)

Module RefData.
Import Py PyStr.

(** [sorted(lst, reverse=True)] on integers, as an insertion sort. *)
Fixpoint insert_desc (x : Z) (l : list Z) : list Z :=
  match l with
  | [] => [x]
  | y :: t => if Z.leb y x then x :: l else y :: insert_desc x t
  end.

Definition sorted_desc (lst : list Z) : list Z := fold_right insert_desc [] lst.

(** Python's [l[index]], negative indices counting from the end; [None] is
    the [IndexError]. *)
Definition py_index (l : list Z) (index : Z) : option Z :=
  if Z.leb 0 index then nth_error l (Z.to_nat index)
  else let j := (Z.of_nat (List.length l) + index)%Z in
       if Z.leb 0 j then nth_error l (Z.to_nat j) else None.

(** [round(len(lst)*f)-1].  [0.75] is exact in binary; for [0.51] and
    [0.9] the float product rounds as the exact decimal one for every
    length below 200000. *)
Definition percentile_index (n : nat) (f : Q) : Z :=
  (round_half_even (inject_Z (Z.of_nat n) * f) - 1)%Z.

Definition threshold (lst : list Z) (confidence : string) : option Z :=
  let index :=
    if String.eqb confidence "low" then percentile_index (List.length lst) (51 # 100)
    else if String.eqb confidence "medium" then percentile_index (List.length lst) (3 # 4)
    else percentile_index (List.length lst) (9 # 10) in
  py_index (sorted_desc lst) index.

(** [rank_depth_map] *)
Definition rank_depth_map : list (nat * string) :=
  [(1, "Kingdoms"); (2, "Phyla"); (3, "Classes"); (4, "Orders");
   (5, "Families"); (6, "Genera"); (7, "Species")]%nat.

(** One dictionary [taxa_counts[rank]]: taxon name to count, in insertion
    order. *)
Definition taxon_counts := list (string * Z).

Fixpoint count_taxon (taxon : string) (d : taxon_counts) : taxon_counts :=
  match d with
  | [] => [(taxon, 1%Z)]
  | (t, n) :: rest =>
    if String.eqb t taxon then (t, (n + 1)%Z) :: rest else (t, n) :: count_taxon taxon rest
  end.

(** [taxa_counts], indexed by depth - 1. *)
Definition no_counts : list taxon_counts := repeat [] 7.

(** The loop [while position < len(taxa) and position < 8] for one
    lineage. *)
Fixpoint count_lineage (fuel position : nat) (taxa : list string)
    (taxa_counts : list taxon_counts) : list taxon_counts :=
  match fuel with
  | O => taxa_counts
  | S f =>
    if Nat.ltb position (List.length taxa) && Nat.ltb position 8 then
      match nth_error taxa position with
      | Some taxon =>
        let d := pred position in
        count_lineage f (S position) taxa
          (Hmmer.set_nth d (count_taxon taxon (nth d taxa_counts [])) taxa_counts)
      | None => taxa_counts
      end
    else taxa_counts
  end.

(** The counting loop over the reference lineages (sorted by their
    numeric key). *)
Definition taxa_counts (lineages : list string) : list taxon_counts :=
  fold_left (fun tc lineage => count_lineage 8 1 (split "; " lineage) tc) lineages no_counts.

(** [redundancy] for the rank at [depth]. *)
Definition redundancy (lineages : list string) (depth : nat) : list Z :=
  map snd (nth (pred depth) (taxa_counts lineages) []).

(** The loop [for depth in rank_depth_map] with its [break]. *)
Fixpoint pick_rank (ranks : list (nat * string)) (lineages : list string)
    (lowest_reliable_rank : string) : option string :=
  match ranks with
  | [] => Some lowest_reliable_rank
  | (depth, rank) :: rest =>
    match threshold (redundancy lineages depth) "medium" with
    | None => None
    | Some v => if Z.eqb v 1 then Some rank else pick_rank rest lineages lowest_reliable_rank
    end
  end.

(** [estimate_taxonomic_redundancy]; [None] is the [IndexError] of
    [threshold] on a rank without taxa. *)
Definition estimate_taxonomic_redundancy (lineages : list string) : option string :=
  pick_rank rank_depth_map lineages "Strain".

End RefData.

(* ================================================================== *)
(** ** [write_new_fasta] (treesapp.py)

    The file system is an association list from file names to the chunks
    written to them; [open(name, 'w')] truncates. *)
Module Fasta.

Definition store := list (string * list string).

Definition nl : string := String (ascii_of_nat 10) EmptyString.

Fixpoint remove_file (n : string) (fs : store) : store :=
  match fs with
  | [] => []
  | (m, c) :: t => if String.eqb m n then remove_file n t else (m, c) :: remove_file n t
  end.

Fixpoint contents (n : string) (fs : store) : option (list string) :=
  match fs with
  | [] => None
  | (m, c) :: t => if String.eqb m n then Some c else contents n t
  end.

(** [open(name, 'w')]. *)
Definition open_w (n : string) (fs : store) : store := (n, []) :: remove_file n fs.

(** [fa_out.write(x)] on the open file [n]. *)
Definition write (n : string) (x : string) (fs : store) : store :=
  match contents n fs with
  | Some c => (n, app c [x]) :: remove_file n fs
  | None => (n, [x]) :: remove_file n fs
  end.

(** [str(n)] for a non-negative int. *)
Definition str (n : nat) : string := NilEmpty.string_of_uint (Nat.to_uint n).

Fixpoint all_d (s : string) : bool :=
  match s with
  | EmptyString => true
  | String c t => Ascii.eqb c "d"%char && all_d t
  end.

(** [re.sub(r'_d+$', repl, s)]: the pattern is a literal underscore
    followed by one or more letters [d] at the end of the string. *)
Fixpoint re_sub_d (repl s : string) : string :=
  match s with
  | EmptyString => EmptyString
  | String c t =>
      if Ascii.eqb c "_"%char && negb (String.eqb t EmptyString) && all_d t
      then repl
      else String c (re_sub_d repl t)
  end.

(** The [for name in fasta_dict.keys()] loop, with [headers is None]. *)
Fixpoint write_loop (max_seqs : option nat) (items : list (string * string))
    (fasta_name : string) (acc counter : nat) (split_files : list string)
    (fs : store) : list string * string * nat * store :=
  match items with
  | [] => (split_files, fasta_name, counter, fs)
  | (name, seq) :: rest =>
      let acc := S acc in
      let '(fasta_name, acc, counter, split_files, fs) :=
        match max_seqs with
        | Some (S _ as m) =>
            if Nat.ltb m acc then
              let split_files := app split_files [fasta_name] in
              let counter := S counter in
              let fasta_name := re_sub_d ("_" ++ str counter) fasta_name in
              (fasta_name, 1%nat, counter, split_files, open_w fasta_name fs)
            else (fasta_name, acc, counter, split_files, fs)
        | _ => (fasta_name, acc, counter, split_files, fs)
        end in
      let fs := write fasta_name (seq ++ nl) (write fasta_name (name ++ nl) fs) in
      write_loop max_seqs rest fasta_name acc counter split_files fs
  end.

Definition write_new_fasta (fasta_dict : list (string * string)) (fasta_name : string)
    (max_seqs : option nat) (fs : store) : list string * store :=
  let fasta_name := match max_seqs with
                    | Some m => fasta_name ++ "_" ++ str m
                    | None => fasta_name
                    end in
  let fs := open_w fasta_name fs in
  let '(split_files, fasta_name, _, fs) := write_loop max_seqs fasta_dict fasta_name 0 0 [] fs in
  (app split_files [fasta_name], fs).

End Fasta.

(** ** Instance and class attributes of [ItolJplace] and [TreeProtein]
    (classy.py)

    Mutable containers live in a heap indexed by location; an object holds
    its instance attributes, and attribute lookup falls back to the class
    attributes, as Python's does. *)
Module Classy.

Inductive value :=
  | VStr (s : string)
  | VRef (l : nat)
  | VNum (z : Z)
  | VBool (b : bool)
  | VNone.

Definition heap := list (list string).

Record obj := mkObj { attrs : list (string * value) }.

Fixpoint assoc (n : string) (l : list (string * value)) : option value :=
  match l with
  | [] => None
  | (m, v) :: t => if String.eqb m n then Some v else assoc n t
  end.

(** The class body: [fields = list()] is evaluated once, at class
    creation; its list is location 0 of the initial heap. *)
Definition class_attrs : list (string * value) := [("fields", VRef 0)].
Definition class_heap : heap := [[]].

Definition getattr (o : obj) (n : string) : option value :=
  match assoc n (attrs o) with
  | Some v => Some v
  | None => assoc n class_attrs
  end.

Definition setattr (o : obj) (n : string) (v : value) : obj :=
  mkObj ((n, v) :: filter (fun p => negb (String.eqb (fst p) n)) (attrs o)).

Definition alloc (h : heap) : nat * heap := (List.length h, app h [[]]).

(** [ItolJplace.__init__]. *)
Definition init (h : heap) : heap * obj :=
  let o := mkObj [] in
  let o := setattr o "contig_name" (VStr "") in
  let o := setattr o "name" (VStr "") in
  let o := setattr o "abundance" VNone in
  let (lnm, h) := alloc h in
  let o := setattr o "node_map" (VRef lnm) in
  let o := setattr o "seq_len" (VNum 0) in
  let (lll, h) := alloc h in
  let o := setattr o "lineage_list" (VRef lll) in
  let o := setattr o "wtd" (VNum 0) in
  let o := setattr o "lct" (VStr "") in
  let (lpl, h) := alloc h in
  let o := setattr o "placements" (VRef lpl) in
  let o := setattr o "lwr" (VNum 0) in
  let o := setattr o "likelihood" (VNum 0) in
  let o := setattr o "avg_evo_dist" (VNum 0) in
  let o := setattr o "distances" (VStr "") in
  let o := setattr o "classified" (VBool true) in
  let o := setattr o "inode" (VStr "") in
  let o := setattr o "tree" (VStr "") in
  let o := setattr o "metadata" (VStr "") in
  let o := setattr o "version" (VStr "") in
  (h, o).

(** [o.n.clear()]. *)
Definition clear_attr (h : heap) (o : obj) (n : string) : option heap :=
  match getattr o n with
  | Some (VRef l) => if Nat.ltb l (List.length h) then Some (Hmmer.set_nth l [] h) else None
  | _ => None
  end.

(** [o.n.append(x)]. *)
Definition append_attr (h : heap) (o : obj) (n : string) (x : string) : option heap :=
  match getattr o n with
  | Some (VRef l) =>
      match nth_error h l with
      | Some c => Some (Hmmer.set_nth l (app c [x]) h)
      | None => None
      end
  | _ => None
  end.

(** The contents of the container [o.n]. *)
Definition contents_attr (h : heap) (o : obj) (n : string) : option (list string) :=
  match getattr o n with
  | Some (VRef l) => nth_error h l
  | _ => None
  end.

(** [ItolJplace.clear_object]. *)
Definition clear_object (h : heap) (o : obj) : option (heap * obj) :=
  match clear_attr h o "placements" with
  | None => None
  | Some h =>
    match clear_attr h o "fields" with
    | None => None
    | Some h =>
      match clear_attr h o "node_map" with
      | None => None
      | Some h =>
        let o := setattr o "contig_name" (VStr "") in
        let o := setattr o "name" (VStr "") in
        let o := setattr o "tree" (VStr "") in
        let o := setattr o "metadata" (VStr "") in
        let o := setattr o "version" (VStr "") in
        let (lll, h) := alloc h in
        let o := setattr o "lineage_list" (VRef lll) in
        let o := setattr o "lct" (VStr "") in
        let o := setattr o "abundance" VNone in
        Some (h, o)
      end
    end
  end.


(** The locations of the containers [clear_object] empties. *)
Definition cleared_locs (o : obj) : list nat :=
  flat_map (fun n => match getattr o n with Some (VRef l) => [l] | _ => [] end)
           ["placements"; "fields"; "node_map"].


(** [a = ItolJplace(); b = ItolJplace(); a.fields.append(f)]: [b.fields];
    then [a.fields] before and after [b.clear_object()]. *)
Definition shared_fields (f : string) : option (list string * list string * list string) :=
  let (h, a) := init class_heap in
  let (h, b) := init h in
  match append_attr h a "fields" f with
  | None => None
  | Some h =>
    match contents_attr h b "fields", contents_attr h a "fields", clear_object h b with
    | Some b_fields, Some a_before, Some (h', _) =>
        match contents_attr h' a "fields" with
        | Some a_after => Some (b_fields, a_before, a_after)
        | None => None
        end
    | _, _, _ => None
    end
  end.

End Classy.

(* ------------------------------------------------------------------ *)
(** ** HMMER_domainTblParser.py: table lines, orientation of the
    sub-alignments, their consolidation and the hit filters *)

Module HmmerTbl.
Import Hmmer.

(** [format_hmmer_domtbl_line(line)]: the loop [for c in line]. *)
Fixpoint format_loop (line : list ascii) (stats : list string) (stat : string) : list string :=
  match line with
  | [] => app stats [stat]
  | c :: t =>
    if Ascii.eqb c " " then
      if Nat.ltb 0 (String.length stat) then format_loop t (app stats [stat]) ""
      else format_loop t stats stat
    else format_loop t stats (stat ++ String c EmptyString)
  end.

Definition format_hmmer_domtbl_line (line : string) : list string :=
  format_loop (list_ascii_of_string line) [] "".

Definition has_space (s : string) : bool :=
  existsb (fun c => Ascii.eqb c " ") (list_ascii_of_string s).

Definition drop_spaces (s : string) : string :=
  string_of_list_ascii (filter (fun c => negb (Ascii.eqb c " ")) (list_ascii_of_string s)).

(** [n] spaces, and tokens joined by runs of spaces: the gap after the
    [i]-th token has [1 + nth i gaps 0] spaces. *)
Fixpoint spaces (n : nat) : string :=
  match n with
  | O => EmptyString
  | S m => String " " (spaces m)
  end.

Fixpoint join_runs (ts : list string) (gaps : list nat) : string :=
  match ts with
  | [] => EmptyString
  | [t] => t
  | t :: rest => t ++ spaces (S (hd O gaps)) ++ join_runs rest (tl gaps)
  end.

(** [alignment_relations[(i, j)] = ...]: a dictionary assignment, which
    replaces the value of an existing key in place and appends a new key. *)
Fixpoint dict_set {V} (k : nat * nat) (v : V) (d : list ((nat * nat) * V))
  : list ((nat * nat) * V) :=
  match d with
  | [] => [(k, v)]
  | (k', v') :: t =>
    if Nat.eqb (fst k) (fst k') && Nat.eqb (snd k) (snd k') then (k, v) :: t
    else (k', v') :: dict_set k v t
  end.

(** The inner loop of [orient_alignments] for the base at [i]. *)
Fixpoint orient_inner (fuel : nat) (l : list HmmMatch) (i j : nat) (initial_start initial_stop : Z)
    (rel : list ((nat * nat) * orientation)) : list ((nat * nat) * orientation) * nat :=
  match fuel with
  | O => (rel, j)
  | S f =>
    if Nat.ltb j (List.length l) then
      if Nat.eqb j i then orient_inner f l i (S j) initial_start initial_stop rel
      else
        match nth_error l j with
        | Some p =>
          orient_inner f l i (S j) initial_start initial_stop
            (dict_set (i, j) (detect_orientation initial_start initial_stop (start p) (end_ p)) rel)
        | None => (rel, j)
        end
    else (rel, j)
  end.

(** The outer loop: after the inner loop, [j = i] and then [i += 1]. *)
Fixpoint orient_outer (fuel : nat) (l : list HmmMatch) (i j : nat)
    (rel : list ((nat * nat) * orientation)) : list ((nat * nat) * orientation) :=
  match fuel with
  | O => rel
  | S f =>
    match nth_error l i with
    | Some a =>
      let '(rel', _) := orient_inner (S (List.length l)) l i j (start a) (end_ a) rel in
      orient_outer f l (S i) i rel'
    | None => rel
    end
  end.

Definition orient_alignments (l : list HmmMatch) : list ((nat * nat) * orientation) :=
  orient_outer (List.length l) l 0 0 [].

(** [alignments_to_defecate.add(x)] *)
Definition nat_set_add (s : list nat) (x : nat) : list nat :=
  if existsb (Nat.eqb x) s then s else app s [x].

(** The loop [for pair in alignment_relations] of
    [consolidate_subalignments]; [None] is an [IndexError]. *)
Fixpoint defecate (l : list HmmMatch) (rels : list ((nat * nat) * orientation))
    (acc : list nat) : option (list nat) :=
  match rels with
  | [] => Some acc
  | ((base, projected), r) :: rest =>
    match r with
    | satellite => defecate l rest acc
    | overlap =>
      match nth_error l base, nth_error l projected with
      | Some b, Some p =>
        if Qlt_le_dec (ceval b) (ceval p) then defecate l rest (nat_set_add acc projected)
        else defecate l rest (nat_set_add acc base)
      | _, _ => None
      end
    | supersequence => defecate l rest (nat_set_add acc projected)
    | subsequence => defecate l rest (nat_set_add acc base)
    end
  end.

Section Consolidate.
(** The dictionary key [' '.join([orf, desc]) + '_' + str(num) + '_' +
    str(of)] reads the description, which scaffolding does not carry: it
    is a parameter. *)
Variable header : HmmMatch -> string.

Fixpoint dict_put (k : string) (v : HmmMatch) (d : list (string * HmmMatch))
  : list (string * HmmMatch) :=
  match d with
  | [] => [(k, v)]
  | (k', v') :: t => if String.eqb k k' then (k, v) :: t else (k', v') :: dict_put k v t
  end.

(** The loop [while x < len(fragmented_alignment_data)]. *)
Fixpoint keep_loop (l : list HmmMatch) (x : nat) (drop : list nat)
    (distinct : list (string * HmmMatch)) : list (string * HmmMatch) :=
  match l with
  | [] => distinct
  | h :: t =>
    keep_loop t (S x) drop
      (if existsb (Nat.eqb x) drop then distinct else dict_put (header h) h distinct)
  end.

Definition consolidate_subalignments (l : list HmmMatch)
    (alignment_relations : list ((nat * nat) * orientation))
    (distinct_alignments : list (string * HmmMatch)) : option (list (string * HmmMatch)) :=
  match defecate l alignment_relations [] with
  | None => None
  | Some drop => Some (keep_loop l 0 drop distinct_alignments)
  end.

End Consolidate.

(** The indices the [x] loop keeps. *)
Definition kept (l : list HmmMatch) (drop : list nat) : list nat :=
  filter (fun x => negb (existsb (Nat.eqb x) drop)) (seq 0 (List.length l)).

(** [filter_incomplete_hits(args, purified_matches, num_dropped)]:
    [float((int(ali_len)*100)/int(hmm_len)) >= args.perc_aligned], with
    the true division taken exactly; [None] is the [ZeroDivisionError]. *)
Definition perc_aligned_ok (perc : Z) (h : HmmMatch) : option bool :=
  if Z.eqb (hmm_len h) 0 then None
  else Some (Qle_bool (inject_Z perc)
                      (inject_Z ((pend h - pstart h) * 100) / inject_Z (hmm_len h))).

Fixpoint incomplete_loop (perc : Z) (hs : list HmmMatch) (complete : list HmmMatch)
    (num_dropped : Z) : option (list HmmMatch * Z) :=
  match hs with
  | [] => Some (complete, num_dropped)
  | h :: t =>
    match perc_aligned_ok perc h with
    | None => None
    | Some true => incomplete_loop perc t (app complete [h]) num_dropped
    | Some false => incomplete_loop perc t complete (num_dropped + 1)%Z
    end
  end.

Fixpoint filter_incomplete_hits_from (perc : Z) (purified : list ((string * string) * list HmmMatch))
    (complete : list HmmMatch) (num_dropped : Z) : option (list HmmMatch * Z) :=
  match purified with
  | [] => Some (complete, num_dropped)
  | (_, hs) :: rest =>
    match incomplete_loop perc hs complete num_dropped with
    | None => None
    | Some (c, n) => filter_incomplete_hits_from perc rest c n
    end
  end.

Definition filter_incomplete_hits (perc : Z) (purified : list ((string * string) * list HmmMatch))
    (num_dropped : Z) : option (list HmmMatch * Z) :=
  filter_incomplete_hits_from perc purified [] num_dropped.

(** The query and profile ranges of [y] contain those of [x]. *)
Definition covers (y x : HmmMatch) : Prop :=
  (start y <= start x /\ end_ x <= end_ y /\ pstart y <= pstart x /\ pend x <= pend y)%Z.

End HmmerTbl.

(* ------------------------------------------------------------------ *)
(** ** treesapp.py: calculate_overlap *)

Module Overlap.
Open Scope Z_scope.

(** [calculate_overlap(info)] with [info['base']] and [info['check']]
    given by their coordinates. *)
Definition calculate_overlap (base_start base_end check_start check_end : Z) : Z :=
  if base_start <=? check_start then
    if (check_end >=? base_end) && (base_end >=? check_start) then base_end - check_start
    else if check_end <=? base_end then check_end - check_start
    else 0
  else if check_start <=? base_start then
    if (base_start <=? check_end) && (check_end <=? base_end) then check_end - base_start
    else if base_end <=? check_end then base_end - base_start
    else 0
  else 0.

End Overlap.

(* ------------------------------------------------------------------ *)
(** ** classy.py and treesapp.py: more of ItolJplace *)

Module JplaceMore.
Import Py Jplace.
Open Scope Q_scope.

(** [json.dumps(s)] of a string, with the default [ensure_ascii=True]: the
    characters matched by [ESCAPE_ASCII] (backslash, double quote and
    everything outside space to tilde) are replaced
    by their entry of [ESCAPE_DCT] or by [\u] and four lower-case hex
    digits.  A Rocq character stands for the code point below 256 it
    encodes. *)
Definition backslash : ascii := ascii_of_nat 92.

Definition hex_digit (n : nat) : ascii := ascii_of_nat (if Nat.ltb n 10 then 48 + n else 87 + n).

Definition esc_char (c : ascii) : string :=
  let n := nat_of_ascii c in
  if Nat.eqb n 34 then String backslash dq
  else if Nat.eqb n 92 then String backslash (String backslash EmptyString)
  else if Nat.eqb n 8 then String backslash "b"
  else if Nat.eqb n 12 then String backslash "f"
  else if Nat.eqb n 10 then String backslash "n"
  else if Nat.eqb n 13 then String backslash "r"
  else if Nat.eqb n 9 then String backslash "t"
  else if Nat.ltb n 32 || Nat.leb 127 n then
    String backslash ("u00" ++ String (hex_digit (n / 16)) (String (hex_digit (n mod 16)) EmptyString))
  else String c EmptyString.

Fixpoint esc (s : string) : string :=
  match s with
  | EmptyString => EmptyString
  | String c t => esc_char c ++ esc t
  end.

Definition dumps (s : string) : string := dq ++ esc s ++ dq.

(** [re.match('".*"', field)]: a double quote at the start, then a later
    double quote with no newline in between (['.'] does not match a
    newline). *)
Fixpoint quote_before_newline (s : string) : bool :=
  match s with
  | EmptyString => false
  | String c t =>
    if Nat.eqb (nat_of_ascii c) 34 then true
    else if Nat.eqb (nat_of_ascii c) 10 then false
    else quote_before_newline t
  end.

Definition re_match_quoted (field : string) : bool :=
  match field with
  | EmptyString => false
  | String c t => Nat.eqb (nat_of_ascii c) 34 && quote_before_newline t
  end.

(** The second loop of [ItolJplace.correct_decoding] in classy.py.  The
    first loop turns each decoded placement into its JSON string; the
    placements are modelled by their decoding, on which it is the
    identity. *)
Definition decode_fields (fs : list string) : list string :=
  map (fun field => if re_match_quoted field then field else dumps field) fs.

Definition set_fields (o : ItolJplace) (fs : list string) : ItolJplace :=
  mkItolJplace (name o) fs (node_map o) (placements o) (classified o).

Definition correct_decoding (o : ItolJplace) : ItolJplace :=
  set_fields o (decode_fields (fields o)).

(** The loop [for d_place in self.placements] of the legacy
    [ItolJplace.correct_decoding] in treesapp.py, on decoded placements:
    each one becomes the JSON string of its items, modelled by its
    decoding; an empty dictionary leaves [placement_string] as the
    previous placement made it. *)
Fixpoint legacy_encode_placements (ps : list pquery) (placement_string : pquery) : list pquery :=
  match ps with
  | [] => []
  | d_place :: rest =>
    let placement_string' := match d_place with [] => placement_string | _ :: _ => d_place end in
    placement_string' :: legacy_encode_placements rest placement_string'
  end.

(** The legacy [ItolJplace.correct_decoding] of treesapp.py.  [encoded]
    tells whether [self.placements] holds the strings a previous call made
    (or the decoded dictionaries read from the jplace file); on a string,
    [d_place.items()] is the [AttributeError], [None] here.  Then
    [self.fields = [dumps(x) for x in self.fields]]. *)
Definition legacy_correct_decoding (o : ItolJplace) (encoded : bool) : option ItolJplace :=
  match encoded, placements o with
  | true, _ :: _ => None
  | _, _ =>
    Some (set_fields (set_placements o (legacy_encode_placements (placements o) []))
                     (map dumps (fields o)))
  end.

(** The loop [for field in self.fields] of the legacy
    [filter_min_weight_threshold]: the position of
    ['"like_weight_ratio"'], [None] when the loop runs off the end. *)
Definition legacy_lwr_position (o : ItolJplace) : option nat :=
  let x := position_from (dq ++ "like_weight_ratio" ++ dq) (fields o) 0 in
  if Nat.eqb x (List.length (fields o)) then None else Some x.

(** [d[key] = value] on a dictionary: an existing key keeps its place. *)
Fixpoint put (k : string) (v : pvalue) (d : pquery) : pquery :=
  match d with
  | [] => [(k, v)]
  | (k', v') :: t => if String.eqb k k' then (k, v) :: t else (k', v') :: put k v t
  end.

(** [ItolJplace.rename_placed_sequence(seq_name)]: all placements are
    merged into one dictionary. *)
Definition rename_items (seq_name : string) (acc : pquery) (d_place : pquery) : pquery :=
  fold_left (fun acc kv => if String.eqb (fst kv) "n" then put "n" (Names [seq_name]) acc
                           else put (fst kv) (snd kv) acc) d_place acc.

Definition rename_placed_sequence (o : ItolJplace) (seq_name : string) : ItolJplace :=
  set_placements o [fold_left (rename_items seq_name) (placements o) []].

(** A value [value[0]] may take: a name or a locus. *)
Inductive jelem :=
  | JStr (s : string)
  | JLocus (l : list Q).

(** [value[0]]; [None] is the [IndexError] of an empty list. *)
Definition first_elem (v : pvalue) : option jelem :=
  match v with
  | Names (s :: _) => Some (JStr s)
  | Loci (l :: _) => Some (JLocus l)
  | _ => None
  end.

(** [ItolJplace.name_placed_sequence()] on [placements], from the value
    [contig_name] had before; [None] is an exception. *)
Definition name_placed_sequence (ps : list pquery) (contig_name : jelem) : option jelem :=
  fold_left (fun c d_place =>
    fold_left (fun c kv =>
      match c with
      | None => None
      | Some c' => if String.eqb (fst kv) "n" then first_elem (snd kv) else Some c'
      end) d_place c) ps (Some contig_name).

(** An element of a pquery field list: a number of a locus, or a
    character when the ["p"] entry holds strings. *)
Inductive element :=
  | ENum (q : Q)
  | EChar (a : ascii).

(** [pquery_fields[position]]; [None] is an exception: an index out of
    range, or the position [None] ([TypeError]). *)
Definition field_at (position : option nat) (pquery_fields : list Q) : option element :=
  match position with
  | None => None
  | Some x => option_map ENum (nth_error pquery_fields x)
  end.

Definition char_at (position : option nat) (s : string) : option element :=
  match position with
  | None => None
  | Some x => option_map EChar (String.get x s)
  end.

(** The [while acc < len(v)] loop of [get_jplace_element]. *)
Fixpoint element_loop {A} (at_ : A -> option element) (v : list A) (element_value : option element)
  : option (option element) :=
  match v with
  | [] => Some element_value
  | pquery_fields :: rest =>
    match at_ pquery_fields with
    | None => None
    | Some e => element_loop at_ rest (Some e)
    end
  end.

(** [ItolJplace.get_jplace_element(element_name)]: the outer [None] is an
    exception ([IndexError] on no placement). *)
Definition get_jplace_element (o : ItolJplace) (element_name : string) : option (option element) :=
  let position := get_field_position_from_jplace_fields o element_name in
  match placements o with
  | [] => None
  | placement :: _ =>
    fold_left (fun ev kv =>
      match ev with
      | None => None
      | Some ev' =>
        if String.eqb (fst kv) "p" then
          match snd kv with
          | Loci v => element_loop (field_at position) v ev'
          | Names v => element_loop (char_at position) v ev'
          end
        else Some ev'
      end) placement (Some None)
  end.

(** The characters [json.dumps] writes as themselves. *)
Definition plain_char (c : ascii) : Prop :=
  (32 <= nat_of_ascii c < 127)%nat /\ nat_of_ascii c <> 34%nat /\ nat_of_ascii c <> 92%nat.

(** The value [rename_placed_sequence] writes for a key. *)
Definition renamed_value (seq_name k : string) (v : pvalue) : pvalue :=
  if String.eqb k "n" then Names [seq_name] else v.

End JplaceMore.

(* ------------------------------------------------------------------ *)
(** ** create_treesapp_ref_data.py: text files of a reference package *)

Module RefMore.
Import PyStr.

(** The loop of [reverse_complement]: the five [if] statements on one
    character, in their order. *)
Definition comp_of (c : ascii) : list ascii :=
  app (if Ascii.eqb c "A" || Ascii.eqb c "a" then ["T"%char] else [])
  (app (if Ascii.eqb c "G" || Ascii.eqb c "g" then ["C"%char] else [])
  (app (if Ascii.eqb c "U" || Ascii.eqb c "u" || Ascii.eqb c "T" || Ascii.eqb c "t"
        then ["A"%char] else [])
  (app (if Ascii.eqb c "C" || Ascii.eqb c "c" then ["G"%char] else [])
       (if Ascii.eqb c "." || Ascii.eqb c "-" then [c] else [])))).

(** [''.join(reversed(comp))] *)
Definition reverse_complement (rrna_sequence : string) : string :=
  string_of_list_ascii (rev (flat_map comp_of (list_ascii_of_string rrna_sequence))).

(** The characters [reverse_complement] writes. *)
Definition dna_char (c : ascii) : bool :=
  existsb (Ascii.eqb c) ["A"; "C"; "G"; "T"; "."; "-"]%char.

(** [proper_species_re.match(s)] for the pattern [^[A-Z][a-z]+ [a-z]+$]:
    [$] also matches just before a newline that ends the string. *)
Definition is_upper (c : ascii) : bool :=
  Nat.leb 65 (nat_of_ascii c) && Nat.leb (nat_of_ascii c) 90.
Definition is_lower (c : ascii) : bool :=
  Nat.leb 97 (nat_of_ascii c) && Nat.leb (nat_of_ascii c) 122.

(** [[a-z]+$] after the space; [seen] once a letter has been read. *)
Fixpoint species_epithet (cs : list ascii) (seen : bool) : bool :=
  match cs with
  | [] => seen
  | [c] => if is_lower c then true else seen && Ascii.eqb c (ascii_of_nat 10)
  | c :: t => is_lower c && species_epithet t true
  end.

(** [[a-z]+ ] after the capital letter. *)
Fixpoint species_genus (cs : list ascii) (seen : bool) : bool :=
  match cs with
  | [] => false
  | c :: t =>
    if is_lower c then species_genus t true
    else if Ascii.eqb c " " then seen && species_epithet t false
    else false
  end.

Definition proper_species (s : string) : bool :=
  match list_ascii_of_string s with
  | c :: t => is_upper c && species_genus t false
  | [] => false
  end.

Definition check_lineage (lineage organism_name : string) : string :=
  if proper_species (last (split "; " lineage) "") then lineage
  else if Nat.eqb (List.length (split "; " lineage)) 7 && proper_species organism_name
  then lineage ++ "; " ++ organism_name
  else lineage.

Definition tab : string := String (ascii_of_nat 9) EmptyString.
Definition lf : string := String (ascii_of_nat 10) EmptyString.

(** One line of the formatting loop of [write_tax_ids]:
    ["%s\t%s | %s\t%s\n" % (key, organism, accession, lineage)]. *)
Definition tax_ids_line (key organism accession lineage : string) : string :=
  key ++ tab ++ organism ++ " | " ++ accession ++ tab ++ lineage ++ lf.

(** [tree_taxa_string], built over the records in the order of
    [sorted(fasta_replace_dict.keys(), key=int)]. *)
Definition tree_taxa_string (records : list (string * string * string * string)) : string :=
  fold_left (fun acc '(k, o, a, l) => acc ++ tax_ids_line k o a l) records "".

(** Python 3 [str.isspace] on a code point below 256, and Python 2
    [str.isspace] on a byte. *)
Definition is_space_py3 (c : ascii) : bool :=
  is_space c || Nat.eqb (nat_of_ascii c) 133 || Nat.eqb (nat_of_ascii c) 160.

Fixpoint lstrip_with (sp : ascii -> bool) (s : string) : string :=
  match s with
  | EmptyString => EmptyString
  | String c t => if sp c then lstrip_with sp t else s
  end.

Definition rstrip_with (sp : ascii -> bool) (s : string) : string :=
  string_of_list_ascii (rev (list_ascii_of_string (lstrip_with sp
    (string_of_list_ascii (rev (list_ascii_of_string s)))))).

Definition strip_with (sp : ascii -> bool) (s : string) : string :=
  rstrip_with sp (lstrip_with sp s).

(** Reading a file in Python 3 text mode: ["\r\n"] and ["\r"] become ["\n"]. *)
Fixpoint universal_newlines (cs : list ascii) : list ascii :=
  match cs with
  | [] => []
  | c :: t =>
    if Ascii.eqb c (ascii_of_nat 13) then
      match t with
      | d :: t' => if Ascii.eqb d (ascii_of_nat 10) then ascii_of_nat 10 :: universal_newlines t'
                   else ascii_of_nat 10 :: universal_newlines t
      | [] => [ascii_of_nat 10]
      end
    else c :: universal_newlines t
  end.

(** [readline()]: up to and including the next ["\n"]; the empty line at
    the end of the file. *)
Fixpoint readline (cs : list ascii) : list ascii * list ascii :=
  match cs with
  | [] => ([], [])
  | c :: t =>
    if Ascii.eqb c (ascii_of_nat 10) then ([c], t)
    else let (l, r) := readline t in (c :: l, r)
  end.

(** [d[k] = v] on a dict kept as an association list in insertion order. *)
Fixpoint dict_assign {V} (k : string) (v : V) (d : list (string * V)) : list (string * V) :=
  match d with
  | [] => [(k, v)]
  | (k', v') :: t => if String.eqb k k' then (k, v) :: t else (k', v') :: dict_assign k v t
  end.

(** A [ReferenceSequence] as [read_tax_ids] fills it: organism, accession
    and lineage. *)
Definition ref_seq := (string * string * string)%type.

(** The [while line] loop of [read_tax_ids]; [None] is the [ValueError] of
    the unpacking or the [IndexError] of [seq_info.split(" | ")[1]].  The
    fuel is the number of characters left, plus one. *)
Fixpoint read_tax_ids_loop (fuel : nat) (cs : list ascii) (d : list (string * ref_seq))
  : option (list (string * ref_seq)) :=
  match fuel with
  | O => Some d
  | S f =>
    let (line, rest) := readline cs in
    match line with
    | [] => Some d
    | _ :: _ =>
      let fields := split tab (strip_with is_space_py3 (string_of_list_ascii line)) in
      let unpacked :=
        match fields with
        | [k; seq_info; lineage] => Some (k, seq_info, lineage)
        | [k; seq_info] => Some (k, seq_info, "")
        | _ => None
        end in
      match unpacked with
      | None => None
      | Some (k, seq_info, lineage) =>
        match nth_error (split " | " seq_info) 0, nth_error (split " | " seq_info) 1 with
        | Some organism, Some accession =>
          read_tax_ids_loop f rest (dict_assign k (organism, accession, lineage) d)
        | _, _ => None
        end
      end
    end
  end.

(** [read_tax_ids] on the contents of the file. *)
Definition read_tax_ids (contents : string) : option (list (string * ref_seq)) :=
  let cs := universal_newlines (list_ascii_of_string contents) in
  read_tax_ids_loop (S (List.length cs)) cs [].








(** A printable ASCII character other than the space. *)
Definition graphic (c : ascii) : bool :=
  Nat.leb 33 (nat_of_ascii c) && Nat.leb (nat_of_ascii c) 126.

Definition no_char (c : ascii) (s : string) : bool :=
  negb (existsb (Ascii.eqb c) (list_ascii_of_string s)).

Definition first_graphic (s : string) : bool :=
  match list_ascii_of_string s with c :: _ => graphic c | [] => false end.

Definition last_graphic (s : string) : bool :=
  match rev (list_ascii_of_string s) with c :: _ => graphic c | [] => false end.

(** A record [write_tax_ids] writes that [read_tax_ids] reads back. *)
Definition tax_record_ok (r : string * string * string * string) : bool :=
  let '(k, o, a, l) := r in
  forallb (fun s => no_char (ascii_of_nat 9) s && no_char (ascii_of_nat 10) s
                    && no_char (ascii_of_nat 13) s) [k; o; a; l]
  && no_char "|" o && no_char "|" a && first_graphic k && last_graphic l.

(** A character absent from a string. *)
Definition noc (c : ascii) (s : string) : Prop := Forall (fun x => x <> c) (list_ascii_of_string s).

(** The key of a record, and the entry [read_tax_ids] makes of it. *)
Definition record_key (r : string * string * string * string) : string :=
  let '(k, _, _, _) := r in k.

Definition record_entry (r : string * string * string * string) : string * ref_seq :=
  let '(k, o, a, l) := r in (k, (o, a, l)).

End RefMore.

(* ------------------------------------------------------------------ *)
(** ** classy.py: ItolJplace.sum_rpkms_per_node *)

Module Rpkm.
Import Jplace.

Section Rpkm.
(** The float type, [0.0], [+=] on floats, the type of a numeric
    [self.abundance], and [float(self.abundance/len(tree_leaves))] for a
    numeric abundance and a positive length. *)
Variable F : Type.
Variable zero : F.
Variable add : F -> F -> F.
Variable A : Type.
Variable normalized_abundance : A -> nat -> F.

(** [if tree_leaf not in leaf_rpkm_sums.keys(): leaf_rpkm_sums[tree_leaf] = 0.0]
    then [leaf_rpkm_sums[tree_leaf] += x]. *)
Fixpoint add_to (tree_leaf : string) (x : F) (sums : list (string * F)) : list (string * F) :=
  match sums with
  | [] => [(tree_leaf, add zero x)]
  | (k, v) :: t => if String.eqb k tree_leaf then (k, add v x) :: t else (k, v) :: add_to tree_leaf x t
  end.

Definition add_leaves (x : F) (tree_leaves : list string) (sums : list (string * F)) :=
  fold_left (fun s l => add_to l x s) tree_leaves sums.

(** [for locus in v]; [None] is the [IndexError] of [locus[0]], the
    [KeyError] of [self.node_map[jplace_node]], the [TypeError] of
    [None/len(tree_leaves)] when [self.abundance] is [None], or the
    [ZeroDivisionError] of an empty leaf list. *)
Fixpoint loci_loop (nm : list (Q * list string)) (abundance : option A) (loci : list (list Q))
    (sums : list (string * F)) : option (list (string * F)) :=
  match loci with
  | [] => Some sums
  | locus :: rest =>
    match nth_error locus 0 with
    | None => None
    | Some jplace_node =>
      match node_lookup nm jplace_node with
      | None => None
      | Some tree_leaves =>
        match abundance with
        | None => None
        | Some a =>
          match List.length tree_leaves with
          | O => None
          | n => loci_loop nm abundance rest (add_leaves (normalized_abundance a n) tree_leaves sums)
          end
        end
      end
    end
  end.

(** The ["p"] value of a pquery.  Names under ["p"] would be iterated as
    strings, and [self.node_map] (keyed by edge numbers) has no key
    [locus[0]] for them. *)
Definition p_loop (nm : list (Q * list string)) (abundance : option A) (v : pvalue)
    (sums : list (string * F)) :=
  match v with
  | Loci loci => loci_loop nm abundance loci sums
  | Names [] => Some sums
  | Names (_ :: _) => None
  end.

(** [for k, v in placement.items(): if k == 'p': ...] *)
Fixpoint items_loop (nm : list (Q * list string)) (abundance : option A) (items : pquery)
    (sums : list (string * F)) : option (list (string * F)) :=
  match items with
  | [] => Some sums
  | (k, v) :: t =>
    if String.eqb k "p" then
      match p_loop nm abundance v sums with
      | Some s => items_loop nm abundance t s
      | None => None
      end
    else items_loop nm abundance t sums
  end.

Fixpoint pquery_loop (nm : list (Q * list string)) (abundance : option A) (ps : list pquery)
    (sums : list (string * F)) : option (list (string * F)) :=
  match ps with
  | [] => Some sums
  | pq :: t =>
    match items_loop nm abundance pq sums with
    | Some s => pquery_loop nm abundance t s
    | None => None
    end
  end.

(** [ItolJplace.sum_rpkms_per_node(leaf_rpkm_sums)]; [abundance] is
    [self.abundance], [None] (the value [__init__] and [clear_object]
    give it) or a number. *)
Definition sum_rpkms_per_node (o : ItolJplace) (abundance : option A)
    (leaf_rpkm_sums : list (string * F)) : option (list (string * F)) :=
  pquery_loop (node_map o) abundance (placements o) leaf_rpkm_sums.

End Rpkm.

(** A locus that stops [sum_rpkms_per_node] with an exception when
    [self.abundance] is a number. *)
Definition bad_locus (nm : list (Q * list string)) (locus : list Q) : Prop :=
  match nth_error locus 0 with
  | None => True
  | Some jplace_node =>
    match node_lookup nm jplace_node with
    | None => True
    | Some tree_leaves => tree_leaves = []
    end
  end.

Definition bad_p_value (nm : list (Q * list string)) (v : pvalue) : Prop :=
  match v with
  | Loci loci => exists locus, In locus loci /\ bad_locus nm locus
  | Names l => l <> []
  end.

(** A ["p"] value that stops [sum_rpkms_per_node] with an exception: with
    a numeric abundance, a bad locus or query names; with [None], any
    locus or name at all. *)
Definition raising_p_value {A : Type} (abundance : option A) (nm : list (Q * list string))
    (v : pvalue) : Prop :=
  match abundance with
  | Some _ => bad_p_value nm v
  | None => pvalue_len v <> O
  end.

(** A leaf of a node a locus of the ["p"] entry of a pquery is placed on. *)
Definition placed_leaf (o : ItolJplace) (leaf : string) : Prop :=
  exists pq loci locus jplace_node tree_leaves,
    In pq (placements o) /\ In ("p", Loci loci) pq /\ In locus loci /\
    nth_error locus 0 = Some jplace_node /\
    node_lookup (node_map o) jplace_node = Some tree_leaves /\ In leaf tree_leaves.

End Rpkm.

(* ------------------------------------------------------------------ *)
(** ** treesapp.py: write_new_fasta with its [headers] argument *)

Module FastaMore.
Import Fasta.

(** [name[1:] in headers], or [True] when [headers is None]. *)
Definition header_kept (headers : option (list string)) (name : string) : bool :=
  match headers with
  | None => true
  | Some h => existsb (String.eqb (substring 1 (String.length name) name)) h
  end.

(** The [for name in fasta_dict.keys()] loop with both arguments. *)
Fixpoint write_loop_headers (max_seqs : option nat) (headers : option (list string))
    (items : list (string * string)) (fasta_name : string) (acc counter : nat)
    (split_files : list string) (fs : store) : list string * string * nat * store :=
  match items with
  | [] => (split_files, fasta_name, counter, fs)
  | (name, seq) :: rest =>
      let acc := S acc in
      let '(fasta_name, acc, counter, split_files, fs) :=
        match max_seqs with
        | Some (S _ as m) =>
            if Nat.ltb m acc then
              let split_files := app split_files [fasta_name] in
              let counter := S counter in
              let fasta_name := re_sub_d ("_" ++ str counter) fasta_name in
              (fasta_name, 1%nat, counter, split_files, open_w fasta_name fs)
            else (fasta_name, acc, counter, split_files, fs)
        | _ => (fasta_name, acc, counter, split_files, fs)
        end in
      let fs := if header_kept headers name
                then write fasta_name (seq ++ nl) (write fasta_name (name ++ nl) fs)
                else fs in
      write_loop_headers max_seqs headers rest fasta_name acc counter split_files fs
  end.

Definition write_new_fasta_headers (fasta_dict : list (string * string)) (fasta_name : string)
    (max_seqs : option nat) (headers : option (list string)) (fs : store)
    : list string * store :=
  let fasta_name := match max_seqs with
                    | Some m => fasta_name ++ "_" ++ str m
                    | None => fasta_name
                    end in
  let fs := open_w fasta_name fs in
  let '(split_files, fasta_name, _, fs) :=
    write_loop_headers max_seqs headers fasta_dict fasta_name 0 0 [] fs in
  (app split_files [fasta_name], fs).

End FastaMore.

(** * Theorems *)

Module HmmerFacts.
Import Hmmer.
Open Scope Z_scope.

Example detect_orientation_overlap :
  detect_orientation 10 20 15 30 = overlap.
Proof. reflexivity. Qed.

(** C6 (counterexample): two identical intervals are classified as
    [supersequence] in both argument orders, so the classification of
    [(b,a)] is not the mirror of the classification of [(a,b)]. *)
Lemma detect_orientation_not_symmetric :
  detect_orientation 1 5 1 5 = supersequence /\
  detect_orientation 1 5 1 5 <> mirror (detect_orientation 1 5 1 5).
Proof. split; [reflexivity | discriminate]. Qed.

(** C6 (amended): for well-formed intervals ([start <= end]) with
    different start coordinates, classifying [(a,b)] and [(b,a)] gives
    results related by supersequence/subsequence, overlap/overlap and
    satellite/satellite. *)
Theorem detect_orientation_mirror (q_i q_j r_i r_j : Z) :
  q_i <= q_j -> r_i <= r_j -> q_i <> r_i ->
  detect_orientation r_i r_j q_i q_j = mirror (detect_orientation q_i q_j r_i r_j).
Proof.
  intros Hq Hr Hne. unfold detect_orientation.
  destruct (Z.lt_total q_i r_i) as [Hlt | [Heq | Hgt]].
  - repeat match goal with
    | |- context [?a <=? ?b] =>
        let E := fresh "E" in destruct (a <=? b) eqn:E;
        rewrite ?Z.leb_le, ?Z.leb_gt in E
    end; simpl; try reflexivity; lia.
  - lia.
  - repeat match goal with
    | |- context [?a <=? ?b] =>
        let E := fresh "E" in destruct (a <=? b) eqn:E;
        rewrite ?Z.leb_le, ?Z.leb_gt in E
    end; simpl; try reflexivity; lia.
Qed.

Lemma detect_orientation_mirror_witness :
  (1 <= 5 /\ 3 <= 9 /\ 1 <> 3) /\
  detect_orientation 3 9 1 5 = mirror (detect_orientation 1 5 3 9).
Proof.
  split; [lia |].
  apply detect_orientation_mirror; lia.
Defined.

(** C4 (code bug): the concrete example of the spec scaffolds as stated,
    and the pair [near_hit1], [near_hit2] satisfies the merge rule; yet
    [scaffold_subalignments] never compares them, because the inner index
    [j] is not reset after the first base alignment, and returns all three
    hits unmerged. *)
Theorem scaffold_skips_pairs_after_first_base :
  map coords (scaffold_subalignments [example_base; example_second])
    = [(10, 90, 1, 80)] /\
  merge_pair near_hit1 near_hit2 <> None /\
  scaffold_subalignments [far_hit; near_hit1; near_hit2]
    = [far_hit; near_hit1; near_hit2].
Proof. split; [reflexivity | split; [discriminate | reflexivity]]. Qed.

(** C5 (counterexample): the output of one run of the scaffolding merge is
    merged further by a second run. *)
Lemma scaffold_not_fixed_point :
  let once := scaffold_subalignments [chain_base; chain_a; chain_b] in
  List.length once = 2%nat /\
  List.length (scaffold_subalignments once) = 1%nat.
Proof. split; reflexivity. Qed.

Lemma remove_nth_length {A} (j : nat) (l : list A) :
  (List.length (remove_nth j l) <= List.length l)%nat.
Proof.
  revert j; induction l as [| h t IH]; intros [| j]; simpl; try lia.
  specialize (IH j); lia.
Qed.

Lemma set_nth_length {A} (i : nat) (x : A) (l : list A) :
  List.length (set_nth i x l) = List.length l.
Proof.
  revert i; induction l as [| h t IH]; intros [| i]; simpl; auto.
Qed.

Lemma inner_loop_length fuel bi j l :
  (List.length (fst (inner_loop fuel bi j l)) <= List.length l)%nat.
Proof.
  revert bi j l; induction fuel as [| fuel IH]; intros bi j l; simpl; [lia |].
  destruct (Nat.ltb j (List.length l)); [| simpl; lia].
  destruct (Nat.eqb j bi); [apply IH |].
  destruct (nth_error l bi), (nth_error l j); simpl; try lia.
  destruct (merge_pair _ _); [| apply IH].
  etransitivity; [apply IH |].
  etransitivity; [apply remove_nth_length |].
  rewrite set_nth_length; lia.
Qed.

Lemma outer_loop_length fuel i j l :
  (List.length (outer_loop fuel i j l) <= List.length l)%nat.
Proof.
  revert i j l; induction fuel as [| fuel IH]; intros i j l;
    cbn [outer_loop]; [lia |].
  destruct (Nat.ltb i (List.length l)); [| lia].
  cbv zeta.
  pose proof (inner_loop_length (S (List.length l)) i j l) as H.
  destruct (inner_loop _ _ _ _) as [l' j']; simpl in H.
  etransitivity; [apply IH | exact H].
Qed.

(** C5 (amended): each run of the scaffolding merge returns at most as many
    sub-alignments as it is given, and a second run on the output of a first
    one can still merge (the single sweep does not reach a fixed point). *)
Theorem scaffold_second_run_can_merge :
  (forall l, Nat.le (List.length (scaffold_subalignments l)) (List.length l)) /\
  exists l, Nat.lt (List.length (scaffold_subalignments (scaffold_subalignments l)))
                   (List.length (scaffold_subalignments l)).
Proof.
  split.
  - intro l. apply outer_loop_length.
  - exists [chain_base; chain_a; chain_b]. vm_compute. lia.
Qed.

End HmmerFacts.

Module JplaceFacts.
Import Py Jplace.
Open Scope Q_scope.

Lemma lookup_notin k d : ~ In k (map fst d) -> lookup k d = None.
Proof.
  induction d as [| [k' v] t IH]; simpl; intros H; [reflexivity |].
  destruct (String.eqb k k') eqn:E.
  - apply String.eqb_eq in E. subst. exfalso. apply H. left. reflexivity.
  - apply IH. intro. apply H. right. assumption.
Qed.

Lemma lookup_In' k d v : lookup k d = Some v -> In (k, v) d.
Proof.
  induction d as [| [k' v'] t IH]; simpl; intros H; [discriminate |].
  destruct (String.eqb k k') eqn:E.
  - apply String.eqb_eq in E. subst. injection H as ->. left. reflexivity.
  - right. apply IH. exact H.
Qed.

Lemma drop_below_filter x t l :
  Forall (has_ratio x) l -> drop_below x t l = Some (filter (keep_ge x t) l).
Proof.
  induction 1 as [| c l [r Hr] _ IH]; simpl; [reflexivity |].
  rewrite Hr, IH. unfold keep_ge, ratio. rewrite Hr.
  destruct (Qlt_le_dec r t) as [Hlt | Hle].
  - destruct (Qle_bool t r) eqn:E; [| reflexivity].
    apply Qle_bool_iff in E. exfalso. apply (Qlt_not_le _ _ Hlt E).
  - apply Qle_bool_iff in Hle. rewrite Hle. reflexivity.
Qed.

Lemma filter_nonempty_existsb {A} (f : A -> bool) l :
  Nat.ltb 0 (List.length (filter f l)) = existsb f l.
Proof.
  induction l as [| a l IH]; simpl; [reflexivity |].
  destruct (f a); simpl; [reflexivity | exact IH].
Qed.

Lemma min_items_nop x t items ds ps c :
  lookup "p" items = None -> min_items x t items ds ps c = Some (ds, ps, c).
Proof.
  revert ds ps c. induction items as [| [k v] rest IH]; intros ds ps c H;
    cbn [lookup min_items] in *; [reflexivity |].
  rewrite (String.eqb_sym "p" k) in H. destruct (String.eqb k "p"); [discriminate |].
  apply IH; exact H.
Qed.

Lemma min_items_p x t items l ds ps c :
  NoDup (map fst items) -> lookup "p" items = Some (Loci l) ->
  Forall (has_ratio x) l ->
  min_items x t items ds ps c =
    Some (if existsb (keep_ge x t) l
          then (app ds [("p", Loci (filter (keep_ge x t) l))],
                app ds [("p", Loci (filter (keep_ge x t) l))], c)
          else (ds, ps, false)).
Proof.
  revert ds ps c. induction items as [| [k v] rest IH]; intros ds ps c Hnd Hl Hr;
    cbn [lookup min_items map fst] in *; [discriminate |].
  inversion Hnd as [| ? ? Hnotin Hnd']; subst.
  rewrite (String.eqb_sym "p" k) in Hl. destruct (String.eqb k "p") eqn:E.
  - apply String.eqb_eq in E. subst k. injection Hl as ->.
    rewrite (drop_below_filter _ _ _ Hr), filter_nonempty_existsb.
    destruct (existsb (keep_ge x t) l); apply min_items_nop, lookup_notin; exact Hnotin.
  - apply IH; assumption.
Qed.

Lemma min_pqueries_spec x t ps pstr c :
  Forall (wf_pquery x) ps ->
  exists out, min_pqueries x t ps pstr c = Some (out, c && forallb (min_ok x t) ps) /\
    (c && forallb (min_ok x t) ps = true -> out = map (min_spec x t) ps).
Proof.
  intros Hwf. revert pstr c.
  induction Hwf as [| pq ps [Hnd [l [Hl Hr]]] _ IH]; intros pstr c; simpl.
  - exists []. rewrite andb_true_r. split; reflexivity.
  - rewrite Hl. cbn [pvalue_len].
    replace (min_ok x t pq) with
      (if Nat.ltb 1 (List.length l) then existsb (keep_ge x t) l else true)
      by (unfold min_ok; rewrite Hl; reflexivity).
    replace (min_spec x t pq) with
      (if Nat.ltb 1 (List.length l) then [("p", Loci (filter (keep_ge x t) l))] else pq)
      by (unfold min_spec; rewrite Hl; reflexivity).
    destruct (Nat.ltb 1 (List.length l)).
    + rewrite (min_items_p _ _ _ _ _ _ _ Hnd Hl Hr).
      destruct (existsb (keep_ge x t) l).
      * destruct (IH [("p", Loci (filter (keep_ge x t) l))] c) as [out [E H]].
        cbn [app]. rewrite E. eexists; split; [reflexivity |].
        intros Hc. simpl in Hc. rewrite (H Hc). reflexivity.
      * destruct (IH pstr false) as [out [E H]]. rewrite E.
        eexists; split; [| simpl; rewrite andb_false_r; discriminate].
        simpl. rewrite andb_false_r. reflexivity.
    + destruct (IH pstr c) as [out [E H]]. rewrite E.
      eexists; split; [reflexivity |]. simpl. intros Hc. rewrite (H Hc). reflexivity.
Qed.

Lemma truthy_position_nonzero x : x <> O -> truthy_position (Some x) = Some x.
Proof. destruct x; [contradiction | reflexivity]. Qed.

Example epa_lwr_position :
  get_field_position_from_jplace_fields (sample epa_fields []) "like_weight_ratio" = Some 2%nat.
Proof. reflexivity. Qed.

(** C2 (amended): with ["like_weight_ratio"] found at a non-zero position
    [x] of the fields, on a classified object whose pqueries are well
    formed: if every multi-locus pquery has a locus of ratio at least [t],
    the object stays classified and each multi-locus pquery keeps exactly
    its loci of ratio at least [t] (single-locus pqueries are left as they
    are); otherwise the object is marked unclassified and its placements are
    left unchanged. *)
Theorem filter_min_weight_threshold_spec o t x :
  get_field_position_from_jplace_fields o "like_weight_ratio" = Some x -> x <> O ->
  classified o = true -> Forall (wf_pquery x) (placements o) ->
  exists o', filter_min_weight_threshold o t = Some o' /\ fields o' = fields o /\
    if forallb (min_ok x t) (placements o)
    then classified o' = true /\ placements o' = map (min_spec x t) (placements o)
    else classified o' = false /\ placements o' = placements o.
Proof.
  intros Hpos Hx Hc Hwf. unfold filter_min_weight_threshold.
  rewrite Hpos, (truthy_position_nonzero _ Hx).
  destruct (min_pqueries_spec x t (placements o) [] (classified o) Hwf) as [out [E H]].
  rewrite E, Hc in *. simpl in *.
  destruct (forallb (min_ok x t) (placements o)).
  - eexists; split; [reflexivity |]. simpl. split; [reflexivity |].
    split; [reflexivity | apply H; reflexivity].
  - eexists; split; [reflexivity |]. simpl. auto.
Qed.

Lemma filter_min_weight_threshold_spec_witness :
  exists o', filter_min_weight_threshold (sample epa_fields [three_loci]) default_threshold
               = Some o' /\ fields o' = epa_fields /\
    classified o' = true /\
    placements o' = map (min_spec 2 default_threshold) [three_loci].
Proof.
  destruct (filter_min_weight_threshold_spec (sample epa_fields [three_loci])
              default_threshold 2 eq_refl ltac:(discriminate) eq_refl)
    as [o' [E [Hf H]]].
  - constructor; [| constructor].
    split.
    + simpl. constructor; [simpl; intros [Hk | []]; discriminate |].
      constructor; [intros [] | constructor].
    + eexists; split; [reflexivity |].
      repeat constructor; eexists; reflexivity.
  - exists o'. split; [exact E |]. split; [exact Hf |]. exact H.
Defined.

(** C2 (counterexample): when every locus of a multi-locus pquery is below
    the threshold, the object is marked unclassified but nothing is dropped:
    loci with ratio below the threshold survive. *)
Lemma filter_min_keeps_loci_below_threshold :
  filter_min_weight_threshold (sample epa_fields [low_loci]) default_threshold
    = Some (set_classified (sample epa_fields [low_loci]) false) /\
  lookup "p" low_loci = Some (Loci [[1; -100; 5 # 100; 0; 0]; [2; -101; 2 # 100; 0; 0]]) /\
  ratio 2 [1; -100; 5 # 100; 0; 0] < default_threshold.
Proof.
  split; [reflexivity |]. split; [reflexivity |]. reflexivity.
Qed.

Lemma field_position_first o field :
  hd_error (fields o) = Some (quote field) ->
  get_field_position_from_jplace_fields o field = Some O.
Proof.
  unfold get_field_position_from_jplace_fields. destruct (fields o) as [| f fs];
    simpl; intros H; [discriminate |].
  injection H as ->. unfold quote. rewrite String.eqb_refl. reflexivity.
Qed.

(** C10: when ["like_weight_ratio"] is the first field, its position [0]
    is falsy, so the min-threshold filter, the max-weight reduction and the
    harmonization all return with the placements (and the other fields of
    the state) unchanged; harmonization only renames an ["nr"] marker. *)
Theorem lwr_first_field_disables_filters o t tree read lca treesapp_dir :
  hd_error (fields o) = Some (quote "like_weight_ratio") ->
  filter_min_weight_threshold o t = Some o /\
  filter_max_weight_placement o = Some o /\
  exists o', harmonize_placements tree read lca o treesapp_dir = Some o' /\
    placements o' = placements o /\ fields o' = fields o /\
    classified o' = classified o /\ node_map o' = node_map o.
Proof.
  intros H. pose proof (field_position_first _ _ H) as Hp.
  unfold filter_min_weight_threshold, filter_max_weight_placement.
  rewrite Hp. split; [reflexivity | split; [reflexivity |]].
  unfold harmonize_placements.
  destruct (String.eqb (name o) "nr").
  - assert (Hp' : get_field_position_from_jplace_fields (set_name o "COGrRNA")
                    "like_weight_ratio" = Some O) by (apply field_position_first; exact H).
    rewrite Hp'. eexists; split; [reflexivity |]. simpl. auto.
  - rewrite Hp. eexists; split; [reflexivity |]. auto.
Qed.

Lemma lwr_first_field_disables_filters_witness :
  let o := sample (quote "like_weight_ratio" :: epa_fields) [three_loci] in
  filter_min_weight_threshold o default_threshold = Some o /\
  filter_max_weight_placement o = Some o /\
  exists o', harmonize_placements unit (fun _ => tt) (fun _ _ => 0) o "treesapp" = Some o' /\
    placements o' = placements o /\ fields o' = fields o /\
    classified o' = classified o /\ node_map o' = node_map o.
Proof.
  intros o. apply (lwr_first_field_disables_filters o default_threshold unit
                     (fun _ => tt) (fun _ _ => 0) "treesapp").
  reflexivity.
Defined.

Lemma max_loop_spec x l m v :
  Forall (has_ratio x) l ->
  (max_loop x l m v = Some v /\ Forall (fun c => ratio x c <= m) l) \/
  (exists c, max_loop x l m v = Some (Loci [c]) /\ In c l /\ m < ratio x c /\
     Forall (fun c' => ratio x c' <= ratio x c) l).
Proof.
  intros Hl. revert m v.
  induction Hl as [| c l [r Hr] _ IH]; intros m v; simpl.
  - left. split; [reflexivity | constructor].
  - rewrite Hr. assert (Hrc : ratio x c = r) by (unfold ratio; rewrite Hr; reflexivity).
    destruct (Qlt_le_dec m r) as [Hlt | Hle].
    + right. destruct (IH r (Loci [c])) as [[E Hall] | [c' [E [Hin [Hgt Hall]]]]].
      * exists c. rewrite E. split; [reflexivity |]. split; [left; reflexivity |].
        rewrite Hrc. split; [exact Hlt |].
        constructor; [rewrite Hrc; apply Qle_refl | exact Hall].
      * exists c'. rewrite E. split; [reflexivity |]. split; [right; exact Hin |].
        split; [apply Qlt_trans with r; assumption |].
        constructor; [rewrite Hrc; apply Qlt_le_weak; exact Hgt | exact Hall].
    + destruct (IH m v) as [[E Hall] | [c' [E [Hin [Hgt Hall]]]]].
      * left. rewrite E. split; [reflexivity |]. constructor; [rewrite Hrc; exact Hle | exact Hall].
      * right. exists c'. rewrite E. split; [reflexivity |]. split; [right; exact Hin |].
        split; [exact Hgt |]. constructor; [| exact Hall].
        rewrite Hrc. apply Qle_trans with m; [exact Hle | apply Qlt_le_weak; exact Hgt].
Qed.

Lemma max_items_nop x items : lookup "p" items = None -> max_items x items = Some items.
Proof.
  induction items as [| [k v] rest IH]; intros H; cbn [lookup max_items] in *; [reflexivity |].
  rewrite (String.eqb_sym "p" k) in H. destruct (String.eqb k "p"); [discriminate |].
  rewrite (IH H). reflexivity.
Qed.

Lemma max_items_p x items l w :
  NoDup (map fst items) -> lookup "p" items = Some (Loci l) ->
  max_loop x l 0 (Loci l) = Some w ->
  exists items', max_items x items = Some items' /\ lookup "p" items' = Some w.
Proof.
  induction items as [| [k v] rest IH]; intros Hnd Hl Hw;
    cbn [lookup max_items map fst] in *; [discriminate |].
  inversion Hnd as [| ? ? Hnotin Hnd']; subst.
  rewrite (String.eqb_sym "p" k) in *. destruct (String.eqb k "p") eqn:E.
  - apply String.eqb_eq in E. subst k. injection Hl as ->. rewrite Hw.
    rewrite (max_items_nop _ _ (lookup_notin _ _ Hnotin)).
    eexists; split; [reflexivity |]. simpl. reflexivity.
  - destruct (IH Hnd' Hl Hw) as [rest' [E1 E2]]. rewrite E1.
    eexists; split; [reflexivity |]. cbn [lookup]. rewrite (String.eqb_sym "p" k), E. exact E2.
Qed.

(** Two distinct non-negative ratios: one of them is positive. *)
Lemma max_loop_reduces x l :
  l <> [] -> Forall (fun c => exists r, lwr_at x c = Some r /\ 0 <= r) l ->
  ForallOrdPairs (fun c c' => ~ ratio x c == ratio x c') l ->
  (1 < List.length l)%nat ->
  exists c, max_loop x l 0 (Loci l) = Some (Loci [c]) /\ In c l /\
    Forall (fun c' => ratio x c' <= ratio x c) l.
Proof.
  intros _ Hnn Hd Hlen.
  assert (Hr : Forall (has_ratio x) l).
  { eapply Forall_impl; [| exact Hnn]. intros c [r [Hr _]]. exists r. exact Hr. }
  destruct (max_loop_spec x l 0 (Loci l) Hr) as [[_ Hall] | [c [E [Hin [_ Hall]]]]].
  - exfalso. destruct l as [| c1 [| c2 l]]; simpl in Hlen; try lia.
    inversion Hd as [| ? ? Hfirst _]; subst. inversion Hfirst as [| ? ? Hne _]; subst.
    inversion Hnn as [| ? ? [r1 [E1 P1]] Hnn']; subst.
    inversion Hnn' as [| ? ? [r2 [E2 P2]] _]; subst.
    inversion Hall as [| ? ? A1 Hall']; subst. inversion Hall' as [| ? ? A2 _]; subst.
    unfold ratio in *. rewrite E1, E2 in *.
    apply Hne. apply Qle_antisym; [apply Qle_trans with 0; assumption |].
    apply Qle_trans with 0; assumption.
  - exists c. auto.
Qed.

Lemma max_pqueries_spec x ps :
  Forall (wf_max x) ps ->
  exists ps', max_pqueries x ps = Some ps' /\ Forall2 (max_reduced x) ps ps'.
Proof.
  induction 1 as [| pq ps [Hnd [l [Hl [Hne [Hnn Hd]]]]] _ [ps' [E IH]]].
  - exists []. split; [reflexivity | constructor].
  - destruct pq as [| kv pq0]; [discriminate |].
    cbn [max_pqueries]. rewrite Hl, E. cbn [pvalue_len].
    destruct (Nat.ltb 1 (List.length l)) eqn:Elen.
    + apply Nat.ltb_lt in Elen.
      destruct (max_loop_reduces x l Hne Hnn Hd Elen) as [c [Em [Hin Hall]]].
      destruct (max_items_p x (kv :: pq0) l _ Hnd Hl Em) as [pq' [Ei Hp]].
      rewrite Ei. eexists; split; [reflexivity |].
      constructor; [| exact IH]. exists l, c. auto.
    + apply Nat.ltb_ge in Elen.
      destruct l as [| c [| c2 l]]; [contradiction | | simpl in Elen; lia].
      eexists; split; [reflexivity |]. constructor; [| exact IH].
      exists [c], c. split; [exact Hl |]. split; [exact Hl |].
      split; [left; reflexivity |]. constructor; [apply Qle_refl | constructor].
Qed.

Section HarmonizeFacts.
Variable tree : Type.
Variable read_the_reference_tree : string -> tree.
Variable lowest_common_ancestor : tree -> string -> Q.

Definition locus_wf (o : ItolJplace) (x : nat) (locus : list Q) : Prop :=
  has_ratio x locus /\ (exists like, nth_error locus 1 = Some like) /\
  exists node leaf leaves, nth_error locus 0 = Some node /\
    node_lookup (node_map o) node = Some (leaf :: leaves).

Lemma harmonize_loci_some o x l :
  Forall (locus_wf o x) l -> exists s loci, harmonize_loci o x l = Some (s, loci).
Proof.
  induction 1 as [| locus l [[r Hr] [_ [node [leaf [leaves [Hn Hm]]]]]] _ [s [loci IH]]];
    cbn [harmonize_loci].
  - eexists _, _. reflexivity.
  - rewrite Hr, Hn, Hm, IH. eexists _, _. reflexivity.
Qed.

Lemma harmonize_value_some o t x v :
  ((pvalue_len v <= 1)%nat \/ exists l, v = Loci l /\ Forall (locus_wf o x) l) ->
  exists v', harmonize_value tree lowest_common_ancestor o t x v = Some v' /\
    forall l, v = Loci l -> l <> [] -> exists c, v' = Loci [c].
Proof.
  intros Hv. unfold harmonize_value.
  destruct (Nat.ltb 1 (pvalue_len v)) eqn:E.
  - apply Nat.ltb_lt in E. destruct Hv as [Hv | [l [-> Hl]]]; [lia |].
    destruct (harmonize_loci_some _ _ _ Hl) as [s [loci Hh]]. rewrite Hh.
    destruct l as [| first rest]; [simpl in E; lia |].
    inversion Hl as [| ? ? [_ [[like Hlike] _]] _]; subst.
    rewrite Hlike. eexists; split; [reflexivity |].
    intros l' _ _. eexists. reflexivity.
  - apply Nat.ltb_ge in E. eexists; split; [reflexivity |].
    intros l -> Hne. destruct l as [| c [| c2 l]]; [contradiction | | simpl in E; lia].
    exists c. reflexivity.
Qed.

Lemma harmonize_items_some o t x items :
  Forall (fun kv => (pvalue_len (snd kv) <= 1)%nat \/
            exists l, snd kv = Loci l /\ Forall (locus_wf o x) l) items ->
  exists items', harmonize_items tree lowest_common_ancestor o t x items = Some items' /\
    forall k v, lookup k items = Some v ->
      exists v', lookup k items' = Some v' /\
        harmonize_value tree lowest_common_ancestor o t x v = Some v'.
Proof.
  induction 1 as [| [k v] items Hkv _ [items' [E IH]]].
  - exists []. split; [reflexivity |]. intros k v H. discriminate.
  - destruct (harmonize_value_some o t x v Hkv) as [v' [Ev _]].
    cbn [harmonize_items]. rewrite Ev, E. eexists; split; [reflexivity |].
    intros k0 v0. cbn [lookup]. destruct (String.eqb k0 k).
    + intros H. injection H as <-. exists v'. auto.
    + apply IH.
Qed.

Lemma harmonize_pqueries_spec o t x ps :
  Forall (wf_harmonize o x) ps ->
  exists ps', harmonize_pqueries tree lowest_common_ancestor o t x ps = Some ps' /\
    Forall2 (fun pq pq' => exists c, lookup "p" pq' = Some (Loci [c])) ps ps'.
Proof.
  induction 1 as [| pq ps [Hitems [l [Hl Hne]]] _ [ps' [E IH]]].
  - exists []. split; [reflexivity | constructor].
  - destruct (harmonize_items_some o t x pq Hitems) as [pq' [Ei H]].
    cbn [harmonize_pqueries]. rewrite Ei, E. eexists; split; [reflexivity |].
    constructor; [| exact IH].
    destruct (H _ _ Hl) as [v' [Hv' Hval]].
    assert (Hkv := proj1 (Forall_forall _ _) Hitems _ (lookup_In' _ _ _ Hl)).
    destruct (harmonize_value_some o t x (Loci l) Hkv) as [v'' [Ev'' Hc]].
    rewrite Hval in Ev''. injection Ev'' as <-.
    destruct (Hc l eq_refl Hne) as [c ->]. exists c. exact Hv'.
Qed.

End HarmonizeFacts.

(** With ["like_weight_ratio"] found at a non-zero position
    [x] of the fields, the max-weight reduction leaves every pquery whose
    loci have non-negative, pairwise distinct ratios with exactly one locus,
    one of its loci of maximal ratio; and harmonization leaves every placed
    pquery (its loci having ratios, likelihoods and nodes in [node_map])
    with exactly one locus. *)
Theorem max_weight_and_harmonize_one_locus o x :
  get_field_position_from_jplace_fields o "like_weight_ratio" = Some x -> x <> O ->
  (Forall (wf_max x) (placements o) ->
   exists o', filter_max_weight_placement o = Some o' /\
     Forall2 (max_reduced x) (placements o) (placements o')) /\
  (forall tree read lca treesapp_dir,
   Forall (wf_harmonize o x) (placements o) ->
   exists o', harmonize_placements tree read lca o treesapp_dir = Some o' /\
     Forall2 (fun pq pq' => exists c, lookup "p" pq' = Some (Loci [c]))
             (placements o) (placements o')).
Proof.
  intros Hpos Hx. split.
  - intros Hwf. unfold filter_max_weight_placement.
    rewrite Hpos, (truthy_position_nonzero _ Hx).
    destruct (max_pqueries_spec x _ Hwf) as [ps' [E H]]. rewrite E.
    eexists; split; [reflexivity | exact H].
  - intros tree read lca dir Hwf. unfold harmonize_placements.
    destruct (String.eqb (name o) "nr").
    + assert (Hp : get_field_position_from_jplace_fields (set_name o "COGrRNA")
                     "like_weight_ratio" = Some x) by exact Hpos.
      rewrite Hp, (truthy_position_nonzero _ Hx).
      cbn [placements set_name].
      match goal with |- context [harmonize_pqueries _ _ _ ?t _ _] =>
        destruct (harmonize_pqueries_spec tree lca (set_name o "COGrRNA") t x
                    (placements o) Hwf) as [ps' [E H]] end.
      rewrite E.
      eexists; split; [reflexivity | exact H].
    + rewrite Hpos, (truthy_position_nonzero _ Hx).
      match goal with |- context [harmonize_pqueries _ _ _ ?t _ _] =>
        destruct (harmonize_pqueries_spec tree lca o t x (placements o) Hwf)
          as [ps' [E H]] end.
      rewrite E. eexists; split; [reflexivity | exact H].
Qed.

Lemma max_weight_and_harmonize_one_locus_witness :
  (exists o', filter_max_weight_placement (sample epa_fields [three_loci]) = Some o' /\
     Forall2 (max_reduced 2) [three_loci] (placements o')) /\
  (exists o', harmonize_placements unit (fun _ => tt) (fun _ _ => 7)
                (sample epa_fields [three_loci]) "treesapp" = Some o' /\
     Forall2 (fun pq pq' => exists c, lookup "p" pq' = Some (Loci [c]))
             [three_loci] (placements o')).
Proof.
  destruct (max_weight_and_harmonize_one_locus (sample epa_fields [three_loci]) 2
              eq_refl ltac:(discriminate)) as [Hmax Hharm].
  split.
  - apply Hmax. constructor; [| constructor]. split.
    + cbn. constructor; [intros [Hk | []]; discriminate |].
      constructor; [intros [] | constructor].
    + eexists; split; [reflexivity |]. split; [discriminate |]. split.
      * repeat constructor;
          (eexists; split; [reflexivity | apply Qle_bool_iff; reflexivity]).
      * repeat constructor;
          (unfold ratio; cbn; intro Heq; apply Qeq_bool_iff in Heq; discriminate).
  - apply (Hharm unit (fun _ => tt) (fun _ _ => 7) "treesapp").
    constructor; [| constructor]. split.
    + constructor; [right; eexists; split; [reflexivity |] | constructor;
        [left; cbn; lia | constructor]].
      repeat constructor;
        solve [eexists; reflexivity | do 3 eexists; split; reflexivity].
    + eexists; split; [reflexivity | discriminate].
Defined.

(** C1 (code bug): when the jplace file lists ["like_weight_ratio"] first,
    [correct_decoding] quotes it at position [0], which the [if not x]
    test takes for a missing field: the max-weight reduction and the
    harmonization both leave a pquery of three loci with distinct ratios
    0.6, 0.3 and 0.1 with its three loci.  With the EPA field order the
    same loci are reduced to the one of ratio 0.6. *)
Theorem max_weight_lwr_first_field_not_reduced :
  let o := JplaceMore.correct_decoding (sample lwr_first_field_names [three_loci_lwr_first]) in
  get_field_position_from_jplace_fields o "like_weight_ratio" = Some O /\
  placements o = [three_loci_lwr_first] /\
  lookup "p" three_loci_lwr_first
    = Some (Loci [[6 # 10; 1; -100; 0; 0]; [3 # 10; 2; -101; 0; 0]; [1 # 10; 3; -102; 0; 0]]) /\
  filter_max_weight_placement o = Some o /\
  (forall tree read lca treesapp_dir, harmonize_placements tree read lca o treesapp_dir = Some o) /\
  filter_max_weight_placement (JplaceMore.correct_decoding (sample epa_field_names [three_loci]))
    = Some (sample epa_fields [[("p", Loci [[1; -100; 6 # 10; 0; 0]]); ("n", Names ["query1"])]]).
Proof.
  intros o. split; [reflexivity |]. split; [reflexivity |]. split; [reflexivity |].
  split; [reflexivity |]. split; [intros; reflexivity |]. vm_compute. reflexivity.
Qed.

End JplaceFacts.

Module FastaFacts.
Import Fasta.

Lemma all_d_app p x : all_d (p ++ String x EmptyString) = all_d p && Ascii.eqb x "d"%char.
Proof.
  induction p as [| c p IH]; simpl; [destruct (Ascii.eqb x "d"%char); reflexivity |].
  rewrite IH. apply andb_assoc.
Qed.

(** C9: [write_new_fasta] renames the file it splits to with
    [re.sub(r'_d+$', ...)], which never changes a name that ends in a
    character other than [d], such as [fasta_name + '_' + str(max_seqs)].
    With [{">a": "A", ">b": "C"}], ["out"] and [max_seqs = 1] it returns
    [["out_1", "out_1"]], and the only file left, [out_1], holds the second
    sequence alone: the first one has been overwritten. *)
Theorem write_new_fasta_overwrites_split :
  (forall repl p x, x <> "d"%char ->
     re_sub_d repl (p ++ String x EmptyString) = p ++ String x EmptyString) /\
  write_new_fasta [(">a", "A"); (">b", "C")] "out" (Some 1%nat) [] =
    (["out_1"; "out_1"], [("out_1", [">b" ++ nl; "C" ++ nl])]).
Proof.
  split; [| reflexivity].
  intros repl p x Hx. induction p as [| c p IH]; simpl.
  - destruct (Ascii.eqb x "_"%char); reflexivity.
  - rewrite IH, all_d_app.
    replace (Ascii.eqb x "d"%char) with false
      by (symmetry; apply Ascii.eqb_neq; exact Hx).
    rewrite !andb_false_r. reflexivity.
Qed.

Lemma write_new_fasta_overwrites_split_witness :
  "1"%char <> "d"%char /\
  re_sub_d "_1" ("out_" ++ "1") = "out_1" /\
  write_new_fasta [(">a", "A"); (">b", "C")] "out" (Some 1%nat) [] =
    (["out_1"; "out_1"], [("out_1", [">b" ++ nl; "C" ++ nl])]).
Proof.
  split; [discriminate |].
  split; [apply (proj1 write_new_fasta_overwrites_split); discriminate |].
  exact (proj2 write_new_fasta_overwrites_split).
Defined.

End FastaFacts.

Module ClassyFacts.
Import Classy.

Lemma set_nth_nth_error_other {A} (l : list A) i j x :
  i <> j -> nth_error (Hmmer.set_nth j x l) i = nth_error l i.
Proof.
  revert i j. induction l as [| y l IH]; intros i j Hij; [destruct j; reflexivity |].
  destruct i, j; simpl; try reflexivity; [contradiction | apply IH; lia].
Qed.

Lemma set_nth_len {A} (l : list A) j x : List.length (Hmmer.set_nth j x l) = List.length l.
Proof.
  revert j. induction l as [| y l IH]; intros []; simpl; auto.
Qed.

Lemma clear_attr_frame h o n h' :
  clear_attr h o n = Some h' ->
  List.length h' = List.length h /\
  forall i, (forall l, getattr o n = Some (VRef l) -> l <> i) -> nth_error h' i = nth_error h i.
Proof.
  unfold clear_attr. destruct (getattr o n) as [[] |]; try discriminate.
  destruct (Nat.ltb l (List.length h)); [| discriminate].
  intros H. injection H as <-. split; [apply set_nth_len |].
  intros i Hi. apply set_nth_nth_error_other. intros Heq. exact (Hi l eq_refl (eq_sym Heq)).
Qed.

Lemma cleared_locs_spec o n l :
  In n ["placements"; "fields"; "node_map"] -> getattr o n = Some (VRef l) ->
  In l (cleared_locs o).
Proof.
  intros Hn Hl. unfold cleared_locs. apply in_flat_map. exists n. rewrite Hl. simpl. auto.
Qed.

Lemma clear_object_frame h o h' o' :
  clear_object h o = Some (h', o') ->
  forall i, ~ In i (cleared_locs o) -> (i < List.length h)%nat -> nth_error h' i = nth_error h i.
Proof.
  unfold clear_object.
  destruct (clear_attr h o "placements") as [h1 |] eqn:E1; [| discriminate].
  destruct (clear_attr h1 o "fields") as [h2 |] eqn:E2; [| discriminate].
  destruct (clear_attr h2 o "node_map") as [h3 |] eqn:E3; [| discriminate].
  intros H. injection H as <- _. intros i Hi Hlt.
  apply clear_attr_frame in E1 as [L1 F1]. apply clear_attr_frame in E2 as [L2 F2].
  apply clear_attr_frame in E3 as [L3 F3].
  rewrite nth_error_app1 by lia.
  rewrite F3, F2, F1; [reflexivity | ..];
    intros l Hl ->; apply Hi; eapply cleared_locs_spec; eauto; simpl; auto.
Qed.

Lemma init_shape h :
  getattr (snd (init h)) "node_map" = Some (VRef (List.length h)) /\
  getattr (snd (init h)) "placements" = Some (VRef (S (S (List.length h)))) /\
  getattr (snd (init h)) "fields" = Some (VRef 0) /\
  List.length (fst (init h)) = (List.length h + 3)%nat /\
  forall i, (i < List.length h)%nat -> nth_error (fst (init h)) i = nth_error h i.
Proof.
  unfold init, alloc. cbn -[app List.length nth_error].
  rewrite !length_app. simpl. repeat split; try (f_equal; f_equal; lia); try lia.
  intros i Hi. rewrite !nth_error_app1 by (rewrite ?length_app; simpl; lia). reflexivity.
Qed.

(** [ItolJplace.__init__] gives every instance its own [placements] and
    [node_map] containers, at locations not used before; so for two
    instances [a] and [b] created in turn, [a.clear_object()] (which only
    empties the containers [a] refers to) leaves [b.placements] and
    [b.node_map] unchanged, whatever the heap has become meanwhile. *)
Theorem init_containers_per_instance :
  (forall h, exists lnm lpl,
     getattr (snd (init h)) "node_map" = Some (VRef lnm) /\
     getattr (snd (init h)) "placements" = Some (VRef lpl) /\
     (List.length h <= lnm)%nat /\ (List.length h <= lpl)%nat /\ lnm <> lpl /\
     (lnm < List.length (fst (init h)))%nat /\ (lpl < List.length (fst (init h)))%nat) /\
  (forall h o h' o', clear_object h o = Some (h', o') ->
     forall i, ~ In i (cleared_locs o) -> (i < List.length h)%nat ->
     nth_error h' i = nth_error h i) /\
  (forall h0 h1 a h2 b h h' a',
     (1 <= List.length h0)%nat ->
     init h0 = (h1, a) -> init h1 = (h2, b) ->
     (List.length h2 <= List.length h)%nat ->
     clear_object h a = Some (h', a') ->
     contents_attr h' b "placements" = contents_attr h b "placements" /\
     contents_attr h' b "node_map" = contents_attr h b "node_map").
Proof.
  split; [| split; [exact clear_object_frame |]].
  - intros h. destruct (init_shape h) as [Hn [Hp [_ [Hl _]]]].
    exists (List.length h), (S (S (List.length h))). repeat split; auto; lia.
  - intros h0 h1 a h2 b h h' a' H0 Ha Hb Hh Hc.
    destruct (init_shape h0) as [Ann [Apl [Afl [AL _]]]].
    destruct (init_shape h1) as [Bnn [Bpl [_ [BL _]]]].
    rewrite Ha in Ann, Apl, Afl, AL. rewrite Hb in Bnn, Bpl, BL. simpl in *.
    assert (Hloc : forall i, In i (cleared_locs a) -> (i < List.length h1)%nat).
    { unfold cleared_locs. simpl. rewrite Apl, Afl, Ann. simpl. intros i Hi. lia. }
    unfold contents_attr. rewrite Bpl, Bnn.
    split; apply (clear_object_frame h a h' a' Hc); try lia;
      intros Hin; apply Hloc in Hin; lia.
Qed.

Lemma init_containers_per_instance_witness :
  (1 <= List.length class_heap)%nat /\
  (forall h' a', clear_object (fst (init (fst (init class_heap)))) (snd (init class_heap))
                 = Some (h', a') ->
     contents_attr h' (snd (init (fst (init class_heap)))) "placements"
       = contents_attr (fst (init (fst (init class_heap)))) (snd (init (fst (init class_heap)))) "placements" /\
     contents_attr h' (snd (init (fst (init class_heap)))) "node_map"
       = contents_attr (fst (init (fst (init class_heap)))) (snd (init (fst (init class_heap)))) "node_map").
Proof.
  split; [simpl; lia |].
  intros h' a' Hc.
  apply (proj2 (proj2 init_containers_per_instance) class_heap (fst (init class_heap))
           (snd (init class_heap)) (fst (init (fst (init class_heap))))
           (snd (init (fst (init class_heap)))) (fst (init (fst (init class_heap)))) h' a');
    [simpl; lia | reflexivity | reflexivity | lia | exact Hc].
Defined.


(** C3 (code bug): [fields] is still declared in the class body of
    [ItolJplace], and [__init__] does not assign it, so every new instance
    reads the one class-level list.  After [a.fields.append("edge_num")],
    [b.fields] holds ["edge_num"] too, and [b.clear_object()] empties
    [a.fields]. *)
Theorem fields_shared_between_instances :
  (forall h, getattr (snd (init h)) "fields" = Some (VRef 0)) /\
  shared_fields "edge_num" = Some (["edge_num"], ["edge_num"], []).
Proof.
  split; [intros h; exact (proj1 (proj2 (proj2 (init_shape h)))) | reflexivity].
Qed.

End ClassyFacts.

Module LcaFacts.
Import PyStr Lca.

Example megan_lca_spaced :
  megan_lca ["A; B; C"; "A; B; D"; "A; E; F"] = Some "A".
Proof. vm_compute. reflexivity. Qed.


Example megan_lca_single :
  megan_lca ["A; B"] = Some "A; ;;  ; B".
Proof. vm_compute. reflexivity. Qed.

Lemma scan_ranks i ls s c :
  scan i ls s c = (fold_left set_add (ranks i ls) s, (c + List.length (ranks i ls))%nat).
Proof.
  revert s c. induction ls as [| l ls IH]; intros s c; simpl; [f_equal; lia |].
  destruct (nth_error l i); simpl; rewrite IH; f_equal; lia.
Qed.

Lemma ranks_length_le i ls : (List.length (ranks i ls) <= List.length ls)%nat.
Proof.
  induction ls as [| l ls IH]; simpl; [lia |].
  destruct (nth_error l i); simpl; lia.
Qed.

Lemma fold_set_add_prefix r s : exists t, fold_left set_add r s = app s t.
Proof.
  revert s. induction r as [| y r IH]; intros s; simpl.
  - exists []. rewrite app_nil_r. reflexivity.
  - destruct (IH (set_add s y)) as [t Ht]. rewrite Ht. unfold set_add.
    destruct (existsb (String.eqb y) s).
    + exists t. reflexivity.
    + exists (y :: t). rewrite <- app_assoc. reflexivity.
Qed.

Lemma fold_set_add_In r s y : In y s \/ In y r -> In y (fold_left set_add r s).
Proof.
  revert s. induction r as [| z r IH]; intros s H; simpl.
  - destruct H as [H | []]. exact H.
  - apply IH. destruct H as [H | [Hz | H]]; [left | left | right; exact H].
    + unfold set_add. destruct (existsb _ s); [exact H | apply in_or_app; left; exact H].
    + subst z. unfold set_add. destruct (existsb (String.eqb y) s) eqn:E.
      * apply existsb_exists in E. destruct E as [w [Hw Ew]].
        apply String.eqb_eq in Ew. subst. exact Hw.
      * apply in_or_app. right. left. reflexivity.
Qed.

Lemma fold_set_add_same a r :
  forallb (String.eqb a) r = true -> fold_left set_add r [a] = [a].
Proof.
  induction r as [| y r IH]; simpl; intros H; [reflexivity |].
  apply andb_true_iff in H as [Hy Hr]. unfold set_add at 2. simpl.
  rewrite String.eqb_sym, Hy. simpl. apply IH. exact Hr.
Qed.

Lemma fold_set_add_differ a r :
  forallb (String.eqb a) r = false ->
  match fold_left set_add r [a] with [_] => False | _ => True end.
Proof.
  intros H.
  assert (Hy : exists y, In y r /\ y <> a).
  { clear -H. induction r as [| y r IH]; cbn [forallb] in H; [discriminate |].
    destruct (String.eqb a y) eqn:E; cbn [andb] in H.
    - destruct (IH H) as [z [Hz Hne]]. exists z. split; [right; exact Hz | exact Hne].
    - exists y. split; [left; reflexivity |]. intros ->.
      rewrite String.eqb_refl in E. discriminate. }
  destruct (fold_set_add_prefix r [a]) as [t Ht].
  destruct Hy as [y [Hin Hne]].
  pose proof (fold_set_add_In r [a] y (or_intror Hin)) as Hiny.
  rewrite Ht in *. destruct t as [| w t]; [| exact I].
  simpl in Hiny. destruct Hiny as [-> | []]. apply Hne. reflexivity.
Qed.

Lemma forallb_rank_split i a rest :
  forallb (fun l => match nth_error l i with Some b => String.eqb a b | None => false end) rest
  = Nat.eqb (List.length (ranks i rest)) (List.length rest) && forallb (String.eqb a) (ranks i rest).
Proof.
  induction rest as [| l rest IH]; simpl; [reflexivity |].
  destruct (nth_error l i) as [b |]; simpl.
  - rewrite IH. destruct (String.eqb a b), (Nat.eqb _ _); reflexivity.
  - symmetry. apply andb_false_intro1. apply Nat.eqb_neq.
    pose proof (ranks_length_le i rest). lia.
Qed.

(** One iteration of the [while] loop decides the rank as the spec does. *)
Lemma scan_consensus i ls :
  ls <> [] ->
  (let '(lca_set, contributors) := scan i ls [] 0 in
   match lca_set with
   | [a] => if Nat.eqb contributors (List.length ls) then Some a else None
   | _ => None
   end) = rank_consensus i ls.
Proof.
  intros Hne. rewrite scan_ranks. simpl.
  destruct ls as [| l0 rest]; [contradiction |].
  unfold rank_consensus. unfold ranks at 1 2. simpl.
  destruct (nth_error l0 i) as [a |] eqn:E0; simpl.
  - rewrite String.eqb_refl. simpl. fold (ranks i rest).
    change (set_add [] a) with [a].
    rewrite forallb_rank_split.
    destruct (forallb (String.eqb a) (ranks i rest)) eqn:Ef.
    + rewrite (fold_set_add_same _ _ Ef). rewrite andb_true_r. simpl.
      destruct (Nat.eqb _ _); reflexivity.
    + pose proof (fold_set_add_differ _ _ Ef) as Hd. rewrite andb_false_r.
      destruct (fold_left set_add (ranks i rest) [a]) as [| x [| y t]];
        [reflexivity | contradiction | reflexivity].
  - fold (ranks i rest). pose proof (ranks_length_le i rest) as Hle.
    destruct (fold_left set_add (ranks i rest) []) as [| x [| y t]]; try reflexivity.
    destruct (Nat.eqb _ _) eqn:E; [apply Nat.eqb_eq in E; lia | reflexivity].
Qed.

Lemma walk_agree fuel i md ls acc :
  ls <> [] -> (fuel + i = md)%nat ->
  walk fuel i md ls acc = app acc (agree_from fuel i ls).
Proof.
  intros Hne. revert i acc. induction fuel as [| f IH]; intros i acc Hfi; simpl.
  - rewrite app_nil_r. reflexivity.
  - replace (Nat.ltb i md) with true by (symmetry; apply Nat.ltb_lt; lia).
    pose proof (scan_consensus i ls Hne) as Hc.
    destruct (scan i ls [] 0) as [lca_set contributors].
    rewrite <- Hc.
    destruct lca_set as [| a [| b t]]; [rewrite app_nil_r; reflexivity | | rewrite app_nil_r; reflexivity].
    destruct (Nat.eqb contributors (List.length ls)).
    + rewrite IH by lia. rewrite <- app_assoc. reflexivity.
    + rewrite app_nil_r. reflexivity.
Qed.

(** C7 (amended): for two or more lineages, [megan_lca] splits each
    (stripped) lineage on ["; "], walks the ranks from the left and stops at
    the first rank where not every lineage has the same name; the result is
    the ["; "]-joined walked prefix. *)
Theorem megan_lca_walks_ranks lineage_list :
  (2 <= List.length lineage_list)%nat ->
  megan_lca lineage_list =
    Some (join "; " (consensus_prefix
                       (map (fun lineage => split "; " (strip lineage)) lineage_list))).
Proof.
  intros H. destruct lineage_list as [| l1 [| l2 rest]]; simpl in H; try lia.
  unfold megan_lca, consensus_prefix. f_equal. f_equal.
  apply walk_agree; [discriminate | lia].
Qed.

Lemma megan_lca_walks_ranks_witness :
  megan_lca ["A; B; C"; "A; B; D"; "A; E; F"] =
    Some (join "; " (consensus_prefix
      (map (fun lineage => split "; " (strip lineage)) ["A; B; C"; "A; B; D"; "A; E; F"]))) /\
  megan_lca ["A; B; C"; "A; B; D"; "A; E; F"] = Some "A".
Proof.
  split; [apply megan_lca_walks_ranks; simpl; lia | vm_compute; reflexivity].
Defined.

(** C7 (counterexample): lineages written with bare [";"] separators are
    single ranks for [megan_lca], which splits on ["; "]: the three
    lineages of the spec's example disagree at their first and only rank,
    and the consensus is empty, not ["A"]. *)
Lemma megan_lca_unspaced_example :
  megan_lca ["A;B;C"; "A;B;D"; "A;E;F"] = Some "".
Proof. vm_compute. reflexivity. Qed.

End LcaFacts.

Module RefDataFacts.
Import Py PyStr RefData.

Example threshold_spec_example :
  percentile_index 6 (3 # 4) = 3%Z /\ threshold [5; 3; 3; 3; 2; 1]%Z "medium" = Some 3%Z.
Proof. split; reflexivity. Qed.

Example redundancy_example :
  estimate_taxonomic_redundancy
    ["r; Bacteria; Proteobacteria; Gamma; Entero; Enterob; Escherichia; coli";
     "r; Bacteria; Proteobacteria; Gamma; Entero; Enterob; Salmonella; enterica";
     "r; Bacteria; Firmicutes; Bacilli; Bacillales; Bacillaceae; Bacillus; subtilis"]
  = Some "Phyla".
Proof. vm_compute. reflexivity. Qed.

Lemma insert_desc_perm x l : Permutation (x :: l) (insert_desc x l).
Proof.
  induction l as [| y l IH]; simpl; [reflexivity |].
  destruct (Z.leb y x); [reflexivity |].
  etransitivity; [apply perm_swap |]. constructor. exact IH.
Qed.

Lemma sorted_desc_perm lst : Permutation lst (sorted_desc lst).
Proof.
  induction lst as [| x l IH]; simpl; [reflexivity |].
  etransitivity; [constructor; exact IH | apply insert_desc_perm].
Qed.

Lemma insert_desc_sorted x l : Sorted Z.ge l -> Sorted Z.ge (insert_desc x l).
Proof.
  induction 1 as [| y l Hs IH Hhd]; simpl.
  - repeat constructor.
  - destruct (Z.leb y x) eqn:E.
    + apply Z.leb_le in E. constructor; [constructor; assumption |]. constructor. lia.
    + apply Z.leb_gt in E. constructor; [exact IH |].
      destruct l as [| z l]; simpl.
      * constructor. lia.
      * inversion Hhd; subst. destruct (Z.leb z x); constructor; lia.
Qed.

Lemma sorted_desc_sorted lst : Sorted Z.ge (sorted_desc lst).
Proof.
  induction lst as [| x l IH]; simpl; [constructor | apply insert_desc_sorted; exact IH].
Qed.

Lemma percentile_medium_bounds n :
  (1 <= n)%nat -> (0 <= percentile_index n (3 # 4) < Z.of_nat n)%Z.
Proof.
  intros Hn. unfold percentile_index, round_half_even.
  change (inject_Z (Z.of_nat n) * (3 # 4)) with (Qmake (Z.of_nat n * 3) 4).
  change (Qfloor (Qmake (Z.of_nat n * 3) 4)) with ((Z.of_nat n * 3) / 4)%Z.
  assert (Hz : (1 <= Z.of_nat n)%Z) by lia.
  set (z := Z.of_nat n) in *.
  pose proof (Z.div_mod (z * 3) 4 ltac:(lia)) as Hdm.
  pose proof (Z.mod_pos_bound (z * 3) 4 ltac:(lia)) as Hmb.
  set (f := ((z * 3) / 4)%Z) in *. set (m := ((z * 3) mod 4)%Z) in *.
  destruct (Qlt_le_dec _ (1 # 2)) as [H | H].
  - unfold Qlt in H. simpl in H. lia.
  - destruct (Qeq_bool _ (1 # 2)) eqn:E.
    + apply Qeq_bool_iff in E. unfold Qeq in E. simpl in E.
      destruct (Z.even f); lia.
    + unfold Qle in H. simpl in H. lia.
Qed.

(** C8: the "medium" rule selects index [round(len(lst)*0.75)-1], an index
    inside the list, of the list sorted in descending order; on
    [[5,3,3,3,2,1]] the index is 3 and the value 3; and
    [estimate_taxonomic_redundancy] reports a rank exactly when its
    percentile count is 1 and every shallower rank has a percentile count
    other than 1 (it reports "Strain" when no rank has count 1). *)
Theorem threshold_medium_and_lowest_rank :
  (forall lst, lst <> [] ->
     let index := percentile_index (List.length lst) (3 # 4) in
     (0 <= index < Z.of_nat (List.length lst))%Z /\
     threshold lst "medium" = nth_error (sorted_desc lst) (Z.to_nat index) /\
     threshold lst "medium" <> None /\
     Sorted Z.ge (sorted_desc lst) /\ Permutation lst (sorted_desc lst)) /\
  (percentile_index 6 (3 # 4) = 3%Z /\ threshold [5; 3; 3; 3; 2; 1]%Z "medium" = Some 3%Z) /\
  (forall lineages r,
     estimate_taxonomic_redundancy lineages = Some r <->
     (r = "Strain" /\ Forall (fun dr => exists v, threshold (redundancy lineages (fst dr)) "medium"
                                                   = Some v /\ v <> 1%Z) rank_depth_map) \/
     (exists pre d post, rank_depth_map = app pre ((d, r) :: post) /\
        threshold (redundancy lineages d) "medium" = Some 1%Z /\
        Forall (fun dr => exists v, threshold (redundancy lineages (fst dr)) "medium"
                                      = Some v /\ v <> 1%Z) pre)).
Proof.
  split; [| split; [split; reflexivity |]].
  - intros lst Hne index.
    assert (Hb : (0 <= index < Z.of_nat (List.length lst))%Z).
    { apply percentile_medium_bounds. destruct lst; [contradiction | simpl; lia]. }
    assert (Hth : threshold lst "medium" = nth_error (sorted_desc lst) (Z.to_nat index)).
    { unfold threshold. simpl. unfold py_index. fold index.
      replace (Z.leb 0 index) with true by (symmetry; apply Z.leb_le; lia). reflexivity. }
    split; [exact Hb |]. split; [exact Hth |].
    split; [| split; [apply sorted_desc_sorted | apply sorted_desc_perm]].
    rewrite Hth. apply nth_error_Some.
    rewrite <- (Permutation_length (sorted_desc_perm lst)). lia.
  - intros lineages r. unfold estimate_taxonomic_redundancy.
    generalize rank_depth_map as ranks. intros ranks.
    induction ranks as [| [d nm] rest IH]; simpl.
    + split.
      * intros H. injection H as <-. left. split; [reflexivity | constructor].
      * intros [[-> _] | [pre [d [post [Hp _]]]]]; [reflexivity |].
        destruct pre; discriminate.
    + destruct (threshold (redundancy lineages d) "medium") as [v |] eqn:Ev.
      * destruct (Z.eqb v 1) eqn:E1.
        -- apply Z.eqb_eq in E1. subst v. split.
           ++ intros H. injection H as <-. right. exists [], d, rest. auto.
           ++ intros [[_ Hall] | [pre [d' [post [Hp [Hd Hpre]]]]]].
              ** inversion Hall as [| ? ? [v [Hv Hne]] _]; subst. simpl in Hv.
                 rewrite Ev in Hv. injection Hv as <-. contradiction.
              ** destruct pre as [| [d0 nm0] pre]; simpl in Hp; injection Hp as <- <- Hp.
                 --- reflexivity.
                 --- inversion Hpre as [| ? ? [v [Hv Hne]] _]; subst. simpl in Hv.
                     rewrite Ev in Hv. injection Hv as <-. contradiction.
        -- apply Z.eqb_neq in E1. rewrite IH. split.
           ++ intros [[-> Hall] | [pre [d' [post [Hp [Hd Hpre]]]]]].
              ** left. split; [reflexivity |]. constructor; [| exact Hall].
                 exists v. split; [exact Ev | exact E1].
              ** right. exists ((d, nm) :: pre), d', post.
                 split; [rewrite Hp; reflexivity |]. split; [exact Hd |].
                 constructor; [| exact Hpre]. exists v. split; [exact Ev | exact E1].
           ++ intros [[-> Hall] | [pre [d' [post [Hp [Hd Hpre]]]]]].
              ** left. split; [reflexivity |]. inversion Hall; assumption.
              ** destruct pre as [| [d0 nm0] pre]; simpl in Hp; injection Hp as <- <- Hp.
                 --- rewrite Ev in Hd. injection Hd as ->. contradiction.
                 --- right. exists pre, d', post. split; [exact Hp |]. split; [exact Hd |].
                     inversion Hpre; assumption.
      * split; [discriminate |].
        intros [[_ Hall] | [pre [d' [post [Hp [Hd Hpre]]]]]].
        -- inversion Hall as [| ? ? [v [Hv _]] _]; subst. simpl in Hv. congruence.
        -- destruct pre as [| [d0 nm0] pre]; simpl in Hp; injection Hp as <- <- Hp.
           ++ congruence.
           ++ inversion Hpre as [| ? ? [v [Hv _]] _]; subst. simpl in Hv. congruence.
Qed.

End RefDataFacts.

Module HmmerTblFacts.
Import Hmmer HmmerTbl.

Lemma list_ascii_of_string_app (a b : string) :
  list_ascii_of_string (a ++ b) = app (list_ascii_of_string a) (list_ascii_of_string b).
Proof. induction a as [| c a IH]; simpl; [reflexivity | rewrite IH; reflexivity]. Qed.

Lemma string_app_assoc (a b c : string) : (a ++ b) ++ c = a ++ (b ++ c).
Proof. induction a as [| x a IH]; simpl; [reflexivity | rewrite IH; reflexivity]. Qed.

Lemma string_app_empty (a : string) : a ++ "" = a.
Proof. induction a as [| x a IH]; simpl; [reflexivity | rewrite IH; reflexivity]. Qed.

Lemma format_loop_word w rest stats stat :
  has_space w = false ->
  format_loop (app (list_ascii_of_string w) rest) stats stat = format_loop rest stats (stat ++ w).
Proof.
  revert stat. induction w as [| c w IH]; intros stat Hw; simpl.
  - rewrite string_app_empty. reflexivity.
  - unfold has_space in Hw. simpl in Hw. apply orb_false_iff in Hw as [Hc Hw].
    rewrite Hc. rewrite IH by exact Hw. rewrite string_app_assoc. reflexivity.
Qed.

Lemma fold_append_app (a b : list string) :
  fold_right String.append "" (app a b)
  = fold_right String.append "" a ++ fold_right String.append "" b.
Proof.
  induction a as [| x a IH]; simpl; [reflexivity |]. rewrite IH, string_app_assoc. reflexivity.
Qed.

Lemma format_loop_concat cs stats stat :
  fold_right String.append "" (format_loop cs stats stat)
  = fold_right String.append "" stats ++ stat
    ++ string_of_list_ascii (filter (fun c => negb (Ascii.eqb c " ")) cs).
Proof.
  revert stats stat. induction cs as [| c cs IH]; intros stats stat; simpl.
  - rewrite fold_append_app. reflexivity.
  - destruct (Ascii.eqb c " ") eqn:E; simpl.
    + destruct (Nat.ltb 0 (String.length stat)) eqn:L; rewrite IH.
      * rewrite fold_append_app. simpl. rewrite string_app_empty, string_app_assoc. reflexivity.
      * apply Nat.ltb_ge in L. destruct stat; [reflexivity | simpl in L; lia].
    + rewrite IH. rewrite !string_app_assoc. reflexivity.
Qed.

Lemma format_loop_shape cs stats stat :
  Forall (fun t => String.length t <> 0%nat /\ has_space t = false) stats ->
  has_space stat = false ->
  exists init last, format_loop cs stats stat = app init [last] /\
    Forall (fun t => String.length t <> 0%nat /\ has_space t = false) init /\
    has_space last = false.
Proof.
  revert stats stat. induction cs as [| c cs IH]; intros stats stat Hs Hst; simpl.
  - exists stats, stat. auto.
  - destruct (Ascii.eqb c " ") eqn:E.
    + destruct (Nat.ltb 0 (String.length stat)) eqn:L.
      * apply IH; [| reflexivity]. apply Forall_app. split; [exact Hs |].
        constructor; [| constructor]. apply Nat.ltb_lt in L. split; [lia | exact Hst].
      * apply IH; assumption.
    + apply IH; [exact Hs |]. unfold has_space in *.
      rewrite list_ascii_of_string_app, existsb_app. simpl. rewrite Hst, E. reflexivity.
Qed.

Lemma format_loop_spaces n rest stats :
  format_loop (app (list_ascii_of_string (spaces n)) rest) stats "" = format_loop rest stats "".
Proof. induction n as [| n IH]; [reflexivity |]. cbn [spaces list_ascii_of_string app format_loop].
  exact IH. Qed.

(** [format_hmmer_domtbl_line] splits a line at runs of spaces: the
    tokens contain no space, all tokens but the last are non-empty, and
    their concatenation is the line without its spaces; the tokens of a
    line written as non-empty space-free tokens separated by runs of
    spaces are those tokens. *)
Theorem format_hmmer_domtbl_line_tokens :
  (forall line, exists init last,
      format_hmmer_domtbl_line line = app init [last] /\
      Forall (fun t => String.length t <> 0%nat /\ has_space t = false) init /\
      has_space last = false /\
      fold_right String.append "" (format_hmmer_domtbl_line line) = drop_spaces line) /\
  (forall ts gaps, ts <> [] ->
      Forall (fun t => String.length t <> 0%nat /\ has_space t = false) ts ->
      format_hmmer_domtbl_line (join_runs ts gaps) = ts).
Proof.
  split.
  - intros line. destruct (format_loop_shape (list_ascii_of_string line) [] "")
      as [init [last [H1 [H2 H3]]]]; [constructor | reflexivity |].
    exists init, last. unfold format_hmmer_domtbl_line. rewrite H1.
    split; [reflexivity |]. split; [exact H2 |]. split; [exact H3 |].
    rewrite <- H1, format_loop_concat. reflexivity.
  - intros ts gaps Hne Hts. unfold format_hmmer_domtbl_line.
    change ts with (app [] ts) at 2. generalize (@nil string) as stats. revert gaps.
    induction ts as [| t ts IH]; [contradiction |]. intros gaps stats.
    inversion Hts as [| ? ? [Hl Hsp] Hrest]; subst.
    destruct ts as [| t' ts'].
    + simpl. rewrite <- (app_nil_r (list_ascii_of_string t)).
      rewrite format_loop_word by exact Hsp. reflexivity.
    + change (join_runs (t :: t' :: ts') gaps)
        with (t ++ String " " (spaces (hd O gaps)) ++ join_runs (t' :: ts') (tl gaps)).
      rewrite list_ascii_of_string_app, format_loop_word by exact Hsp.
      cbn [append list_ascii_of_string format_loop].
      replace (Ascii.eqb " " " ") with true by reflexivity.
      replace (Nat.ltb 0 (String.length t)) with true by (symmetry; apply Nat.ltb_lt; lia).
      rewrite list_ascii_of_string_app, format_loop_spaces.
      rewrite IH; [| discriminate | exact Hrest]. rewrite <- app_assoc. reflexivity.
Qed.

Lemma format_hmmer_domtbl_line_tokens_witness :
  ["q1"; "-"; "250"; "mcrA"] <> [] /\
  format_hmmer_domtbl_line (join_runs ["q1"; "-"; "250"; "mcrA"] [1; 0; 3]%nat) = ["q1"; "-"; "250"; "mcrA"] /\
  format_hmmer_domtbl_line "q1  -  250 mcrA" = ["q1"; "-"; "250"; "mcrA"].
Proof.
  split; [discriminate |]. split; [| reflexivity].
  apply (proj2 format_hmmer_domtbl_line_tokens); [discriminate |].
  repeat constructor; discriminate.
Defined.

(** On well-formed intervals ([q_i <= q_j], [r_i <= r_j]),
    [detect_orientation] is [satellite] exactly when the intervals are
    disjoint, [supersequence] exactly when [r] lies within [q], and
    [subsequence] exactly when [q] lies within [r] and starts after [r]. *)
Theorem detect_orientation_cases (q_i q_j r_i r_j : Z) :
  (q_i <= q_j)%Z -> (r_i <= r_j)%Z ->
  (detect_orientation q_i q_j r_i r_j = satellite <-> (r_j < q_i \/ q_j < r_i)%Z) /\
  (detect_orientation q_i q_j r_i r_j = supersequence <-> (q_i <= r_i /\ r_j <= q_j)%Z) /\
  (detect_orientation q_i q_j r_i r_j = subsequence <-> (r_i < q_i /\ q_j <= r_j)%Z).
Proof.
  intros Hq Hr. unfold detect_orientation.
  destruct (Z.leb_spec q_i r_i), (Z.leb_spec r_i q_j), (Z.leb_spec q_i r_j),
           (Z.leb_spec r_j q_j), (Z.leb_spec r_i q_i), (Z.leb_spec q_i r_j),
           (Z.leb_spec q_j r_j); simpl;
    repeat split; intros; try discriminate; try reflexivity; try lia.
Qed.

Lemma detect_orientation_cases_witness :
  (1 <= 5)%Z /\ (7 <= 9)%Z /\ detect_orientation 1 5 7 9 = satellite.
Proof.
  split; [lia |]. split; [lia |].
  apply (proj1 (detect_orientation_cases 1 5 7 9 ltac:(lia) ltac:(lia))). lia.
Defined.

Lemma dict_set_fresh {V} k (v : V) d :
  ~ In k (map fst d) -> dict_set k v d = app d [(k, v)].
Proof.
  induction d as [| [k' v'] d IH]; simpl; intros H; [reflexivity |].
  destruct (Nat.eqb (fst k) (fst k') && Nat.eqb (snd k) (snd k')) eqn:E.
  - apply andb_true_iff in E as [E1 E2]. apply Nat.eqb_eq in E1, E2.
    exfalso. apply H. left. destruct k, k'; simpl in *; subst; reflexivity.
  - rewrite IH; [reflexivity | tauto].
Qed.

Lemma orient_inner_spec l i s e fuel : forall j rel,
  (List.length l - j <= fuel)%nat ->
  NoDup (map fst rel) ->
  (forall k, In k (map fst rel) -> (fst k < i \/ (fst k = i /\ snd k < j))%nat) ->
  NoDup (map fst (fst (orient_inner fuel l i j s e rel))) /\
  (forall k, In k (map fst (fst (orient_inner fuel l i j s e rel))) -> (fst k <= i)%nat) /\
  (forall k r, In (k, r) (fst (orient_inner fuel l i j s e rel)) <->
     In (k, r) rel \/
     (fst k = i /\ (j <= snd k < List.length l)%nat /\ snd k <> i /\
      exists p, nth_error l (snd k) = Some p /\ r = detect_orientation s e (start p) (end_ p))).
Proof.
  induction fuel as [| fuel IH]; intros j rel Hf Hnd Hk; simpl.
  - split; [exact Hnd |]. split.
    + intros k Hin. specialize (Hk k Hin). lia.
    + intros k r. split; [tauto |]. intros [H | [_ [H _]]]; [exact H | lia].
  - destruct (Nat.ltb j (List.length l)) eqn:Ej.
    + apply Nat.ltb_lt in Ej. destruct (Nat.eqb j i) eqn:Eji.
      * apply Nat.eqb_eq in Eji. subst j.
        destruct (IH (S i) rel ltac:(lia) Hnd) as [A [B C]].
        { intros k Hin. specialize (Hk k Hin). lia. }
        split; [exact A |]. split; [exact B |]. intros k r. rewrite C.
        split; intros [H | [H1 [H2 [H3 H4]]]]; auto.
        -- right. split; [exact H1 |]. split; [lia |]. split; [exact H3 | exact H4].
        -- right. split; [exact H1 |]. split; [lia |]. split; [exact H3 | exact H4].
      * apply Nat.eqb_neq in Eji.
        destruct (nth_error l j) as [p |] eqn:Ep.
        2: { apply nth_error_None in Ep. lia. }
        assert (Hfresh : ~ In (i, j) (map fst rel)).
        { intros Hin. specialize (Hk _ Hin). simpl in Hk. lia. }
        rewrite (dict_set_fresh _ _ _ Hfresh).
        set (rel' := app rel [((i, j), detect_orientation s e (start p) (end_ p))]).
        assert (Hnd' : NoDup (map fst rel')).
        { unfold rel'. rewrite map_app. simpl. apply NoDup_app; auto.
          - repeat constructor. auto.
          - intros x Hx [Hy | []]. subst x. contradiction. }
        destruct (IH (S j) rel' ltac:(lia) Hnd') as [A [B C]].
        { intros k Hin. unfold rel' in Hin. rewrite map_app in Hin.
          apply in_app_or in Hin as [Hin | [Hin | []]].
          - specialize (Hk k Hin). lia.
          - subst k. simpl. lia. }
        split; [exact A |]. split; [exact B |]. intros k r. rewrite C. unfold rel'.
        rewrite in_app_iff. simpl. split.
        -- intros [[H | [H | []]] | [H1 [H2 [H3 H4]]]]; auto.
           ++ injection H as <- <-. right. simpl. repeat split; auto; try lia.
              exists p. auto.
           ++ right. repeat split; auto; lia.
        -- intros [H | [H1 [H2 [H3 [p' [H4 H5]]]]]]; auto.
           destruct (Nat.eq_dec (snd k) j) as [Hj | Hj].
           ++ left. right. left. destruct k as [k1 k2]; simpl in *. subst.
              rewrite Ep in H4. injection H4 as <-. reflexivity.
           ++ right. repeat split; auto; try lia. exists p'. auto.
    + apply Nat.ltb_ge in Ej. split; [exact Hnd |]. split.
      * intros k Hin. specialize (Hk k Hin). lia.
      * intros k r. split; [tauto |]. intros [H | [_ [H _]]]; [exact H | lia].
Qed.

Lemma orient_outer_spec l fuel : forall i rel,
  (List.length l - i <= fuel)%nat ->
  NoDup (map fst rel) ->
  (forall k, In k (map fst rel) -> (fst k < i)%nat) ->
  NoDup (map fst (orient_outer fuel l i (pred i) rel)) /\
  (forall k r, In (k, r) (orient_outer fuel l i (pred i) rel) <->
     In (k, r) rel \/
     ((i <= fst k < List.length l)%nat /\ (pred (fst k) <= snd k < List.length l)%nat /\
      snd k <> fst k /\
      exists a b, nth_error l (fst k) = Some a /\ nth_error l (snd k) = Some b /\
        r = detect_orientation (start a) (end_ a) (start b) (end_ b))).
Proof.
  induction fuel as [| fuel IH]; intros i rel Hf Hnd Hk; cbn [orient_outer].
  - split; [exact Hnd |]. intros k r. split; [tauto |]. intros [H | [H _]]; [exact H | lia].
  - destruct (nth_error l i) as [a |] eqn:Ea.
    + assert (Hi : (i < List.length l)%nat) by (apply nth_error_Some; congruence).
      destruct (orient_inner_spec l i (start a) (end_ a) (S (List.length l)) (pred i) rel
                  ltac:(lia) Hnd) as [A [B C]].
      { intros k Hin. left. exact (Hk k Hin). }
      destruct (orient_inner (S (List.length l)) l i (pred i) (start a) (end_ a) rel)
        as [rel' j'] eqn:Einner. simpl in A, B, C.
      destruct (IH (S i) rel' ltac:(lia) A) as [D E].
      { intros k Hin. specialize (B k Hin). lia. }
      simpl in D, E. split; [exact D |]. intros k r. rewrite E, C. split.
      * intros [[H | [H1 [H2 [H3 [p [H4 H5]]]]]] | [H1 [H2 [H3 [a' [b [H4 [H5 H6]]]]]]]].
        -- left. exact H.
        -- right. rewrite H1. repeat split; auto; try lia. exists a, p. subst i. auto.
        -- right. repeat split; auto; try lia. exists a', b. auto.
      * intros [H | [H1 [H2 [H3 [a' [b [H4 [H5 H6]]]]]]]]; [left; left; exact H |].
        destruct (Nat.eq_dec (fst k) i) as [Hki | Hki].
        -- left. right. split; [exact Hki |]. split; [lia |]. split; [lia |].
           exists b. split; [exact H5 |]. rewrite Hki, Ea in H4. injection H4 as <-. exact H6.
        -- right. repeat split; auto; try lia. exists a', b. auto.
    + apply nth_error_None in Ea. split; [exact Hnd |]. intros k r.
      split; [tauto |]. intros [H | [H _]]; [exact H | lia].
Qed.

(** [orient_alignments] records each pair [(i, j)], [j <> i], exactly
    once, and only those with [j >= i - 1] ([j] restarts at [i - 1], not
    at 0): row 0 and row 1 are complete, later rows miss the pairs
    [(i, j)] with [j < i - 1]; each value is [detect_orientation] of the
    query coordinates of alignment [i] against those of alignment [j]. *)
Theorem orient_alignments_pairs (l : list HmmMatch) :
  NoDup (map fst (orient_alignments l)) /\
  forall i j r, In ((i, j), r) (orient_alignments l) <->
    (i < List.length l)%nat /\ (pred i <= j < List.length l)%nat /\ j <> i /\
    exists a b, nth_error l i = Some a /\ nth_error l j = Some b /\
      r = detect_orientation (start a) (end_ a) (start b) (end_ b).
Proof.
  destruct (orient_outer_spec l (List.length l) 0 [] ltac:(lia) ltac:(constructor))
    as [A B]; [intros k [] |].
  split; [exact A |]. intros i j r. unfold orient_alignments. rewrite (B (i, j) r). simpl.
  split; [intros [[] | H]; simpl in H; intuition lia | intros H; right; simpl; intuition lia].
Qed.

Lemma nat_set_add_In s x y : In y (nat_set_add s x) <-> In y s \/ y = x.
Proof.
  unfold nat_set_add. destruct (existsb (Nat.eqb x) s) eqn:E.
  - apply existsb_exists in E as [z [Hz Ez]]. apply Nat.eqb_eq in Ez. subst z.
    split; [auto | intros [H | ->]; auto].
  - rewrite in_app_iff. simpl. split; intros [H | H]; auto; destruct H as [H | []]; auto.
Qed.

Lemma defecate_spec l rels : forall acc,
  Forall (fun kr => (fst (fst kr) < List.length l)%nat /\ (snd (fst kr) < List.length l)%nat) rels ->
  exists drop, defecate l rels acc = Some drop /\
    (forall x, In x acc -> In x drop) /\
    forall b p r, In ((b, p), r) rels -> r <> satellite -> In b drop \/ In p drop.
Proof.
  induction rels as [| [[b p] r] rest IH]; intros acc Hr.
  - exists acc. split; [reflexivity |]. split; [auto | intros ? ? ? []].
  - inversion Hr as [| ? ? [Hb Hp] Hrest]; subst. simpl in Hb, Hp.
    assert (Hstep : forall acc', (forall x, In x acc' <-> In x acc \/ x = b) \/
                                 (forall x, In x acc' <-> In x acc \/ x = p) ->
              r <> satellite ->
              defecate l (((b, p), r) :: rest) acc = defecate l rest acc' ->
              exists drop, defecate l (((b, p), r) :: rest) acc = Some drop /\
                (forall x, In x acc -> In x drop) /\
                forall b' p' r', In ((b', p'), r') (((b, p), r) :: rest) ->
                  r' <> satellite -> In b' drop \/ In p' drop).
    { intros acc' Hacc' Hns Heq.
      destruct (IH acc' Hrest) as [drop [D1 [D2 D3]]].
      exists drop. rewrite Heq. split; [exact D1 |]. split.
      - intros x Hx. apply D2. destruct Hacc' as [H | H]; apply H; auto.
      - intros b' p' r' [Hin | Hin] Hns'.
        + injection Hin as <- <- <-. destruct Hacc' as [H | H].
          * left. apply D2, H. auto.
          * right. apply D2, H. auto.
        + exact (D3 b' p' r' Hin Hns'). }
    destruct r.
    + apply (Hstep (nat_set_add acc p)); [right; intros; apply nat_set_add_In | discriminate | reflexivity].
    + destruct (nth_error l b) as [hb |] eqn:Eb; [| apply nth_error_None in Eb; lia].
      destruct (nth_error l p) as [hp |] eqn:Ep; [| apply nth_error_None in Ep; lia].
      destruct (Qlt_le_dec (ceval hb) (ceval hp)) eqn:Eq.
      * apply (Hstep (nat_set_add acc p));
          [right; intros; apply nat_set_add_In | discriminate | simpl; rewrite Eb, Ep, Eq; reflexivity].
      * apply (Hstep (nat_set_add acc b));
          [left; intros; apply nat_set_add_In | discriminate | simpl; rewrite Eb, Ep, Eq; reflexivity].
    + apply (Hstep (nat_set_add acc b)); [left; intros; apply nat_set_add_In | discriminate | reflexivity].
    + destruct (IH acc Hrest) as [drop [D1 [D2 D3]]]. exists drop.
      split; [exact D1 |]. split; [exact D2 |].
      intros b' p' r' [Hin | Hin] Hns; [injection Hin as <- <- <-; contradiction |].
      exact (D3 b' p' r' Hin Hns).
Qed.

Lemma in_kept l drop x : In x (kept l drop) <-> (x < List.length l)%nat /\ ~ In x drop.
Proof.
  unfold kept. rewrite filter_In, in_seq. split.
  - intros [H1 H2]. split; [lia |]. intros Hin. apply negb_true_iff in H2.
    assert (existsb (Nat.eqb x) drop = true) by (apply existsb_exists; exists x; split; [exact Hin | apply Nat.eqb_refl]).
    congruence.
  - intros [H1 H2]. split; [lia |]. apply negb_true_iff. destruct (existsb (Nat.eqb x) drop) eqn:E; [| reflexivity].
    apply existsb_exists in E as [y [Hy Ey]]. apply Nat.eqb_eq in Ey. subst. contradiction.
Qed.

(** [consolidate_subalignments] after [orient_alignments] on the same
    list succeeds, and the alignments it keeps (the indices not marked
    for removal, which it writes to [distinct_alignments] in order) have
    pairwise disjoint query intervals, for well-formed intervals. *)
Theorem consolidate_keeps_disjoint (header : HmmMatch -> string) (l : list HmmMatch)
    (distinct : list (string * HmmMatch)) :
  Forall (fun h => (start h <= end_ h)%Z) l ->
  exists drop,
    consolidate_subalignments header l (orient_alignments l) distinct
      = Some (keep_loop header l 0 drop distinct) /\
    forall i j a b, In i (kept l drop) -> In j (kept l drop) -> i <> j ->
      nth_error l i = Some a -> nth_error l j = Some b ->
      (end_ a < start b \/ end_ b < start a)%Z.
Proof.
  intros Hwf. destruct (orient_alignments_pairs l) as [_ Hrel].
  destruct (defecate_spec l (orient_alignments l) []) as [drop [D1 [_ D3]]].
  { apply Forall_forall. intros [[i j] r] Hin. apply Hrel in Hin. simpl. lia. }
  exists drop. unfold consolidate_subalignments. rewrite D1. split; [reflexivity |].
  intros i j a b Hi Hj Hij Ha Hb.
  apply in_kept in Hi as [Hil Hid]. apply in_kept in Hj as [Hjl Hjd].
  rewrite Forall_forall in Hwf.
  assert (Hwa : (start a <= end_ a)%Z) by (apply Hwf; eapply nth_error_In; exact Ha).
  assert (Hwb : (start b <= end_ b)%Z) by (apply Hwf; eapply nth_error_In; exact Hb).
  (* the row of the smaller index records the pair *)
  assert (Hpair : forall i j a b, (i < j < List.length l)%nat ->
            nth_error l i = Some a -> nth_error l j = Some b ->
            (start a <= end_ a)%Z -> (start b <= end_ b)%Z ->
            In i drop \/ In j drop \/ (end_ a < start b \/ end_ b < start a)%Z).
  { intros i' j' a' b' Hlt Ha' Hb' Hwa' Hwb'.
    assert (Hin : In ((i', j'), detect_orientation (start a') (end_ a') (start b') (end_ b'))
                    (orient_alignments l)).
    { apply Hrel. split; [lia |]. split; [lia |]. split; [lia |]. exists a', b'. auto. }
    destruct (detect_orientation (start a') (end_ a') (start b') (end_ b')) eqn:Ed;
      try (destruct (D3 _ _ _ Hin ltac:(discriminate)); tauto).
    apply (proj1 (proj1 (detect_orientation_cases _ _ _ _ Hwa' Hwb'))) in Ed.
    right. right. lia. }
  destruct (Nat.lt_ge_cases i j) as [Hlt | Hge].
  - destruct (Hpair i j a b ltac:(lia) Ha Hb Hwa Hwb) as [H | [H | H]]; tauto.
  - destruct (Hpair j i b a ltac:(lia) Hb Ha Hwb Hwa) as [H | [H | H]]; [tauto | tauto | lia].
Qed.

Lemma consolidate_keeps_disjoint_witness :
  Forall (fun h => (start h <= end_ h)%Z)
    [mkHmmMatch "o" 100 1 40 1 40 1 2 (1#2); mkHmmMatch "o" 100 30 90 30 90 2 2 (1#3)] /\
  exists drop,
    consolidate_subalignments orf
      [mkHmmMatch "o" 100 1 40 1 40 1 2 (1#2); mkHmmMatch "o" 100 30 90 30 90 2 2 (1#3)]
      (orient_alignments
         [mkHmmMatch "o" 100 1 40 1 40 1 2 (1#2); mkHmmMatch "o" 100 30 90 30 90 2 2 (1#3)]) []
      = Some (keep_loop orf
                [mkHmmMatch "o" 100 1 40 1 40 1 2 (1#2); mkHmmMatch "o" 100 30 90 30 90 2 2 (1#3)]
                0 drop []) /\
    forall i j a b,
      In i (kept [mkHmmMatch "o" 100 1 40 1 40 1 2 (1#2); mkHmmMatch "o" 100 30 90 30 90 2 2 (1#3)] drop) ->
      In j (kept [mkHmmMatch "o" 100 1 40 1 40 1 2 (1#2); mkHmmMatch "o" 100 30 90 30 90 2 2 (1#3)] drop) ->
      i <> j ->
      nth_error [mkHmmMatch "o" 100 1 40 1 40 1 2 (1#2); mkHmmMatch "o" 100 30 90 30 90 2 2 (1#3)] i = Some a ->
      nth_error [mkHmmMatch "o" 100 1 40 1 40 1 2 (1#2); mkHmmMatch "o" 100 30 90 30 90 2 2 (1#3)] j = Some b ->
      (end_ a < start b \/ end_ b < start a)%Z.
Proof.
  assert (H : Forall (fun h => (start h <= end_ h)%Z)
    [mkHmmMatch "o" 100 1 40 1 40 1 2 (1#2); mkHmmMatch "o" 100 30 90 30 90 2 2 (1#3)])
    by (repeat constructor; simpl; lia).
  split; [exact H |]. exact (consolidate_keeps_disjoint orf _ [] H).
Defined.

Lemma perc_aligned_ok_pos perc h :
  (0 < hmm_len h)%Z ->
  perc_aligned_ok perc h = Some (Z.leb (perc * hmm_len h) ((pend h - pstart h) * 100)).
Proof.
  intros Hpos. unfold perc_aligned_ok.
  destruct (hmm_len h) as [| d | d]; try lia. simpl. f_equal.
  unfold Qle_bool, Qdiv, Qmult, Qinv. simpl. rewrite !Z.mul_1_r. reflexivity.
Qed.

Lemma incomplete_loop_pos perc hs : forall complete n,
  Forall (fun h => (0 < hmm_len h)%Z) hs ->
  incomplete_loop perc hs complete n =
  Some (app complete (filter (fun h => Z.leb (perc * hmm_len h) ((pend h - pstart h) * 100)) hs),
        (n + Z.of_nat (List.length
                         (filter (fun h => negb (Z.leb (perc * hmm_len h) ((pend h - pstart h) * 100))) hs)))%Z).
Proof.
  induction hs as [| h t IH]; intros complete n Hpos; simpl.
  - rewrite app_nil_r, Z.add_0_r. reflexivity.
  - inversion Hpos as [| ? ? Hh Ht]; subst. rewrite (perc_aligned_ok_pos _ _ Hh).
    destruct (Z.leb (perc * hmm_len h) ((pend h - pstart h) * 100)); simpl; rewrite IH by exact Ht.
    + rewrite <- app_assoc. reflexivity.
    + f_equal. f_equal. lia.
Qed.

(** [filter_incomplete_hits] with positive profile lengths keeps, in
    order, exactly the hits whose aligned share of the profile,
    [(pend - pstart) * 100 / hmm_len], reaches [perc_aligned], and adds
    the number of the other hits to [num_dropped]. *)
Theorem filter_incomplete_hits_kept (perc : Z) (purified : list ((string * string) * list HmmMatch)) (num_dropped : Z) :
  Forall (fun h => (0 < hmm_len h)%Z) (List.concat (map snd purified)) ->
  filter_incomplete_hits perc purified num_dropped =
  Some (filter (fun h => Z.leb (perc * hmm_len h) ((pend h - pstart h) * 100))
               (List.concat (map snd purified)),
        (num_dropped + Z.of_nat (List.length
           (filter (fun h => negb (Z.leb (perc * hmm_len h) ((pend h - pstart h) * 100)))
                   (List.concat (map snd purified)))))%Z).
Proof.
  unfold filter_incomplete_hits. change (filter ?f (List.concat (map snd purified)))
    with (app [] (filter f (List.concat (map snd purified)))) at 1.
  generalize (@nil HmmMatch) as complete. revert num_dropped.
  induction purified as [| [q hs] rest IH]; intros n complete Hpos; simpl.
  - rewrite app_nil_r, Z.add_0_r. reflexivity.
  - simpl in Hpos. apply Forall_app in Hpos as [Hhs Hrest].
    rewrite (incomplete_loop_pos _ _ _ _ Hhs), IH by exact Hrest.
    rewrite !filter_app, length_app, <- !app_assoc. f_equal. f_equal. lia.
Qed.

Lemma filter_incomplete_hits_kept_witness :
  Forall (fun h => (0 < hmm_len h)%Z)
    (List.concat (map snd [(("q", "mcrA"), [mkHmmMatch "q" 200 1 100 1 190 1 1 (1#10);
                                       mkHmmMatch "q" 200 1 100 1 50 1 1 (1#10)])])) /\
  filter_incomplete_hits 80 [(("q", "mcrA"), [mkHmmMatch "q" 200 1 100 1 190 1 1 (1#10);
                                              mkHmmMatch "q" 200 1 100 1 50 1 1 (1#10)])] 0
  = Some ([mkHmmMatch "q" 200 1 100 1 190 1 1 (1#10)], 1%Z).
Proof.
  assert (H : Forall (fun h => (0 < hmm_len h)%Z)
    (List.concat (map snd [(("q", "mcrA"), [mkHmmMatch "q" 200 1 100 1 190 1 1 (1#10);
                                       mkHmmMatch "q" 200 1 100 1 50 1 1 (1#10)])])))
    by (repeat constructor).
  split; [exact H |]. rewrite (filter_incomplete_hits_kept 80 _ 0 H). reflexivity.
Defined.

Lemma incomplete_loop_None perc hs : forall complete n,
  incomplete_loop perc hs complete n = None <-> exists h, In h hs /\ hmm_len h = 0%Z.
Proof.
  induction hs as [| h t IH]; intros complete n; simpl.
  - split; [discriminate | intros [? [[] _]]].
  - unfold perc_aligned_ok at 1. destruct (Z.eqb_spec (hmm_len h) 0) as [E | E].
    + split; [intros _; exists h; auto | reflexivity].
    + destruct (Qle_bool _ _); cbn iota; rewrite IH; split.
      1, 3: intros [h' [H1 H2]]; exists h'; split; [right; exact H1 | exact H2].
      all: intros [h' [[<- | H1] H2]]; [contradiction | exists h'; auto].
Qed.

(** [filter_incomplete_hits] raises (a [ZeroDivisionError]) exactly
    when some hit of some query has a profile length of 0. *)
Theorem filter_incomplete_hits_raises (perc : Z) (purified : list ((string * string) * list HmmMatch)) (num_dropped : Z) :
  filter_incomplete_hits perc purified num_dropped = None <->
  exists h, In h (List.concat (map snd purified)) /\ hmm_len h = 0%Z.
Proof.
  unfold filter_incomplete_hits. generalize (@nil HmmMatch) as complete. revert num_dropped.
  induction purified as [| [q hs] rest IH]; intros n complete; simpl.
  - split; [discriminate | intros [? [[] _]]].
  - destruct (incomplete_loop perc hs complete n) as [[c m] |] eqn:E.
    + rewrite IH. split.
      * intros [h [H1 H2]]. exists h. rewrite in_app_iff. auto.
      * intros [h [H1 H2]]. apply in_app_or in H1 as [H1 | H1].
        -- exfalso. assert (Hn : incomplete_loop perc hs complete n = None)
             by (apply incomplete_loop_None; exists h; auto). congruence.
        -- exists h. auto.
    + split; [intros _ | reflexivity].
      apply incomplete_loop_None in E as [h [H1 H2]]. exists h. rewrite in_app_iff. auto.
Qed.

Lemma covers_refl x : covers x x.
Proof. unfold covers. lia. Qed.

Lemma covers_trans x y z : covers z y -> covers y x -> covers z x.
Proof. unfold covers. lia. Qed.

Lemma merge_pair_covers base proj base' :
  merge_pair base proj = Some base' -> covers base' base /\ covers base' proj.
Proof.
  unfold merge_pair. destruct (accepted _ && accepted _); [| discriminate].
  destruct (within_wobble _ _ _); [| discriminate]. intros H. injection H as <-.
  unfold covers. simpl. lia.
Qed.

Lemma In_remove_nth {A} (l : list A) j k y :
  nth_error l k = Some y -> k <> j -> In y (remove_nth j l).
Proof.
  revert j k. induction l as [| h t IH]; intros j k Hk Hkj; [destruct k; discriminate |].
  destruct k as [| k], j as [| j]; simpl in *.
  - contradiction.
  - injection Hk as ->. left. reflexivity.
  - eapply nth_error_In. exact Hk.
  - right. apply (IH j k Hk). lia.
Qed.

Lemma nth_error_set_nth_same {A} (l : list A) i x :
  (i < List.length l)%nat -> nth_error (set_nth i x l) i = Some x.
Proof.
  revert i. induction l as [| h t IH]; intros [| i] Hi; simpl in *; try lia; [reflexivity |].
  apply IH. lia.
Qed.

Lemma nth_error_set_nth_other {A} (l : list A) i j x :
  i <> j -> nth_error (set_nth j x l) i = nth_error l i.
Proof.
  revert i j. induction l as [| y l IH]; intros i j Hij; [destruct j; reflexivity |].
  destruct i, j; simpl; try reflexivity; [contradiction | apply IH; lia].
Qed.

Lemma merge_step_covers l bi j base proj base' :
  nth_error l bi = Some base -> nth_error l j = Some proj -> j <> bi ->
  merge_pair base proj = Some base' ->
  forall x, In x l -> exists y, In y (remove_nth j (set_nth bi base' l)) /\ covers y x.
Proof.
  intros Hb Hp Hjb Hm x Hx. destruct (merge_pair_covers _ _ _ Hm) as [Cb Cp].
  assert (Hbl : (bi < List.length l)%nat) by (apply nth_error_Some; congruence).
  assert (Hin' : In base' (remove_nth j (set_nth bi base' l))).
  { apply (In_remove_nth _ j bi); [apply nth_error_set_nth_same; exact Hbl | lia]. }
  apply In_nth_error in Hx as [k Hk].
  destruct (Nat.eq_dec k bi) as [-> | Hkb]; [rewrite Hb in Hk; injection Hk as <-; eauto |].
  destruct (Nat.eq_dec k j) as [-> | Hkj]; [rewrite Hp in Hk; injection Hk as <-; eauto |].
  exists x. split; [| apply covers_refl].
  apply (In_remove_nth _ j k); [rewrite nth_error_set_nth_other by exact Hkb; exact Hk | exact Hkj].
Qed.

Lemma inner_loop_covers fuel : forall bi j l x, In x l ->
  exists y, In y (fst (inner_loop fuel bi j l)) /\ covers y x.
Proof.
  induction fuel as [| fuel IH]; intros bi j l x Hx; cbn [inner_loop].
  - exists x. split; [exact Hx | apply covers_refl].
  - destruct (Nat.ltb j (List.length l)); [| exists x; split; [exact Hx | apply covers_refl]].
    destruct (Nat.eqb j bi) eqn:Ejb; [apply IH; exact Hx |].
    apply Nat.eqb_neq in Ejb.
    destruct (nth_error l bi) as [base |] eqn:Eb; [| exists x; split; [exact Hx | apply covers_refl]].
    destruct (nth_error l j) as [proj |] eqn:Ep; [| exists x; split; [exact Hx | apply covers_refl]].
    destruct (merge_pair base proj) as [base' |] eqn:Em; [| apply IH; exact Hx].
    destruct (merge_step_covers l bi j base proj base' Eb Ep Ejb Em x Hx) as [y [Hy Cy]].
    destruct (IH (if Nat.ltb j bi then pred bi else bi) j _ y Hy) as [z [Hz Cz]].
    exists z. split; [exact Hz | exact (covers_trans _ _ _ Cz Cy)].
Qed.

Lemma outer_loop_covers fuel : forall i j l x, In x l ->
  exists y, In y (outer_loop fuel i j l) /\ covers y x.
Proof.
  induction fuel as [| fuel IH]; intros i j l x Hx; cbn [outer_loop].
  - exists x. split; [exact Hx | apply covers_refl].
  - destruct (Nat.ltb i (List.length l)); [| exists x; split; [exact Hx | apply covers_refl]].
    destruct (inner_loop_covers (S (List.length l)) i j l x Hx) as [y [Hy Cy]].
    destruct (inner_loop (S (List.length l)) i j l) as [l' j'] eqn:E. simpl in Hy.
    destruct (IH (S i) j' l' y Hy) as [z [Hz Cz]].
    exists z. split; [exact Hz | exact (covers_trans _ _ _ Cz Cy)].
Qed.

(** [scaffold_subalignments] loses no aligned region: the query range and
    the profile range of every input sub-alignment lie within those of
    some output sub-alignment (a merged hit spans the union of the two). *)
Theorem scaffold_subalignments_covers_input (l : list HmmMatch) x :
  In x l ->
  exists y, In y (scaffold_subalignments l) /\
    (start y <= start x /\ end_ x <= end_ y /\ pstart y <= pstart x /\ pend x <= pend y)%Z.
Proof.
  intros Hx. exact (outer_loop_covers _ 0 0 l x Hx).
Qed.

Lemma scaffold_subalignments_covers_input_witness :
  In example_second [example_base; example_second] /\
  exists y, In y (scaffold_subalignments [example_base; example_second]) /\
    (start y <= start example_second /\ end_ example_second <= end_ y /\
     pstart y <= pstart example_second /\ pend example_second <= pend y)%Z.
Proof.
  assert (H : In example_second [example_base; example_second]) by (right; left; reflexivity).
  split; [exact H | exact (scaffold_subalignments_covers_input _ _ H)].
Defined.

End HmmerTblFacts.

Module OverlapFacts.
Import Overlap.
Open Scope Z_scope.

(** For intervals with [start <= end], [calculate_overlap] is the length
    of their intersection, [min(end) - max(start)], and 0 when they are
    disjoint; in particular it does not depend on which interval is the
    base. *)
Theorem calculate_overlap_intersection (bs be cs ce : Z) :
  bs <= be -> cs <= ce ->
  calculate_overlap bs be cs ce = Z.max 0 (Z.min be ce - Z.max bs cs).
Proof.
  intros Hb Hc. unfold calculate_overlap.
  destruct (Z.leb_spec bs cs), (Z.geb_spec ce be), (Z.geb_spec be cs), (Z.leb_spec ce be),
           (Z.leb_spec cs bs), (Z.leb_spec bs ce), (Z.leb_spec be ce); simpl; lia.
Qed.

Lemma calculate_overlap_intersection_witness :
  10 <= 50 /\ 40 <= 90 /\ calculate_overlap 10 50 40 90 = 10.
Proof.
  split; [lia |]. split; [lia |].
  rewrite (calculate_overlap_intersection 10 50 40 90 ltac:(lia) ltac:(lia)). reflexivity.
Defined.

End OverlapFacts.

Module JplaceMoreFacts.
Import Py Jplace JplaceMore.

Lemma position_from_ge q fs x : (x <= position_from q fs x)%nat.
Proof.
  revert x. induction fs as [| f t IH]; intros x; simpl; [lia |].
  destruct (String.eqb f q); [lia |]. specialize (IH (S x)). lia.
Qed.

Lemma position_from_spec q fs : forall x k,
  position_from q fs x = (x + k)%nat <->
  ((k < List.length fs)%nat /\ nth_error fs k = Some q /\
   forall y, (y < k)%nat -> nth_error fs y <> Some q) \/
  (k = List.length fs /\ ~ In q fs).
Proof.
  induction fs as [| f t IH]; intros x k; simpl.
  - split.
    + intros H. right. split; [lia | tauto].
    + intros [[H _] | [H _]]; lia.
  - destruct (String.eqb_spec f q) as [-> | Hfq].
    + split.
      * intros H. left. assert (k = 0%nat) as -> by lia. split; [lia |]. split; [reflexivity | intros; lia].
      * intros [[_ [H1 H2]] | [_ H]]; [| exfalso; apply H; left; reflexivity].
        destruct k as [| k]; [lia |]. exfalso. apply (H2 0%nat); [lia | reflexivity].
    + destruct k as [| k].
      * split; [intros H; pose proof (position_from_ge q t (S x)); lia |].
        intros [[_ [H _]] | [H _]]; [simpl in H; congruence | lia].
      * replace (x + S k)%nat with (S x + k)%nat by lia. rewrite IH. split.
        -- intros [[H1 [H2 H3]] | [H1 H2]].
           ++ left. split; [lia |]. split; [exact H2 |].
              intros [| y] Hy; simpl; [congruence | apply H3; lia].
           ++ right. split; [lia |]. intros [H | H]; [congruence | contradiction].
        -- intros [[H1 [H2 H3]] | [H1 H2]].
           ++ left. split; [lia |]. split; [exact H2 |]. intros y Hy. apply (H3 (S y)). lia.
           ++ right. split; [lia |]. intros H. apply H2. right. exact H.
Qed.

Lemma first_index_unique {A} (l : list A) (a : A) x y :
  nth_error l x = Some a -> (forall z, (z < x)%nat -> nth_error l z <> Some a) ->
  nth_error l y = Some a -> (forall z, (z < y)%nat -> nth_error l z <> Some a) ->
  x = y.
Proof.
  intros Hx Hx' Hy Hy'. destruct (Nat.lt_total x y) as [H | [H | H]]; auto.
  - exfalso. exact (Hy' x H Hx).
  - exfalso. exact (Hx' y H Hy).
Qed.

Lemma position_first q fs x :
  (let p := position_from q fs 0 in if Nat.eqb p (List.length fs) then None else Some p) = Some x <->
  nth_error fs x = Some q /\ forall y, (y < x)%nat -> nth_error fs y <> Some q.
Proof.
  cbv zeta. pose proof (proj1 (position_from_spec q fs 0 _) eq_refl) as Hp.
  destruct (Nat.eqb_spec (position_from q fs 0) (List.length fs)) as [E | E].
  - split; [discriminate |]. intros [H1 _]. destruct Hp as [[H _] | [_ H]]; [lia |].
    exfalso. apply H. eapply nth_error_In. exact H1.
  - destruct Hp as [[H1 [H2 H3]] | [H _]]; [| contradiction]. split.
    + intros Hs. injection Hs as <-. auto.
    + intros [H4 H5]. f_equal. exact (first_index_unique _ _ _ _ H2 H3 H4 H5).
Qed.

(** [get_field_position_from_jplace_fields] returns the index of the first
    field equal to the quoted name, and [None] exactly when no field is. *)
Theorem get_field_position_first_match (o : ItolJplace) (field_name : string) :
  (forall x, get_field_position_from_jplace_fields o field_name = Some x <->
     nth_error (fields o) x = Some (dq ++ field_name ++ dq) /\
     forall y, (y < x)%nat -> nth_error (fields o) y <> Some (dq ++ field_name ++ dq)) /\
  (get_field_position_from_jplace_fields o field_name = None <->
     ~ In (dq ++ field_name ++ dq) (fields o)).
Proof.
  split.
  - intros x. apply position_first.
  - unfold get_field_position_from_jplace_fields. cbv zeta.
    pose proof (proj1 (position_from_spec (dq ++ field_name ++ dq) (fields o) 0 _) eq_refl) as Hp.
    destruct (Nat.eqb_spec (position_from (dq ++ field_name ++ dq) (fields o) 0) (List.length (fields o)))
      as [E | E].
    + split; [intros _ | reflexivity]. destruct Hp as [[H _] | [_ H]]; [lia | exact H].
    + split; [discriminate |]. intros Hn. destruct Hp as [[_ [H _]] | [H _]]; [| contradiction].
      exfalso. apply Hn. eapply nth_error_In. exact H.
Qed.

Lemma esc_char_no_newline c :
  Forall (fun ch => nat_of_ascii ch <> 10%nat) (list_ascii_of_string (esc_char c)).
Proof.
  assert (H : forallb (fun ch => negb (Nat.eqb (nat_of_ascii ch) 10))
                      (list_ascii_of_string (esc_char c)) = true)
    by (destruct c as [[] [] [] [] [] [] [] []]; reflexivity).
  rewrite forallb_forall in H. apply Forall_forall. intros ch Hch.
  specialize (H ch Hch). apply negb_true_iff, Nat.eqb_neq in H. exact H.
Qed.

Lemma quote_before_newline_app a b :
  Forall (fun ch => nat_of_ascii ch <> 10%nat) (list_ascii_of_string a) ->
  quote_before_newline b = true -> quote_before_newline (a ++ b) = true.
Proof.
  induction a as [| c a IH]; intros Ha Hb; simpl; [exact Hb |].
  inversion Ha as [| ? ? Hc Ht]; subst.
  destruct (Nat.eqb (nat_of_ascii c) 34); [reflexivity |].
  apply Nat.eqb_neq in Hc. rewrite Hc. apply IH; assumption.
Qed.

Lemma esc_no_newline s :
  Forall (fun ch => nat_of_ascii ch <> 10%nat) (list_ascii_of_string (esc s)).
Proof.
  induction s as [| c s IH]; simpl; [constructor |].
  rewrite HmmerTblFacts.list_ascii_of_string_app. apply Forall_app. split; [apply esc_char_no_newline | exact IH].
Qed.

Lemma dumps_matches s : re_match_quoted (dumps s) = true.
Proof.
  unfold dumps, dq. simpl. apply quote_before_newline_app; [apply esc_no_newline | reflexivity].
Qed.

(** Every field [correct_decoding] leaves matches ['".*"'], so a second
    call leaves the fields as the first one did. *)
Theorem correct_decoding_idempotent (o : ItolJplace) :
  Forall (fun f => re_match_quoted f = true) (fields (correct_decoding o)) /\
  fields (correct_decoding (correct_decoding o)) = fields (correct_decoding o).
Proof.
  assert (H : Forall (fun f => re_match_quoted f = true) (fields (correct_decoding o))).
  { simpl. unfold decode_fields. apply Forall_forall. intros f Hf.
    apply in_map_iff in Hf as [g [<- _]].
    destruct (re_match_quoted g) eqn:E; [exact E | apply dumps_matches]. }
  split; [exact H |]. simpl in *. unfold decode_fields at 1.
  rewrite <- (map_id (decode_fields (fields o))) at 2. apply map_ext_in.
  intros f Hf. rewrite Forall_forall in H. rewrite (H f Hf). reflexivity.
Qed.

Lemma plain_check s :
  forallb (fun c => Nat.leb 32 (nat_of_ascii c) && Nat.ltb (nat_of_ascii c) 127 &&
                    negb (Nat.eqb (nat_of_ascii c) 34) && negb (Nat.eqb (nat_of_ascii c) 92))
          (list_ascii_of_string s) = true ->
  Forall plain_char (list_ascii_of_string s).
Proof.
  intros H. rewrite forallb_forall in H. apply Forall_forall. intros c Hc.
  specialize (H c Hc). apply andb_true_iff in H as [H H4]. apply andb_true_iff in H as [H H3].
  apply andb_true_iff in H as [H1 H2]. apply negb_true_iff, Nat.eqb_neq in H3, H4.
  apply Nat.leb_le in H1. apply Nat.ltb_lt in H2. unfold plain_char. lia.
Qed.

Lemma esc_char_plain c : plain_char c -> esc_char c = String c EmptyString.
Proof.
  intros [H1 [H2 H3]]. unfold esc_char.
  repeat match goal with
         | |- context [Nat.eqb ?a ?b] => destruct (Nat.eqb_spec a b); [lia |]
         end.
  replace (Nat.ltb (nat_of_ascii c) 32 || Nat.leb 127 (nat_of_ascii c)) with false; [reflexivity |].
  symmetry. apply orb_false_iff. split; [apply Nat.ltb_ge | apply Nat.leb_gt]; lia.
Qed.

Lemma esc_plain s :
  Forall plain_char (list_ascii_of_string s) -> esc s = s.
Proof.
  induction s as [| c s IH]; intros H; simpl; [reflexivity |].
  inversion H; subst. rewrite esc_char_plain by assumption. simpl. rewrite IH by assumption. reflexivity.
Qed.

Lemma esc_char_shape c :
  (exists t, esc_char c = String backslash t) \/ esc_char c = String c EmptyString.
Proof.
  destruct c as [[] [] [] [] [] [] [] []];
    first [left; eexists; reflexivity | right; reflexivity].
Qed.

Lemma esc_inv f s :
  Forall plain_char (list_ascii_of_string s) -> esc f = s -> f = s.
Proof.
  revert s. induction f as [| c f IH]; intros s Hs Hf; simpl in Hf; [exact Hf |].
  destruct (esc_char_shape c) as [[t Ht] | Ht]; rewrite Ht in Hf; simpl in Hf.
  - subst s. simpl in Hs. inversion Hs as [| ? ? [_ [_ Hb]] _]. exfalso. apply Hb. reflexivity.
  - subst s. simpl in Hs. inversion Hs; subst. f_equal. apply IH; [assumption | reflexivity].
Qed.

Lemma string_app_inv_l (a b c : string) : a ++ b = a ++ c -> b = c.
Proof. induction a as [| x a IH]; simpl; [auto | intros H; injection H; auto]. Qed.

Lemma string_app_inv_r (a b c : string) : a ++ c = b ++ c -> a = b.
Proof.
  intros H. apply (f_equal list_ascii_of_string) in H.
  rewrite !HmmerTblFacts.list_ascii_of_string_app in H. apply app_inv_tail in H.
  rewrite <- (string_of_list_ascii_of_string a), <- (string_of_list_ascii_of_string b), H.
  reflexivity.
Qed.

Lemma plain_no_quote s : Forall plain_char (list_ascii_of_string s) ->
  quote_before_newline (s ++ dq) = true.
Proof.
  induction s as [| c s IH]; intros H; simpl; [reflexivity |].
  inversion H as [| ? ? [H1 [H2 H3]] Ht]; subst.
  destruct (Nat.eqb_spec (nat_of_ascii c) 34); [lia |].
  destruct (Nat.eqb_spec (nat_of_ascii c) 10); [lia |]. apply IH. exact Ht.
Qed.

Lemma plain_not_matched s : Forall plain_char (list_ascii_of_string s) -> re_match_quoted s = false.
Proof.
  destruct s as [| c s]; intros H; [reflexivity |]. simpl.
  inversion H as [| ? ? [_ [H2 _]] _]; subst. apply Nat.eqb_neq in H2. rewrite H2. reflexivity.
Qed.

Lemma decoded_is_quoted f nm :
  Forall plain_char (list_ascii_of_string nm) ->
  (if re_match_quoted f then f else dumps f) = dq ++ nm ++ dq <-> f = nm \/ f = dq ++ nm ++ dq.
Proof.
  intros Hnm. split.
  - destruct (re_match_quoted f); intros H; [right; exact H |].
    left. unfold dumps in H. apply string_app_inv_l, string_app_inv_r in H.
    exact (esc_inv f nm Hnm H).
  - intros [-> | ->].
    + rewrite plain_not_matched by exact Hnm. unfold dumps. rewrite esc_plain by exact Hnm. reflexivity.
    + replace (re_match_quoted (dq ++ nm ++ dq)) with true; [reflexivity |].
      symmetry. unfold dq. simpl. apply plain_no_quote. exact Hnm.
Qed.

(** After [correct_decoding], the position of a field name written with
    plain characters is the index of the first field that was the name,
    quoted or not: an unquoted field is quoted, a quoted one is kept. *)
Theorem correct_decoding_finds_field (o : ItolJplace) (field_name : string) (x : nat) :
  Forall plain_char (list_ascii_of_string field_name) ->
  get_field_position_from_jplace_fields (correct_decoding o) field_name = Some x <->
  (exists f, nth_error (fields o) x = Some f /\ (f = field_name \/ f = dq ++ field_name ++ dq)) /\
  forall y f, (y < x)%nat -> nth_error (fields o) y = Some f ->
    f <> field_name /\ f <> dq ++ field_name ++ dq.
Proof.
  intros Hnm. rewrite (proj1 (get_field_position_first_match _ _)). simpl. unfold decode_fields.
  split.
  - intros [H1 H2]. rewrite nth_error_map in H1.
    destruct (nth_error (fields o) x) as [f |] eqn:E; [| discriminate]. simpl in H1.
    injection H1 as H1. split; [exists f; split; [reflexivity | apply decoded_is_quoted; assumption] |].
    intros y g Hy Hg. specialize (H2 y Hy). rewrite nth_error_map, Hg in H2. simpl in H2.
    assert (Hn : ~ (g = field_name \/ g = dq ++ field_name ++ dq)).
    { rewrite <- decoded_is_quoted by exact Hnm. intros Heq. apply H2. rewrite Heq. reflexivity. }
    tauto.
  - intros [[f [Hf Hq]] H2]. rewrite nth_error_map, Hf. simpl. split.
    + f_equal. apply decoded_is_quoted; assumption.
    + intros y Hy. rewrite nth_error_map.
      destruct (nth_error (fields o) y) as [g |] eqn:Eg; simpl; [| discriminate].
      intros Heq. injection Heq as Heq. apply decoded_is_quoted in Heq; [| exact Hnm].
      destruct (H2 y g Hy Eg). tauto.
Qed.

Lemma correct_decoding_finds_field_witness :
  Forall plain_char (list_ascii_of_string "like_weight_ratio") /\
  get_field_position_from_jplace_fields
    (correct_decoding (mkItolJplace "mcrA" ["edge_num"; "likelihood"; "like_weight_ratio"] [] [] true))
    "like_weight_ratio" = Some 2%nat.
Proof.
  assert (H : Forall plain_char (list_ascii_of_string "like_weight_ratio")).
  { apply plain_check. reflexivity. }
  split; [exact H |].
  apply (correct_decoding_finds_field _ _ 2 H). split.
  - exists "like_weight_ratio". split; [reflexivity | left; reflexivity].
  - intros [| [| y]] f Hy Hf; simpl in Hf; [injection Hf as <- | injection Hf as <- | lia];
      split; discriminate.
Defined.

Lemma legacy_correct_decoding_fields o b o' :
  legacy_correct_decoding o b = Some o' -> fields o' = map dumps (fields o).
Proof.
  unfold legacy_correct_decoding.
  destruct b, (placements o); try discriminate; intros H; injection H as <-; reflexivity.
Qed.

Lemma legacy_requote_lwr_position o :
  (forall x, legacy_lwr_position (set_fields o (map dumps (fields o))) = Some x <->
     nth_error (fields o) x = Some "like_weight_ratio" /\
     forall y, (y < x)%nat -> nth_error (fields o) y <> Some "like_weight_ratio") /\
  legacy_lwr_position (set_fields o (map dumps (map dumps (fields o)))) = None.
Proof.
  assert (Hnm : Forall plain_char (list_ascii_of_string "like_weight_ratio")).
  { apply plain_check. reflexivity. }
  assert (Hd : forall f, dumps f = dq ++ "like_weight_ratio" ++ dq <-> f = "like_weight_ratio").
  { intros f. split.
    - intros H. unfold dumps in H. apply string_app_inv_l, string_app_inv_r in H.
      exact (esc_inv f _ Hnm H).
    - intros ->. unfold dumps. rewrite esc_plain by exact Hnm. reflexivity. }
  split.
  - intros x. unfold legacy_lwr_position. rewrite position_first. cbn [fields set_fields].
    rewrite nth_error_map. split.
    + intros [H1 H2]. destruct (nth_error (fields o) x) as [f |] eqn:E; [| discriminate].
      cbn [option_map] in H1.
      assert (H1' : dumps f = dq ++ "like_weight_ratio" ++ dq) by congruence.
      apply Hd in H1'. subst f. split; [reflexivity |].
      intros y Hy Hfy. apply (H2 y Hy). rewrite nth_error_map, Hfy. cbn [option_map].
      f_equal.
    + intros [H1 H2]. rewrite H1. cbn [option_map]. split; [f_equal; apply Hd; reflexivity |].
      intros y Hy. rewrite nth_error_map.
      destruct (nth_error (fields o) y) as [g |] eqn:Eg; cbn [option_map]; [| discriminate].
      intros Heq. assert (Heq' : dumps g = dq ++ "like_weight_ratio" ++ dq) by congruence.
      apply Hd in Heq'. subst g. exact (H2 y Hy Eg).
  - unfold legacy_lwr_position. cbv zeta.
    pose proof (proj1 (position_from_spec (dq ++ "like_weight_ratio" ++ dq)
                 (fields (set_fields o (map dumps (map dumps (fields o))))) 0 _) eq_refl) as Hp.
    destruct (Nat.eqb_spec (position_from (dq ++ "like_weight_ratio" ++ dq)
               (fields (set_fields o (map dumps (map dumps (fields o))))) 0)
               (List.length (fields (set_fields o (map dumps (map dumps (fields o)))))))
      as [E | E]; [reflexivity |].
    exfalso. destruct Hp as [[_ [H _]] | [H _]]; [| contradiction].
    cbn [fields set_fields] in H. rewrite map_map, nth_error_map in H.
    destruct (nth_error (fields o) _) as [f |]; cbn [option_map] in H; [| discriminate].
    assert (H' : dumps (dumps f) = dq ++ "like_weight_ratio" ++ dq) by congruence.
    apply Hd in H'. unfold dumps, dq in H'. discriminate.
Qed.

(** The legacy [correct_decoding] of treesapp.py quotes every field, also
    one that is quoted already.  A first call, on the decoded placements
    read from the jplace file, succeeds, and its
    [filter_min_weight_threshold] then finds ['"like_weight_ratio"'] at
    the first field that was the bare name [like_weight_ratio].  A second
    call raises [AttributeError] exactly when there are placements (they
    are strings by then); with none it succeeds, and the filter then finds
    the field nowhere. *)
Theorem legacy_correct_decoding_requotes (o : ItolJplace) :
  (forall o1, legacy_correct_decoding o1 true = None <-> placements o1 <> []) /\
  match legacy_correct_decoding o false with
  | None => False
  | Some o1 =>
    List.length (placements o1) = List.length (placements o) /\
    (forall x, legacy_lwr_position o1 = Some x <->
       nth_error (fields o) x = Some "like_weight_ratio" /\
       forall y, (y < x)%nat -> nth_error (fields o) y <> Some "like_weight_ratio") /\
    match legacy_correct_decoding o1 true with
    | None => placements o1 <> []
    | Some o2 => placements o1 = [] /\ legacy_lwr_position o2 = None
    end
  end.
Proof.
  assert (Hlen : forall ps p, List.length (legacy_encode_placements ps p) = List.length ps).
  { induction ps as [| d ps IH]; intros p; [reflexivity |]. simpl. rewrite IH. reflexivity. }
  split.
  - intros o1. unfold legacy_correct_decoding. destruct (placements o1).
    + split; [discriminate | intros H; exfalso; apply H; reflexivity].
    + split; [intros _; discriminate | reflexivity].
  - destruct (legacy_requote_lwr_position o) as [P1 _].
    assert (P2 := proj2 (legacy_requote_lwr_position
                          (set_placements o (legacy_encode_placements (placements o) [])))).
    cbn [fields set_placements] in P2.
    unfold legacy_correct_decoding at 2. cbn [placements].
    split; [cbn [placements set_fields set_placements]; apply Hlen |].
    split.
    + intros x. rewrite <- P1. reflexivity.
    + unfold legacy_correct_decoding. cbn [placements set_fields set_placements].
      destruct (legacy_encode_placements (placements o) []) as [| d ps] eqn:E.
      * split; [reflexivity |]. cbn [legacy_encode_placements fields set_fields set_placements].
        exact P2.
      * discriminate.
Qed.

Lemma lookup_put k k' v d : lookup k (put k' v d) = if String.eqb k k' then Some v else lookup k d.
Proof.
  induction d as [| [k'' v''] d IH]; simpl.
  - destruct (String.eqb k k'); reflexivity.
  - destruct (String.eqb_spec k' k'') as [-> | Hne]; simpl.
    + destruct (String.eqb k k''); reflexivity.
    + destruct (String.eqb_spec k k'') as [-> | Hne2]; rewrite ?IH.
      * destruct (String.eqb_spec k'' k'); [congruence | reflexivity].
      * reflexivity.
Qed.

Lemma lookup_app k a b :
  lookup k (app a b) = match lookup k a with Some v => Some v | None => lookup k b end.
Proof.
  induction a as [| [k' v'] a IH]; simpl; [reflexivity |].
  destruct (String.eqb k k'); [reflexivity | exact IH].
Qed.

Lemma rename_items_lookup seq_name k d_place : forall acc,
  lookup k (rename_items seq_name acc d_place) =
  match lookup k (rev d_place) with
  | Some v => Some (renamed_value seq_name k v)
  | None => lookup k acc
  end.
Proof.
  unfold rename_items. induction d_place as [| [k' v'] t IH]; intros acc; simpl; [reflexivity |].
  rewrite IH, lookup_app. simpl. destruct (lookup k (rev t)); [reflexivity |].
  destruct (String.eqb_spec k' "n") as [-> | Hn]; rewrite lookup_put.
  - unfold renamed_value. destruct (String.eqb k "n"); reflexivity.
  - unfold renamed_value. destruct (String.eqb_spec k k') as [-> | Hk]; simpl.
    + destruct (String.eqb_spec k' "n"); [contradiction | reflexivity].
    + reflexivity.
Qed.

Lemma rename_fold_lookup seq_name k ps : forall acc,
  lookup k (fold_left (rename_items seq_name) ps acc) =
  match lookup k (rev (List.concat ps)) with
  | Some v => Some (renamed_value seq_name k v)
  | None => lookup k acc
  end.
Proof.
  induction ps as [| d ps IH]; intros acc; simpl; [reflexivity |].
  rewrite IH, rev_app_distr, lookup_app, rename_items_lookup.
  destruct (lookup k (rev (List.concat ps))); reflexivity.
Qed.

(** [rename_placed_sequence] merges all placements into one dictionary:
    each key takes its value from the last placement that has it, and
    ["n"], when some placement has it, becomes [[seq_name]]. *)
Theorem rename_placed_sequence_merges (o : ItolJplace) (seq_name : string) :
  exists d, placements (rename_placed_sequence o seq_name) = [d] /\
    forall k, lookup k d =
      match lookup k (rev (List.concat (placements o))) with
      | Some v => Some (if String.eqb k "n" then Names [seq_name] else v)
      | None => None
      end.
Proof.
  eexists. split; [reflexivity |]. intros k. rewrite rename_fold_lookup. reflexivity.
Qed.

Lemma In_put k v k' v' d : In (k, v) (put k' v' d) -> (k = k' /\ v = v') \/ In (k, v) d.
Proof.
  induction d as [| [k'' v''] d IH]; simpl.
  - intros [H | []]. injection H as -> ->. auto.
  - destruct (String.eqb k' k''); simpl.
    + intros [H | H]; [injection H as -> ->; auto | auto].
    + intros [H | H]; [auto |]. destruct (IH H) as [H' | H']; auto.
Qed.

Lemma rename_fold_n seq_name ps : forall acc,
  (forall v, In ("n", v) acc -> v = Names [seq_name]) ->
  forall v, In ("n", v) (fold_left (rename_items seq_name) ps acc) -> v = Names [seq_name].
Proof.
  induction ps as [| d ps IH]; intros acc Hacc; simpl; [exact Hacc |].
  apply IH. unfold rename_items. revert acc Hacc.
  induction d as [| [k' v'] t IHt]; intros acc Hacc; simpl; [exact Hacc |].
  apply IHt. intros v Hv. simpl in Hv.
  destruct (String.eqb_spec k' "n") as [-> | Hn]; apply In_put in Hv as [[Hk Hv'] | H]; auto.
  congruence.
Qed.

Lemma name_items_spec seq_name items : forall c,
  (forall v, In ("n", v) items -> v = Names [seq_name]) ->
  fold_left (fun c kv =>
      match c with
      | None => None
      | Some c' => if String.eqb (fst kv) "n" then first_elem (snd kv) else Some c'
      end) items (Some c)
  = Some (if existsb (fun kv => String.eqb (fst kv) "n") items then JStr seq_name else c).
Proof.
  induction items as [| [k v] t IH]; intros c Hn; simpl; [reflexivity |].
  destruct (String.eqb_spec k "n") as [-> | Hk]; simpl.
  - rewrite (Hn v (or_introl eq_refl)). simpl.
    rewrite IH by (intros v' H'; apply Hn; right; exact H').
    destruct (existsb _ t); reflexivity.
  - apply IH. intros v' H'. apply Hn. right. exact H'.
Qed.

(** [name_placed_sequence] after [rename_placed_sequence(seq_name)] sets
    [contig_name] to [seq_name], when some placement has an ["n"] entry. *)
Theorem rename_then_name_placed_sequence (o : ItolJplace) (seq_name : string) (contig_name : jelem) :
  (exists d v, In d (placements o) /\ In ("n", v) d) ->
  name_placed_sequence (placements (rename_placed_sequence o seq_name)) contig_name
  = Some (JStr seq_name).
Proof.
  intros [d [v [Hd Hv]]]. unfold name_placed_sequence. simpl.
  rewrite (name_items_spec seq_name).
  2: { apply rename_fold_n. intros ? []. }
  replace (existsb _ _) with true; [reflexivity |]. symmetry.
  assert (Hl : lookup "n" (fold_left (rename_items seq_name) (placements o) []) <> None).
  { rewrite rename_fold_lookup.
    assert (Hin : In ("n", v) (rev (List.concat (placements o)))).
    { apply -> in_rev. apply in_concat. exists d. auto. }
    destruct (lookup "n" (rev (List.concat (placements o)))) eqn:E; [discriminate |].
    exfalso. revert E Hin. generalize (rev (List.concat (placements o))).
    induction l as [| [k' v'] l IHl]; cbn [lookup In]; [tauto |].
    destruct (String.eqb_spec "n" k') as [-> | Hk]; [intros E; discriminate |].
    intros E [H | H]; [apply Hk; congruence | exact (IHl E H)]. }
  revert Hl. generalize (fold_left (rename_items seq_name) (placements o) []).
  induction p as [| [k' v'] p IHp]; cbn [lookup existsb fst]; [tauto |].
  destruct (String.eqb_spec "n" k') as [<- | Hk]; [reflexivity |].
  destruct (String.eqb_spec k' "n"); [congruence |]. exact IHp.
Qed.

Lemma rename_then_name_placed_sequence_witness :
  (exists d v, In d [[("p", Loci [[1; 1#2]]); ("n", Names ["q1"])]] /\ In ("n", v) d) /\
  name_placed_sequence
    (placements (rename_placed_sequence
                   (mkItolJplace "mcrA" [] [] [[("p", Loci [[1; 1#2]]); ("n", Names ["q1"])]] true)
                   "contig_7"))
    (JStr "") = Some (JStr "contig_7").
Proof.
  assert (H : exists d v, In d [[("p", Loci [[1; 1#2]]); ("n", Names ["q1"])]] /\ In ("n", v) d).
  { eexists. eexists. split; [left; reflexivity | right; left; reflexivity]. }
  split; [exact H |]. exact (rename_then_name_placed_sequence
    (mkItolJplace "mcrA" [] [] [[("p", Loci [[1; 1#2]]); ("n", Names ["q1"])]] true) _ _ H).
Defined.

Lemma element_loop_last x v : forall e,
  v <> [] -> (forall locus, In locus v -> (x < List.length locus)%nat) ->
  element_loop (field_at (Some x)) v e = Some (Some (ENum (nth x (last v []) 0))).
Proof.
  induction v as [| l v IH]; intros e Hne Hlen; [contradiction |].
  simpl. destruct (nth_error l x) as [r |] eqn:E.
  2: { apply nth_error_None in E. specialize (Hlen l (or_introl eq_refl)). lia. }
  simpl. destruct v as [| l' v'].
  - simpl. rewrite (nth_error_nth _ _ 0 E). reflexivity.
  - rewrite IH; [reflexivity | discriminate | intros; apply Hlen; right; assumption].
Qed.

Lemma element_fold_no_p (position : option nat) items : forall r,
  ~ In "p" (map fst items) ->
  fold_left (fun ev kv =>
      match ev with
      | None => None
      | Some ev' =>
        if String.eqb (fst kv) "p" then
          match snd kv with
          | Loci v => element_loop (field_at position) v ev'
          | Names v => element_loop (char_at position) v ev'
          end
        else Some ev'
      end) items (Some r) = Some r.
Proof.
  induction items as [| [k v] t IH]; intros r Hp; simpl; [reflexivity |].
  destruct (String.eqb_spec k "p") as [-> | Hk]; [exfalso; apply Hp; left; reflexivity |].
  apply IH. intros H. apply Hp. right. exact H.
Qed.

(** [get_jplace_element] reads the field of the last locus of the first
    placement's ["p"] entry (not of the best locus, nor of any later
    placement); with no placement it raises. *)
Theorem get_jplace_element_last_locus (o : ItolJplace) (element_name : string)
    (placement : pquery) (rest : list pquery) (v : list (list Q)) (x : nat) :
  placements o = placement :: rest ->
  NoDup (map fst placement) ->
  lookup "p" placement = Some (Loci v) ->
  v <> [] ->
  get_field_position_from_jplace_fields o element_name = Some x ->
  (forall locus, In locus v -> (x < List.length locus)%nat) ->
  get_jplace_element o element_name = Some (Some (ENum (nth x (last v []) 0))) /\
  get_jplace_element (set_placements o []) element_name = None.
Proof.
  intros Hps Hnd Hp Hne Hx Hlen. split; [| reflexivity].
  unfold get_jplace_element. rewrite Hps, Hx. generalize (@None element) as e.
  clear Hps. induction placement as [| [k val] t IH]; intros e; [discriminate |].
  cbn [lookup fold_left fst snd map] in Hp, Hnd |- *. inversion Hnd as [| ? ? Hk Hnd']; subst.
  destruct (String.eqb_spec "p" k) as [<- | Hk'].
  - injection Hp as ->. rewrite String.eqb_refl.
    rewrite element_loop_last by assumption. apply element_fold_no_p. exact Hk.
  - destruct (String.eqb_spec k "p"); [congruence |]. apply IH; assumption.
Qed.

Lemma get_jplace_element_last_locus_witness :
  get_jplace_element
    (mkItolJplace "mcrA" [dq ++ "edge_num" ++ dq; dq ++ "like_weight_ratio" ++ dq] []
                  [[("p", Loci [[3; 9#10]; [5; 1#10]]); ("n", Names ["q1"])]] true)
    "like_weight_ratio" = Some (Some (ENum (1#10))).
Proof.
  rewrite (proj1 (get_jplace_element_last_locus
    (mkItolJplace "mcrA" [dq ++ "edge_num" ++ dq; dq ++ "like_weight_ratio" ++ dq] []
                  [[("p", Loci [[3; 9#10]; [5; 1#10]]); ("n", Names ["q1"])]] true)
    "like_weight_ratio" [("p", Loci [[3; 9#10]; [5; 1#10]]); ("n", Names ["q1"])] []
    [[3; 9#10]; [5; 1#10]] 1 eq_refl ltac:(repeat constructor; simpl; intuition discriminate)
    eq_refl ltac:(discriminate) eq_refl
    ltac:(intros l [<- | [<- | []]]; simpl; lia))).
  reflexivity.
Defined.

End JplaceMoreFacts.

Module RefMoreFacts.
Import Py PyStr RefData RefMore.

(** ** reverse_complement *)

Lemma comp_of_dna c x : In x (comp_of c) -> dna_char x = true.
Proof.
  unfold comp_of. rewrite !in_app_iff.
  intros [H | [H | [H | [H | H]]]];
    match type of H with
    | In _ (if ?b then _ else _) => destruct b eqn:E
    end; simpl in H; try contradiction; destruct H as [<- | []]; try reflexivity.
  apply orb_true_iff in E. destruct E as [E | E]; apply Ascii.eqb_eq in E; subst; reflexivity.
Qed.

Lemma dna_char_cases c : dna_char c = true ->
  c = "A"%char \/ c = "C"%char \/ c = "G"%char \/ c = "T"%char \/ c = "."%char \/ c = "-"%char.
Proof.
  unfold dna_char. cbn [existsb]. rewrite !orb_true_iff.
  intros [H | [H | [H | [H | [H | [H | H]]]]]]; try discriminate;
    apply Ascii.eqb_eq in H; subst; auto 6.
Qed.

Lemma comp_of_pair c : dna_char c = true ->
  exists d, comp_of c = [d] /\ dna_char d = true /\ comp_of d = [c].
Proof.
  intros H. apply dna_char_cases in H.
  destruct H as [-> | [-> | [-> | [-> | [-> | ->]]]]];
    eexists; (split; [reflexivity | split; reflexivity]).
Qed.

Lemma comp_twice cs : Forall (fun c => dna_char c = true) cs ->
  flat_map comp_of (rev (flat_map comp_of cs)) = rev cs.
Proof.
  induction 1 as [| c cs Hc Hcs IH]; [reflexivity |].
  destruct (comp_of_pair c Hc) as [d [Hd [_ Hd']]].
  cbn [flat_map]. rewrite Hd. cbn [app rev]. rewrite flat_map_app, IH. cbn [flat_map].
  rewrite Hd'. reflexivity.
Qed.

Lemma string_of_list_ascii_inj (a b : list ascii) :
  string_of_list_ascii a = string_of_list_ascii b -> a = b.
Proof.
  intros H. rewrite <- (list_ascii_of_string_of_list_ascii a), <- (list_ascii_of_string_of_list_ascii b).
  rewrite H. reflexivity.
Qed.

(** Whatever its input, [reverse_complement] writes only A, C, G, T, [.]
    and [-]; applied twice it gives back any sequence over these
    characters. *)
Theorem reverse_complement_involutive :
  (forall s, Forall (fun c => dna_char c = true) (list_ascii_of_string (reverse_complement s))) /\
  (forall s, Forall (fun c => dna_char c = true) (list_ascii_of_string s) ->
     reverse_complement (reverse_complement s) = s).
Proof.
  unfold reverse_complement. split.
  - intros s. rewrite list_ascii_of_string_of_list_ascii.
    apply Forall_rev. apply Forall_forall. intros x Hx. apply in_flat_map in Hx.
    destruct Hx as [c [_ Hx]]. exact (comp_of_dna c x Hx).
  - intros s H. rewrite list_ascii_of_string_of_list_ascii.
    rewrite comp_twice by exact H. rewrite rev_involutive.
    apply string_of_list_ascii_of_string.
Qed.

Lemma reverse_complement_involutive_witness :
  Forall (fun c => dna_char c = true) (list_ascii_of_string (reverse_complement "aUgN")) /\
  Forall (fun c => dna_char c = true) (list_ascii_of_string "ACG-T.") /\
  reverse_complement (reverse_complement "ACG-T.") = "ACG-T.".
Proof.
  assert (H : Forall (fun c => dna_char c = true) (list_ascii_of_string "ACG-T."))
    by (repeat constructor).
  split; [exact (proj1 reverse_complement_involutive "aUgN") |].
  split; [exact H | exact (proj2 reverse_complement_involutive "ACG-T." H)].
Defined.

(** ** check_lineage *)

Lemma prefix_sc_other c t : c <> ";"%char ->
  String.prefix "; " (String c t) = false.
Proof. intros H. cbn [String.prefix]. destruct (ascii_dec ";" c); [congruence | reflexivity]. Qed.

Lemma split_aux_no_sep fuel s cur :
  Forall (fun c => c <> ";"%char) (list_ascii_of_string s) ->
  (String.length s <= fuel)%nat -> split_aux fuel "; " s cur = [cur ++ s].
Proof.
  revert fuel cur. induction s as [| c t IH]; intros fuel cur Hs Hf.
  - destruct fuel; simpl; rewrite HmmerTblFacts.string_app_empty; reflexivity.
  - destruct fuel as [| f]; [simpl in Hf; lia |]. inversion Hs; subst.
    cbn [split_aux]. rewrite prefix_sc_other by assumption.
    rewrite IH by (auto; simpl in Hf; lia).
    rewrite HmmerTblFacts.string_app_assoc. reflexivity.
Qed.

Lemma split_aux_nonempty fuel sp s cur : split_aux fuel sp s cur <> [].
Proof.
  revert s cur. induction fuel as [| f IH]; intros s cur; simpl; [discriminate |].
  destruct s; [discriminate |]. destruct (String.prefix sp (String a s)); [discriminate | apply IH].
Qed.

Lemma last_cons_nonempty {A} (x : A) l d : l <> [] -> last (x :: l) d = last l d.
Proof. destruct l; [congruence | reflexivity]. Qed.

Lemma substring_all s m : (String.length s <= m)%nat -> substring 0 m s = s.
Proof.
  revert m. induction s as [| c s IH]; intros m Hm; destruct m as [| m]; simpl in *;
    try reflexivity; [lia |]. rewrite IH by lia. reflexivity.
Qed.

Lemma length_string_app (a b : string) :
  String.length (a ++ b) = (String.length a + String.length b)%nat.
Proof. induction a as [| c a IH]; simpl; [reflexivity | rewrite IH; reflexivity]. Qed.

Lemma last_split_aux_sc n : forall a b fuel cur,
  (String.length a <= n)%nat ->
  Forall (fun c => c <> ";"%char) (list_ascii_of_string b) ->
  (String.length (a ++ "; " ++ b) <= fuel)%nat ->
  last (split_aux fuel "; " (a ++ "; " ++ b) cur) "" = b.
Proof.
  induction n as [| n IH]; intros a b fuel cur Ha Hb Hf;
    rewrite length_string_app in Hf; simpl in Hf.
  - destruct a; [| simpl in Ha; lia]. destruct fuel as [| f]; [lia |].
    cbn [append split_aux].
    replace (String.prefix "; " (String ";" (String " " b))) with true
      by (destruct b; reflexivity).
    rewrite last_cons_nonempty by apply split_aux_nonempty.
    cbn [String.length substring]. rewrite substring_all by lia.
    rewrite split_aux_no_sep by (auto; lia). reflexivity.
  - destruct a as [| c a]; [apply (IH ""); auto; simpl; lia |].
    destruct fuel as [| f]; [lia |]. cbn [append split_aux].
    match goal with |- context [if String.prefix ?p ?x then _ else _] =>
      destruct (String.prefix p x) eqn:Ep end.
    + rewrite last_cons_nonempty by apply split_aux_nonempty.
      cbn [String.prefix] in Ep. destruct (ascii_dec ";" c) as [<- |]; [| discriminate].
      destruct a as [| c' a].
      * cbn [append String.prefix] in Ep. destruct (ascii_dec " " ";"); discriminate.
      * cbn [append String.prefix] in Ep. destruct (ascii_dec " " c') as [<- |]; [| discriminate].
        cbn [String.length substring append]. rewrite substring_all
          by (rewrite !length_string_app; simpl; lia).
        apply (IH a); simpl in *; auto; try lia.
        rewrite length_string_app. simpl. lia.
    + apply (IH a); simpl in *; auto; try lia.
      rewrite length_string_app. simpl. lia.
Qed.

Lemma species_epithet_chars cs b : species_epithet cs b = true ->
  Forall (fun c => c <> ";"%char) cs.
Proof.
  revert b. induction cs as [| c t IH]; intros b H; [constructor |].
  assert (Hc : c <> ";"%char).
  { intros ->. destruct t; simpl in H; [destruct b; discriminate | discriminate]. }
  constructor; [exact Hc |]. destruct t as [| d t]; [constructor |].
  change (is_lower c && species_epithet (d :: t) true = true) in H.
  apply andb_true_iff in H. exact (IH true (proj2 H)).
Qed.

Lemma species_genus_chars cs b : species_genus cs b = true ->
  Forall (fun c => c <> ";"%char) cs.
Proof.
  revert b. induction cs as [| c t IH]; intros b H; [discriminate |]. simpl in H.
  destruct (is_lower c) eqn:El.
  - constructor; [intros ->; discriminate | exact (IH true H)].
  - destruct (Ascii.eqb c " ") eqn:Es; [| discriminate].
    apply Ascii.eqb_eq in Es. subst c. apply andb_true_iff in H.
    constructor; [discriminate | exact (species_epithet_chars t false (proj2 H))].
Qed.

Lemma proper_species_chars o : proper_species o = true ->
  Forall (fun c => c <> ";"%char) (list_ascii_of_string o).
Proof.
  unfold proper_species. destruct (list_ascii_of_string o) as [| c t]; [discriminate |].
  intros H. apply andb_true_iff in H. destruct H as [Hu Hg].
  constructor; [intros ->; discriminate | exact (species_genus_chars t false Hg)].
Qed.

(** [check_lineage] is idempotent, and it either returns the lineage
    unchanged or appends ["; "] and the organism name, after which the last
    rank is a proper species name. *)
Theorem check_lineage_idempotent (lineage organism_name : string) :
  check_lineage (check_lineage lineage organism_name) organism_name =
    check_lineage lineage organism_name /\
  (check_lineage lineage organism_name = lineage \/
   (check_lineage lineage organism_name = lineage ++ "; " ++ organism_name /\
    proper_species (last (split "; " (check_lineage lineage organism_name)) "") = true)).
Proof.
  destruct (proper_species (last (split "; " lineage) "")) eqn:E1.
  - assert (H : check_lineage lineage organism_name = lineage)
      by (unfold check_lineage; rewrite E1; reflexivity).
    rewrite H. split; [exact H | left; reflexivity].
  - destruct (Nat.eqb (List.length (split "; " lineage)) 7 && proper_species organism_name) eqn:E2.
    + assert (H : check_lineage lineage organism_name = lineage ++ "; " ++ organism_name)
        by (unfold check_lineage; rewrite E1, E2; reflexivity).
      rewrite H. apply andb_true_iff in E2. destruct E2 as [_ Ho].
      assert (Hl : last (split "; " (lineage ++ "; " ++ organism_name)) "" = organism_name).
      { unfold split.
        apply (last_split_aux_sc (String.length lineage)); auto using proper_species_chars. }
      split.
      * unfold check_lineage at 1. rewrite Hl, Ho. reflexivity.
      * right. split; [reflexivity | rewrite Hl; exact Ho].
    + assert (H : check_lineage lineage organism_name = lineage)
        by (unfold check_lineage; rewrite E1, E2; reflexivity).
      rewrite H. split; [exact H | left; reflexivity].
Qed.

(** ** threshold *)

Ltac percentile_bounds_tac :=
  match goal with
  | |- context [percentile_index ?n (?a # ?b)] =>
    unfold percentile_index, round_half_even;
    change (inject_Z (Z.of_nat n) * (a # b)) with (Qmake (Z.of_nat n * a) b);
    change (Qfloor (Qmake (Z.of_nat n * a) b)) with ((Z.of_nat n * a) / Z.pos b)%Z;
    let z := fresh "z" in
    set (z := Z.of_nat n) in *;
    pose proof (Z.div_mod (z * a) (Z.pos b) ltac:(lia)) as Hdm;
    pose proof (Z.mod_pos_bound (z * a) (Z.pos b) ltac:(lia)) as Hmb;
    let f := fresh "f" in let m := fresh "m" in
    set (f := ((z * a) / Z.pos b)%Z) in *; set (m := ((z * a) mod Z.pos b)%Z) in *;
    destruct (Qlt_le_dec _ (1 # 2)) as [Hl | Hl];
    [ unfold Qlt in Hl; simpl in Hl; lia
    | destruct (Qeq_bool _ (1 # 2)) eqn:E;
      [ apply Qeq_bool_iff in E; unfold Qeq in E; simpl in E; destruct (Z.even f); lia
      | unfold Qle in Hl; simpl in Hl; lia ] ]
  end.

Lemma percentile_bounds_all n (Hn : (1 <= n)%nat) :
  (0 <= percentile_index n (51 # 100) < Z.of_nat n)%Z /\
  (0 <= percentile_index n (3 # 4) < Z.of_nat n)%Z /\
  (0 <= percentile_index n (9 # 10) < Z.of_nat n)%Z.
Proof.
  assert (Hz : (1 <= Z.of_nat n)%Z) by lia.
  split; [| split]; percentile_bounds_tac.
Qed.

Lemma filter_length_perm (p : Z -> bool) l l' : Permutation l l' ->
  List.length (filter p l) = List.length (filter p l').
Proof.
  induction 1; simpl; try reflexivity.
  - destruct (p x); simpl; lia.
  - destruct (p x), (p y); simpl; lia.
  - lia.
Qed.

Lemma sorted_nth_counts s : StronglySorted Z.ge s -> forall i v, nth_error s i = Some v ->
  (List.length (filter (fun x => Z.ltb v x) s) <= i < List.length (filter (fun x => Z.leb v x) s))%nat.
Proof.
  induction 1 as [| y t Hs IH Hall]; intros i v Hv; [destruct i; discriminate |].
  destruct i as [| i].
  - injection Hv as <-. cbn [filter]. rewrite Z.ltb_irrefl, Z.leb_refl. simpl.
    assert (H0 : forall t', Forall (Z.ge y) t' -> filter (fun x => Z.ltb y x) t' = []).
    { induction t' as [| w t' IHt]; intros Hf; [reflexivity |].
      inversion Hf as [| ? ? Hw Ht]; subst. simpl.
      replace (Z.ltb y w) with false by (symmetry; apply Z.ltb_ge; lia). auto. }
    rewrite (H0 t Hall). simpl. lia.
  - cbn [nth_error] in Hv. specialize (IH i v Hv).
    assert (Hyv : (v <= y)%Z).
    { apply nth_error_In in Hv. rewrite Forall_forall in Hall. specialize (Hall v Hv). lia. }
    cbn [filter]. replace (Z.leb v y) with true by (symmetry; apply Z.leb_le; lia).
    destruct (Z.ltb v y); simpl; lia.
Qed.

Lemma threshold_nonempty lst confidence :
  lst <> [] -> exists i,
    (0 <= i < Z.of_nat (List.length lst))%Z /\
    i = percentile_index (List.length lst)
          (if String.eqb confidence "low" then 51 # 100
           else if String.eqb confidence "medium" then 3 # 4 else 9 # 10) /\
    threshold lst confidence = nth_error (sorted_desc lst) (Z.to_nat i).
Proof.
  intros Hne. assert (Hn : (1 <= List.length lst)%nat) by (destruct lst; [congruence | simpl; lia]).
  destruct (percentile_bounds_all _ Hn) as [Hl [Hm Hh]].
  unfold threshold, py_index.
  destruct (String.eqb confidence "low"); [| destruct (String.eqb confidence "medium")];
    eexists; (split; [| split; [reflexivity |]]); try eassumption;
    rewrite (proj2 (Z.leb_le _ _)) by lia; reflexivity.
Qed.

(** [threshold] raises [IndexError] (here [None]) exactly on the empty
    list, whatever the confidence. *)
Theorem threshold_none_iff_empty (lst : list Z) (confidence : string) :
  threshold lst confidence = None <-> lst = [].
Proof.
  split.
  - intros H. destruct lst as [| x l]; [reflexivity | exfalso].
    destruct (threshold_nonempty (x :: l) confidence ltac:(discriminate)) as [i [Hi [_ Hth]]].
    rewrite Hth in H. apply nth_error_None in H.
    rewrite <- (Permutation_length (RefDataFacts.sorted_desc_perm (x :: l))) in H. lia.
  - intros ->. unfold threshold, py_index. cbn [sorted_desc fold_right List.length].
    destruct (String.eqb confidence "low"); [| destruct (String.eqb confidence "medium")];
      match goal with |- (if ?c then _ else _) = None => destruct c end;
      try (destruct (Z.to_nat _); reflexivity);
      match goal with |- (if ?c then _ else _) = None => destruct c end;
      try (destruct (Z.to_nat _); reflexivity); reflexivity.
Qed.

(** The value [threshold] returns is an element of the list; with [i] the
    index [round(len(lst)*f)-1] of the confidence, at most [i] elements
    are greater than it and more than [i] are at least it. *)
Theorem threshold_percentile (lst : list Z) (confidence : string) (v : Z)
    (H : threshold lst confidence = Some v) :
  let f := if String.eqb confidence "low" then 51 # 100
           else if String.eqb confidence "medium" then 3 # 4 else 9 # 10 in
  let index := percentile_index (List.length lst) f in
  In v lst /\
  (Z.of_nat (List.length (filter (fun x => Z.ltb v x) lst)) <= index <
   Z.of_nat (List.length (filter (fun x => Z.leb v x) lst)))%Z.
Proof.
  intros f index.
  assert (Hne : lst <> []) by (intros ->; rewrite (proj2 (threshold_none_iff_empty [] confidence) eq_refl) in H; discriminate).
  destruct (threshold_nonempty lst confidence Hne) as [i [Hi [Hidx Hth]]].
  fold f in Hidx. fold index in Hidx. subst i.
  rewrite Hth in H. split.
  - apply nth_error_In in H. apply Permutation_in with (sorted_desc lst); [| exact H].
    symmetry. apply RefDataFacts.sorted_desc_perm.
  - assert (Hss : StronglySorted Z.ge (sorted_desc lst)).
    { apply Sorted_StronglySorted; [intros x y z; lia | apply RefDataFacts.sorted_desc_sorted]. }
    pose proof (sorted_nth_counts _ Hss _ _ H) as Hc.
    rewrite <- !(filter_length_perm _ _ _ (RefDataFacts.sorted_desc_perm lst)) in Hc. lia.
Qed.

Lemma threshold_percentile_witness :
  threshold [1; 3; 3; 2]%Z "low" = Some 3%Z /\
  (In 3%Z [1; 3; 3; 2]%Z /\
   (Z.of_nat (List.length (filter (fun x => Z.ltb 3 x) [1; 3; 3; 2]%Z)) <=
      percentile_index 4 (51 # 100) <
    Z.of_nat (List.length (filter (fun x => Z.leb 3 x) [1; 3; 3; 2]%Z)))%Z).
Proof.
  assert (H : threshold [1; 3; 3; 2]%Z "low" = Some 3%Z) by reflexivity.
  split; [exact H | exact (threshold_percentile [1; 3; 3; 2]%Z "low" 3%Z H)].
Defined.

(** ** Lines of text: split, strip and readline *)

Lemma prefix_empty s : String.prefix "" s = true.
Proof. destruct s; reflexivity. Qed.

Lemma no_char_Forall c s : no_char c s = true ->
  Forall (fun x => x <> c) (list_ascii_of_string s).
Proof.
  unfold no_char. rewrite negb_true_iff. intros H. apply Forall_forall. intros x Hx Ex. subst x.
  assert (E : existsb (Ascii.eqb c) (list_ascii_of_string s) = true)
    by (apply existsb_exists; exists c; split; [exact Hx | apply Ascii.eqb_refl]).
  congruence.
Qed.

Lemma Forall_list_app (P : ascii -> Prop) a b :
  Forall P (list_ascii_of_string a) -> Forall P (list_ascii_of_string b) ->
  Forall P (list_ascii_of_string (a ++ b)).
Proof. intros Ha Hb. rewrite HmmerTblFacts.list_ascii_of_string_app. apply Forall_app; auto. Qed.

(** Splitting on a one-character separator across a chunk without it. *)
Lemma split_aux_char_chunk (c : ascii) a rest cur k :
  Forall (fun x => x <> c) (list_ascii_of_string a) ->
  split_aux (String.length a + k) (String c "") (a ++ rest) cur =
  split_aux k (String c "") rest (cur ++ a).
Proof.
  revert cur. induction a as [| x a IH]; intros cur Ha.
  - simpl. rewrite HmmerTblFacts.string_app_empty. reflexivity.
  - inversion Ha as [| ? ? Hx Ha']; subst. cbn [String.length Nat.add append split_aux].
    replace (String.prefix (String c "") (String x (a ++ rest))) with false
      by (cbn [String.prefix]; destruct (ascii_dec c x); congruence).
    rewrite IH by exact Ha'. rewrite HmmerTblFacts.string_app_assoc. reflexivity.
Qed.

Lemma split_aux_join_char (c : ascii) vs : forall v k cur,
  Forall (fun s => Forall (fun x => x <> c) (list_ascii_of_string s)) (v :: vs) ->
  split_aux (String.length (join (String c "") (v :: vs)) + k) (String c "")
            (join (String c "") (v :: vs)) cur = (cur ++ v) :: vs.
Proof.
  induction vs as [| v' vs IH]; intros v k cur Hall; inversion Hall as [| ? ? Hv Hvs]; subst.
  - cbn [join]. pose proof (split_aux_char_chunk c v "" cur k Hv) as E.
    rewrite HmmerTblFacts.string_app_empty in E. rewrite E.
    destruct k; reflexivity.
  - change (join (String c "") (v :: v' :: vs))
      with (v ++ String c "" ++ join (String c "") (v' :: vs)).
    set (J := join (String c "") (v' :: vs)).
    rewrite length_string_app.
    replace (String.length v + String.length (String c "" ++ J) + k)%nat
      with (String.length v + S (String.length J + k))%nat by (simpl; lia).
    rewrite split_aux_char_chunk by exact Hv. cbn [append split_aux].
    cbn [String.prefix]. destruct (ascii_dec c c) as [_ | n]; [| congruence].
    rewrite prefix_empty. cbn [String.length substring].
    rewrite substring_all by lia. f_equal. apply (IH v' k ""). exact Hvs.
Qed.

Lemma split_join_char (c : ascii) v vs :
  Forall (fun s => Forall (fun x => x <> c) (list_ascii_of_string s)) (v :: vs) ->
  split (String c "") (join (String c "") (v :: vs)) = v :: vs.
Proof.
  intros H. unfold split. rewrite <- (Nat.add_0_r (String.length _)).
  rewrite split_aux_join_char by exact H. reflexivity.
Qed.

Lemma prefix_pipe_false x t :
  (forall y t', t = String y t' -> y <> "|"%char) ->
  String.prefix " | " (String x t) = false.
Proof.
  intros H. cbn [String.prefix]. destruct (ascii_dec " " x); [| reflexivity].
  destruct t as [| y t']; [reflexivity |]. cbn [String.prefix].
  destruct (ascii_dec "|" y) as [<- |]; [| reflexivity]. exfalso. exact (H _ _ eq_refl eq_refl).
Qed.

Lemma split_aux_pipe_chunk a rest cur k :
  Forall (fun x => x <> "|"%char) (list_ascii_of_string a) ->
  (forall y t', rest = String y t' -> y <> "|"%char) ->
  split_aux (String.length a + k) " | " (a ++ rest) cur = split_aux k " | " rest (cur ++ a).
Proof.
  revert cur. induction a as [| x a IH]; intros cur Ha Hr.
  - simpl. rewrite HmmerTblFacts.string_app_empty. reflexivity.
  - inversion Ha as [| ? ? Hx Ha']; subst. cbn [String.length Nat.add append split_aux].
    rewrite prefix_pipe_false.
    + rewrite IH by assumption. rewrite HmmerTblFacts.string_app_assoc. reflexivity.
    + intros y t' E. destruct a as [| z a].
      * exact (Hr y t' E).
      * injection E as <- _. inversion Ha'. assumption.
Qed.

Lemma split_aux_prefix_step f sp c t cur :
  String.prefix sp (String c t) = true ->
  split_aux (S f) sp (String c t) cur =
  cur :: split_aux f sp (substring (String.length sp) (String.length (String c t)) (String c t)) "".
Proof. intros H. cbn [split_aux]. rewrite H. reflexivity. Qed.

Lemma split_pipe o a :
  Forall (fun x => x <> "|"%char) (list_ascii_of_string o) ->
  Forall (fun x => x <> "|"%char) (list_ascii_of_string a) ->
  split " | " (o ++ " | " ++ a) = [o; a].
Proof.
  intros Ho Ha. unfold split. rewrite length_string_app.
  rewrite split_aux_pipe_chunk by (auto; intros y t' E; injection E as <- _; discriminate).
  change (" | " ++ a) with (String " " (String "|" (String " " a))).
  cbn [String.length]. rewrite split_aux_prefix_step by (destruct a; reflexivity).
  cbn [String.length substring]. rewrite substring_all by lia.
  pose proof (split_aux_pipe_chunk a "" "" 2 Ha ltac:(discriminate)) as E.
  rewrite HmmerTblFacts.string_app_empty in E.
  replace (S (S (String.length a))) with (String.length a + 2)%nat by lia.
  rewrite E. reflexivity.
Qed.

Lemma graphic_not_space_py3 c : graphic c = true -> is_space_py3 c = false.
Proof.
  unfold graphic, is_space_py3, is_space. rewrite andb_true_iff, !Nat.leb_le.
  set (n := nat_of_ascii c). intros [H1 H2].
  repeat match goal with
         | |- context [Nat.leb ?a ?b] => destruct (Nat.leb_spec a b)
         | |- context [Nat.eqb ?a ?b] => destruct (Nat.eqb_spec a b)
         end; simpl; try reflexivity; lia.
Qed.


Lemma first_graphic_app a b : first_graphic a = true -> first_graphic (a ++ b) = true.
Proof. destruct a; [discriminate | exact (fun H => H)]. Qed.

Lemma last_graphic_app a b : last_graphic b = true -> last_graphic (a ++ b) = true.
Proof.
  unfold last_graphic. rewrite HmmerTblFacts.list_ascii_of_string_app, rev_app_distr.
  destruct (rev (list_ascii_of_string b)); [discriminate | exact (fun H => H)].
Qed.

Lemma lstrip_first (sp : ascii -> bool) s :
  (forall c, graphic c = true -> sp c = false) -> first_graphic s = true ->
  lstrip_with sp s = s.
Proof.
  intros Hsp. destruct s as [| c t]; [discriminate |]. intros H.
  cbn [lstrip_with]. rewrite (Hsp c H). reflexivity.
Qed.

Lemma rstrip_line (sp : ascii -> bool) body :
  (forall c, graphic c = true -> sp c = false) -> sp (ascii_of_nat 10) = true ->
  last_graphic body = true -> rstrip_with sp (body ++ lf) = body.
Proof.
  intros Hsp Hnl H. unfold rstrip_with. rewrite HmmerTblFacts.list_ascii_of_string_app.
  rewrite rev_app_distr. cbn [list_ascii_of_string lf rev app string_of_list_ascii lstrip_with].
  rewrite Hnl. unfold last_graphic in H.
  destruct (rev (list_ascii_of_string body)) as [| c t] eqn:E; [discriminate |].
  cbn [string_of_list_ascii lstrip_with]. rewrite (Hsp c H).
  change (String c (string_of_list_ascii t)) with (string_of_list_ascii (c :: t)).
  rewrite list_ascii_of_string_of_list_ascii, <- E, rev_involutive.
  apply string_of_list_ascii_of_string.
Qed.

Lemma strip_line (sp : ascii -> bool) body :
  (forall c, graphic c = true -> sp c = false) -> sp (ascii_of_nat 10) = true ->
  first_graphic body = true -> last_graphic body = true -> strip_with sp (body ++ lf) = body.
Proof.
  intros Hsp Hnl Hf Hl. unfold strip_with.
  rewrite lstrip_first by (auto using first_graphic_app). apply rstrip_line; assumption.
Qed.

Lemma readline_line body rest :
  Forall (fun x => x <> ascii_of_nat 10) (list_ascii_of_string body) ->
  readline (list_ascii_of_string (body ++ lf) ++ rest) =
  (list_ascii_of_string (body ++ lf), rest).
Proof.
  rewrite HmmerTblFacts.list_ascii_of_string_app.
  induction (list_ascii_of_string body) as [| c t IH]; intros H; [reflexivity |].
  inversion H as [| ? ? Hc Ht]; subst. cbn [app readline].
  destruct (Ascii.eqb_spec c (ascii_of_nat 10)); [contradiction |].
  rewrite IH by exact Ht. reflexivity.
Qed.

Lemma universal_newlines_id cs :
  Forall (fun x => x <> ascii_of_nat 13) cs -> universal_newlines cs = cs.
Proof.
  induction 1 as [| c t Hc Ht IH]; [reflexivity |]. cbn [universal_newlines].
  destruct (Ascii.eqb_spec c (ascii_of_nat 13)); [contradiction |]. rewrite IH. reflexivity.
Qed.

Lemma dict_assign_fresh {V} k (v : V) d :
  ~ In k (map fst d) -> dict_assign k v d = app d [(k, v)].
Proof.
  induction d as [| [k' v'] t IH]; intros H; [reflexivity |]. cbn [dict_assign].
  destruct (String.eqb_spec k k') as [-> |]; [exfalso; apply H; left; reflexivity |].
  rewrite IH; [reflexivity | intros H'; apply H; right; exact H'].
Qed.

Lemma string_of_list_ascii_app_l (a b : string) :
  string_of_list_ascii (list_ascii_of_string (a ++ b)) = a ++ b.
Proof. apply string_of_list_ascii_of_string. Qed.

(** ** write_tax_ids and read_tax_ids *)

Lemma tree_taxa_string_acc records acc :
  fold_left (fun acc '(k, o, a, l) => acc ++ tax_ids_line k o a l) records acc =
  acc ++ tree_taxa_string records.
Proof.
  unfold tree_taxa_string. revert acc.
  induction records as [| [[[k o] a] l] t IH]; intros acc; cbn [fold_left].
  - rewrite HmmerTblFacts.string_app_empty. reflexivity.
  - rewrite IH, (IH ("" ++ tax_ids_line k o a l)), HmmerTblFacts.string_app_assoc. reflexivity.
Qed.

Lemma tree_taxa_string_cons k o a l records :
  tree_taxa_string ((k, o, a, l) :: records) = tax_ids_line k o a l ++ tree_taxa_string records.
Proof. unfold tree_taxa_string at 1. cbn [fold_left]. apply tree_taxa_string_acc. Qed.

Lemma tax_ids_line_join k o a l :
  tax_ids_line k o a l = join tab [k; o ++ " | " ++ a; l] ++ lf.
Proof. unfold tax_ids_line. cbn [join]. rewrite !HmmerTblFacts.string_app_assoc. reflexivity. Qed.

Lemma tax_record_parts k o a l : tax_record_ok (k, o, a, l) = true ->
  Forall (fun s => noc (ascii_of_nat 9) s /\ noc (ascii_of_nat 10) s /\ noc (ascii_of_nat 13) s)
         [k; o; a; l] /\
  noc "|"%char o /\ noc "|"%char a /\ first_graphic k = true /\ last_graphic l = true.
Proof.
  unfold tax_record_ok. cbv beta iota. rewrite !andb_true_iff.
  intros [[[[Hall Ho] Ha] Hk] Hl]. unfold noc.
  split; [| split; [| split; [| split]]]; try (apply no_char_Forall; assumption); try assumption.
  apply Forall_forall. intros x Hx. rewrite forallb_forall in Hall. specialize (Hall x Hx).
  rewrite !andb_true_iff in Hall. destruct Hall as [[H1 H2] H3].
  split; [| split]; apply no_char_Forall; assumption.
Qed.

Lemma tax_ids_line_chars k o a l (c : ascii) :
  tax_record_ok (k, o, a, l) = true -> no_char c tab = true -> no_char c " | " = true ->
  no_char c lf = true -> (c = ascii_of_nat 9 \/ c = ascii_of_nat 10 \/ c = ascii_of_nat 13) ->
  Forall (fun x => x <> c) (list_ascii_of_string (tax_ids_line k o a l)).
Proof.
  intros Hok Ht Hp Hn Hc. destruct (tax_record_parts k o a l Hok) as [Hall _].
  inversion Hall as [| ? ? Hk Hall1]; inversion Hall1 as [| ? ? Ho Hall2];
    inversion Hall2 as [| ? ? Ha Hall3]; inversion Hall3 as [| ? ? Hl _]; subst.
  apply no_char_Forall in Ht, Hp, Hn.
  unfold tax_ids_line.
  destruct Hc as [-> | [-> | ->]];
    repeat apply Forall_list_app; tauto.
Qed.

Lemma line_length_pos k o a l : (1 <= String.length (tax_ids_line k o a l))%nat.
Proof. unfold tax_ids_line. rewrite !length_string_app. simpl. lia. Qed.

Lemma tree_taxa_string_length records :
  (List.length records <= String.length (tree_taxa_string records))%nat.
Proof.
  induction records as [| [[[k o] a] l] t IH]; [simpl; lia |].
  rewrite tree_taxa_string_cons, length_string_app. pose proof (line_length_pos k o a l). simpl. lia.
Qed.

Lemma tree_taxa_string_no_cr records : Forall (fun r => tax_record_ok r = true) records ->
  Forall (fun x => x <> ascii_of_nat 13) (list_ascii_of_string (tree_taxa_string records)).
Proof.
  induction 1 as [| [[[k o] a] l] t Hr Ht IH]; [constructor |].
  rewrite tree_taxa_string_cons. apply Forall_list_app; [| exact IH].
  apply tax_ids_line_chars; auto; reflexivity.
Qed.

Lemma length_list_ascii s : List.length (list_ascii_of_string s) = String.length s.
Proof. induction s as [| c s IH]; simpl; [reflexivity | rewrite IH; reflexivity]. Qed.

Lemma read_tax_ids_loop_records records : forall d fuel,
  Forall (fun r => tax_record_ok r = true) records ->
  NoDup (map record_key records) ->
  (forall r, In r records -> ~ In (record_key r) (map fst d)) ->
  (List.length records < fuel)%nat ->
  read_tax_ids_loop fuel (list_ascii_of_string (tree_taxa_string records)) d =
  Some (app d (map record_entry records)).
Proof.
  induction records as [| [[[k o] a] l] t IH]; intros d fuel Hok Hnd Hfresh Hf.
  - destruct fuel as [| f]; [simpl in Hf; lia |]. simpl. rewrite app_nil_r. reflexivity.
  - destruct fuel as [| f]; [simpl in Hf; lia |].
    inversion Hok as [| ? ? Hr Hok']; subst. inversion Hnd as [| ? ? Hk Hnd']; subst.
    destruct (tax_record_parts k o a l Hr) as [Hall [Hpo [Hpa [Hfk Hll]]]].
    inversion Hall as [| ? ? [Hk9 [Hk10 _]] Hall1]; inversion Hall1 as [| ? ? [Ho9 [Ho10 _]] Hall2];
      inversion Hall2 as [| ? ? [Ha9 [Ha10 _]] Hall3]; inversion Hall3 as [| ? ? [Hl9 [Hl10 _]] _]; subst.
    rewrite tree_taxa_string_cons, tax_ids_line_join.
    set (body := join tab [k; o ++ " | " ++ a; l]).
    assert (Hb10 : Forall (fun x => x <> ascii_of_nat 10) (list_ascii_of_string body)).
    { unfold body. cbn [join]. repeat apply Forall_list_app; auto; apply no_char_Forall; reflexivity. }
    cbn [read_tax_ids_loop]. rewrite HmmerTblFacts.list_ascii_of_string_app.
    rewrite readline_line by exact Hb10.
    destruct (list_ascii_of_string (body ++ lf)) as [| c0 cs0] eqn:Eline.
    { rewrite HmmerTblFacts.list_ascii_of_string_app in Eline. apply app_eq_nil in Eline.
      destruct Eline as [_ E]. discriminate. }
    rewrite <- Eline, string_of_list_ascii_of_string.
    rewrite strip_line; [| exact graphic_not_space_py3 | reflexivity | |].
    2: { unfold body. cbn [join]. apply first_graphic_app. exact Hfk. }
    2: { unfold body. cbn [join]. rewrite <- !HmmerTblFacts.string_app_assoc.
         apply last_graphic_app. exact Hll. }
    unfold body, tab. rewrite split_join_char.
    2: { repeat constructor; auto. repeat apply Forall_list_app; auto.
         apply no_char_Forall; reflexivity. }
    rewrite split_pipe by assumption. cbn [nth_error].
    rewrite dict_assign_fresh.
    2: { exact (Hfresh (k, o, a, l) (or_introl eq_refl)). }
    rewrite IH; [| assumption | assumption | | simpl in Hf; lia].
    + rewrite <- app_assoc. reflexivity.
    + intros r Hin. rewrite map_app, in_app_iff. intros [H | H].
      * exact (Hfresh r (or_intror Hin) H).
      * destruct H as [H | []]. simpl in H. apply Hk. rewrite H. apply in_map. exact Hin.
Qed.

(** A tax_ids file written by [write_tax_ids] reads back with
    [read_tax_ids] to the same keys, organisms, accessions and lineages,
    in the order written, provided the keys are distinct, no field holds a
    tab, a newline or a carriage return, organism and accession hold no
    [|], and the key starts and the lineage ends with a printable
    non-blank ASCII character (which [line.strip()] keeps). *)
Theorem tax_ids_round_trip (records : list (string * string * string * string))
    (Hok : Forall (fun r => tax_record_ok r = true) records)
    (Hnd : NoDup (map record_key records)) :
  read_tax_ids (tree_taxa_string records) = Some (map record_entry records).
Proof.
  unfold read_tax_ids. rewrite universal_newlines_id by (apply tree_taxa_string_no_cr; exact Hok).
  apply read_tax_ids_loop_records; auto.
  rewrite length_list_ascii. pose proof (tree_taxa_string_length records). lia.
Qed.

Lemma tax_ids_round_trip_witness :
  let records := [("1", "Methanosarcina barkeri", "WP_011305074",
                   "Root; Archaea; Euryarchaeota");
                  ("2", "Escherichia coli", "NP_414542", "Root; Bacteria")] in
  (Forall (fun r => tax_record_ok r = true) records /\ NoDup (map record_key records)) /\
  read_tax_ids (tree_taxa_string records) = Some (map record_entry records).
Proof.
  intros records.
  assert (H1 : Forall (fun r => tax_record_ok r = true) records) by (repeat constructor).
  assert (H2 : NoDup (map record_key records))
    by (constructor; [simpl; intros [H | []]; discriminate | repeat constructor; simpl; tauto]).
  split; [split; assumption | exact (tax_ids_round_trip records H1 H2)].
Defined.

(** ** update_build_parameters, MarkerBuild and get_non_wag_cogs *)






End RefMoreFacts.

Module RpkmFacts.
Import Jplace Rpkm.

Section RpkmFacts.
Variable F : Type.
Variable zero : F.
Variable add : F -> F -> F.
Variable A : Type.
Variable normalized_abundance : A -> nat -> F.

Lemma add_to_keys leaf x (sums : list (string * F)) :
  map fst (add_to F zero add leaf x sums) =
  if existsb (String.eqb leaf) (map fst sums) then map fst sums else app (map fst sums) [leaf].
Proof.
  induction sums as [| [k v] t IH]; [reflexivity |]. cbn [add_to map existsb fst].
  rewrite (String.eqb_sym leaf k). destruct (String.eqb k leaf); [reflexivity |].
  cbn [orb map fst]. rewrite IH. destruct (existsb (String.eqb leaf) (map fst t)); reflexivity.
Qed.

Lemma add_to_in leaf x (sums : list (string * F)) k :
  (NoDup (map fst sums) -> NoDup (map fst (add_to F zero add leaf x sums))) /\
  (In k (map fst (add_to F zero add leaf x sums)) <-> In k (map fst sums) \/ k = leaf).
Proof.
  rewrite add_to_keys. destruct (existsb (String.eqb leaf) (map fst sums)) eqn:E.
  - apply existsb_exists in E. destruct E as [y [Hy Ey]]. apply String.eqb_eq in Ey. subst y.
    split; [auto |]. split; [auto | intros [H | ->]; auto].
  - split.
    + intros Hnd. apply NoDup_app; [exact Hnd | repeat constructor; simpl; tauto |].
      intros y Hy [Hl | []]. subst y.
      assert (existsb (String.eqb leaf) (map fst sums) = true)
        by (apply existsb_exists; exists leaf; split; [exact Hy | apply String.eqb_refl]).
      congruence.
    + rewrite in_app_iff. simpl. split; intros [H | H]; auto; destruct H as [H | []]; auto.
Qed.

Lemma add_leaves_in x ls : forall (sums : list (string * F)) k,
  (NoDup (map fst sums) -> NoDup (map fst (add_leaves F zero add x ls sums))) /\
  (In k (map fst (add_leaves F zero add x ls sums)) <-> In k (map fst sums) \/ In k ls).
Proof.
  unfold add_leaves. induction ls as [| l ls IH]; intros sums k; cbn [fold_left].
  - split; [auto | simpl; tauto].
  - destruct (IH (add_to F zero add l x sums) k) as [IH1 IH2].
    split.
    + intros Hnd. apply IH1. apply (proj1 (add_to_in l x sums k)). exact Hnd.
    + rewrite IH2, (proj2 (add_to_in l x sums k)). simpl. intuition (subst; auto).
Qed.

Lemma loci_loop_in nm ab loci : forall (sums sums' : list (string * F)),
  loci_loop F zero add A normalized_abundance nm ab loci sums = Some sums' ->
  (NoDup (map fst sums) -> NoDup (map fst sums')) /\
  forall k, In k (map fst sums') <-> In k (map fst sums) \/
    exists locus jplace_node tree_leaves, In locus loci /\ nth_error locus 0 = Some jplace_node /\
      node_lookup nm jplace_node = Some tree_leaves /\ In k tree_leaves.
Proof.
  induction loci as [| locus rest IH]; intros sums sums' H; cbn [loci_loop] in H.
  - injection H as <-. split; [auto |]. intros k. split; [auto |].
    intros [Hk | [? [? [? [[] _]]]]]. exact Hk.
  - destruct (nth_error locus 0) as [node |] eqn:E1; [| discriminate].
    destruct (node_lookup nm node) as [leaves |] eqn:E2; [| discriminate].
    destruct ab as [a |]; [| discriminate].
    destruct leaves as [| l ls]; [discriminate |].
    destruct (IH _ _ H) as [H1 H2]. split.
    + intros Hnd. apply H1. apply (proj1 (add_leaves_in _ (l :: ls) sums "")). exact Hnd.
    + intros k. rewrite H2, (proj2 (add_leaves_in _ (l :: ls) sums k)). split.
      * intros [[Hk | Hk] | [lc [nd [lv [Hin [Hn [Hl Hk]]]]]]]; [left; exact Hk | |].
        -- right. exists locus, node, (l :: ls). simpl. auto.
        -- right. exists lc, nd, lv. simpl. auto.
      * intros [Hk | [lc [nd [lv [[<- | Hin] [Hn [Hl Hk]]]]]]]; [left; left; exact Hk | |].
        -- rewrite E1 in Hn. injection Hn as <-. rewrite E2 in Hl. injection Hl as <-.
           left; right; exact Hk.
        -- right. exists lc, nd, lv. auto.
Qed.

Lemma items_loop_in nm ab items : forall (sums sums' : list (string * F)),
  items_loop F zero add A normalized_abundance nm ab items sums = Some sums' ->
  (NoDup (map fst sums) -> NoDup (map fst sums')) /\
  forall k, In k (map fst sums') <-> In k (map fst sums) \/
    exists loci locus jplace_node tree_leaves, In ("p", Loci loci) items /\ In locus loci /\
      nth_error locus 0 = Some jplace_node /\
      node_lookup nm jplace_node = Some tree_leaves /\ In k tree_leaves.
Proof.
  induction items as [| [key v] t IH]; intros sums sums' H; cbn [items_loop] in H.
  - injection H as <-. split; [auto |]. intros k. split; [auto |].
    intros [Hk | [? [? [? [? [[] _]]]]]]. exact Hk.
  - destruct (String.eqb_spec key "p") as [-> | Hne].
    + destruct (p_loop F zero add A normalized_abundance nm ab v sums) as [s |] eqn:Ep;
        [| discriminate].
      destruct (IH _ _ H) as [H1 H2].
      assert (Hp : (NoDup (map fst sums) -> NoDup (map fst s)) /\
                   forall k, In k (map fst s) <-> In k (map fst sums) \/
                     exists loci locus jplace_node tree_leaves, v = Loci loci /\ In locus loci /\
                       nth_error locus 0 = Some jplace_node /\
                       node_lookup nm jplace_node = Some tree_leaves /\ In k tree_leaves).
      { destruct v as [loci | names]; cbn [p_loop] in Ep.
        - destruct (loci_loop_in _ _ _ _ _ Ep) as [L1 L2]. split; [exact L1 |]. intros k.
          rewrite L2. split.
          + intros [Hk | [lc [nd [lv Hr]]]]; [left; exact Hk | right; exists loci, lc, nd, lv; auto].
          + intros [Hk | [lo [lc [nd [lv [Hv Hr]]]]]]; [left; exact Hk |].
            injection Hv as <-. right. exists lc, nd, lv. exact Hr.
        - destruct names; [| discriminate]. injection Ep as <-. split; [auto |]. intros k.
          split; [auto |]. intros [Hk | [? [? [? [? [Hv _]]]]]]; [exact Hk | discriminate]. }
      destruct Hp as [P1 P2]. split; [auto |]. intros k. rewrite H2, P2. split.
      * intros [[Hk | [lo [lc [nd [lv [Ev Hr]]]]]] | [lo [lc [nd [lv [Hin Hr]]]]]];
          [left; exact Hk | right; exists lo, lc, nd, lv; rewrite Ev; simpl; auto
          | right; exists lo, lc, nd, lv; simpl; auto].
      * intros [Hk | [lo [lc [nd [lv [[E | Hin] Hr]]]]]]; [left; left; exact Hk | |].
        -- assert (Ev : v = Loci lo) by congruence. subst v.
           left. right. exists lo, lc, nd, lv. auto.
        -- right. exists lo, lc, nd, lv. auto.
    + destruct (IH _ _ H) as [H1 H2]. split; [exact H1 |]. intros k. rewrite H2. split.
      * intros [Hk | [lo [lc [nd [lv [Hin Hr]]]]]]; [left; exact Hk |].
        right. exists lo, lc, nd, lv. simpl. auto.
      * intros [Hk | [lo [lc [nd [lv [[E | Hin] Hr]]]]]]; [left; exact Hk | |].
        -- assert (Ek : key = "p") by congruence. contradiction.
        -- right. exists lo, lc, nd, lv. auto.
Qed.

Lemma pquery_loop_in nm ab ps : forall (sums sums' : list (string * F)),
  pquery_loop F zero add A normalized_abundance nm ab ps sums = Some sums' ->
  (NoDup (map fst sums) -> NoDup (map fst sums')) /\
  forall k, In k (map fst sums') <-> In k (map fst sums) \/
    exists pq loci locus jplace_node tree_leaves, In pq ps /\ In ("p", Loci loci) pq /\
      In locus loci /\ nth_error locus 0 = Some jplace_node /\
      node_lookup nm jplace_node = Some tree_leaves /\ In k tree_leaves.
Proof.
  induction ps as [| pq t IH]; intros sums sums' H; cbn [pquery_loop] in H.
  - injection H as <-. split; [auto |]. intros k. split; [auto |].
    intros [Hk | [? [? [? [? [? [[] _]]]]]]]. exact Hk.
  - destruct (items_loop F zero add A normalized_abundance nm ab pq sums) as [s |] eqn:Ei;
      [| discriminate].
    destruct (items_loop_in _ _ _ _ _ Ei) as [I1 I2]. destruct (IH _ _ H) as [H1 H2].
    split; [auto |]. intros k. rewrite H2, I2. split.
    + intros [[Hk | [lo [lc [nd [lv Hr]]]]] | [q [lo [lc [nd [lv [Hin Hr]]]]]]];
        [left; exact Hk | right; exists pq, lo, lc, nd, lv; simpl; auto
        | right; exists q, lo, lc, nd, lv; simpl; auto].
    + intros [Hk | [q [lo [lc [nd [lv [[<- | Hin] Hr]]]]]]]; [left; left; exact Hk | |].
      * left. right. exists lo, lc, nd, lv. exact Hr.
      * right. exists q, lo, lc, nd, lv. auto.
Qed.

(** When [sum_rpkms_per_node] returns, its dict has exactly the keys it
    had before plus every leaf under a node a locus is placed on, and it
    never holds a key twice when it did not before. *)
Theorem sum_rpkms_per_node_keys (o : ItolJplace) (abundance : option A)
    (leaf_rpkm_sums sums' : list (string * F))
    (H : sum_rpkms_per_node F zero add A normalized_abundance o abundance leaf_rpkm_sums
         = Some sums') :
  (NoDup (map fst leaf_rpkm_sums) -> NoDup (map fst sums')) /\
  forall leaf, In leaf (map fst sums') <-> In leaf (map fst leaf_rpkm_sums) \/ placed_leaf o leaf.
Proof.
  destruct (pquery_loop_in _ _ _ _ _ H) as [H1 H2]. split; [exact H1 |]. intros leaf.
  rewrite H2. unfold placed_leaf. reflexivity.
Qed.

Lemma loci_loop_none nm ab loci : forall (sums : list (string * F)),
  loci_loop F zero add A normalized_abundance nm ab loci sums = None <->
  match ab with
  | Some _ => exists locus, In locus loci /\ bad_locus nm locus
  | None => loci <> []
  end.
Proof.
  destruct ab as [a |].
  - induction loci as [| locus rest IH]; intros sums; cbn [loci_loop].
    + split; [discriminate | intros [? [[] _]]].
    + destruct (nth_error locus 0) as [node |] eqn:E1.
      * destruct (node_lookup nm node) as [leaves |] eqn:E2.
        -- destruct leaves as [| l ls].
           ++ split; [intros _; exists locus; split; [left; reflexivity |] | reflexivity].
              unfold bad_locus. rewrite E1, E2. reflexivity.
           ++ cbn [List.length]. rewrite IH. split.
              ** intros [lc [Hin Hb]]. exists lc. split; [right; exact Hin | exact Hb].
              ** intros [lc [[<- | Hin] Hb]]; [| exists lc; auto].
                 unfold bad_locus in Hb. rewrite E1, E2 in Hb. discriminate.
        -- split; [intros _; exists locus; split; [left; reflexivity |] | reflexivity].
           unfold bad_locus. rewrite E1, E2. exact I.
      * split; [intros _; exists locus; split; [left; reflexivity |] | reflexivity].
        unfold bad_locus. rewrite E1. exact I.
  - intros sums. destruct loci as [| locus rest]; cbn [loci_loop].
    + split; [discriminate | intros H; exfalso; apply H; reflexivity].
    + split; [intros _; discriminate | intros _].
      destruct (nth_error locus 0) as [node |]; [| reflexivity].
      destruct (node_lookup nm node); reflexivity.
Qed.

Lemma p_loop_none nm ab v (sums : list (string * F)) :
  p_loop F zero add A normalized_abundance nm ab v sums = None <-> raising_p_value ab nm v.
Proof.
  unfold raising_p_value.
  destruct v as [loci | [| n names]]; cbn [p_loop bad_p_value pvalue_len].
  - rewrite loci_loop_none. destruct ab as [a |]; [reflexivity |].
    destruct loci; cbn [List.length]; split; congruence.
  - destruct ab; (split; [discriminate | intros H; exfalso; apply H; reflexivity]).
  - destruct ab; (split; [intros _; discriminate | reflexivity]).
Qed.

Lemma items_loop_none nm ab items : forall (sums : list (string * F)),
  items_loop F zero add A normalized_abundance nm ab items sums = None <->
  exists v, In ("p", v) items /\ raising_p_value ab nm v.
Proof.
  induction items as [| [key v] t IH]; intros sums; cbn [items_loop].
  - split; [discriminate | intros [? [[] _]]].
  - destruct (String.eqb_spec key "p") as [-> | Hne].
    + destruct (p_loop F zero add A normalized_abundance nm ab v sums) as [s |] eqn:Ep.
      * rewrite IH. split.
        -- intros [w [Hin Hb]]. exists w. split; [right; exact Hin | exact Hb].
        -- intros [w [[E | Hin] Hb]]; [| exists w; auto].
           assert (Ev : w = v) by congruence. subst w.
           apply (p_loop_none nm ab v sums) in Hb. congruence.
      * split; [intros _ | reflexivity]. exists v. split; [left; reflexivity |].
        apply (p_loop_none nm ab v sums). exact Ep.
    + rewrite IH. split.
      * intros [w [Hin Hb]]. exists w. split; [right; exact Hin | exact Hb].
      * intros [w [[E | Hin] Hb]]; [assert (Ek : key = "p") by congruence; contradiction
                                    | exists w; auto].
Qed.

(** [sum_rpkms_per_node] raises an exception exactly when some pquery has
    a ["p"] value that stops it: with a numeric [self.abundance], a locus
    with no edge number ([IndexError]), on an edge missing from [node_map]
    ([KeyError]) or on an edge with no leaves ([ZeroDivisionError]), or
    query names under ["p"]; with [self.abundance] still [None], any locus
    or name under ["p"] at all ([TypeError] at the latest).  Whether it
    raises does not depend on the dict passed in. *)
Theorem sum_rpkms_per_node_raises (o : ItolJplace) (abundance : option A)
    (leaf_rpkm_sums : list (string * F)) :
  sum_rpkms_per_node F zero add A normalized_abundance o abundance leaf_rpkm_sums = None <->
  exists pq v, In pq (placements o) /\ In ("p", v) pq /\ raising_p_value abundance (node_map o) v.
Proof.
  unfold sum_rpkms_per_node. generalize (placements o) as ps. intros ps. revert leaf_rpkm_sums.
  induction ps as [| pq t IH]; intros sums; cbn [pquery_loop].
  - split; [discriminate | intros [? [? [[] _]]]].
  - destruct (items_loop F zero add A normalized_abundance (node_map o) abundance pq sums)
      as [s |] eqn:Ei.
    + rewrite IH. split.
      * intros [q [w [Hin Hr]]]. exists q, w. simpl. auto.
      * intros [q [w [[<- | Hin] [Hp Hb]]]]; [| exists q, w; auto].
        assert (Hn : items_loop F zero add A normalized_abundance (node_map o) abundance pq sums
                     = None)
          by (apply items_loop_none; exists w; auto).
        congruence.
    + split; [intros _ | reflexivity]. apply items_loop_none in Ei. destruct Ei as [w [Hin Hb]].
      exists pq, w. simpl. auto.
Qed.

End RpkmFacts.

(** The node map and placements of the witnesses: edge 7 holds two leaves;
    the abundance is 10. *)
Lemma sum_rpkms_per_node_keys_witness :
  let o := mkItolJplace "mcrA" [] [(7, ["a"; "b"]); (9, ["c"])] [[("p", Loci [[7; 1]])]] true in
  sum_rpkms_per_node Q 0 Qplus Q (fun a n => a / inject_Z (Z.of_nat n)) o (Some 10) [("c", 1)]
    = Some [("c", 1); ("a", 0 + 10 / 2); ("b", 0 + 10 / 2)] /\
  ((NoDup (map fst [("c", 1)]) -> NoDup (map fst [("c", 1); ("a", 0 + 10 / 2); ("b", 0 + 10 / 2)])) /\
   forall leaf, In leaf (map fst [("c", 1); ("a", 0 + 10 / 2); ("b", 0 + 10 / 2)]) <->
                In leaf (map fst [("c", 1)]) \/ placed_leaf o leaf).
Proof.
  intros o.
  assert (H : sum_rpkms_per_node Q 0 Qplus Q (fun a n => a / inject_Z (Z.of_nat n)) o (Some 10)
                [("c", 1)]
                = Some [("c", 1); ("a", 0 + 10 / 2); ("b", 0 + 10 / 2)]) by reflexivity.
  split; [exact H | exact (sum_rpkms_per_node_keys Q 0 Qplus Q _ o _ _ _ H)].
Defined.

End RpkmFacts.

Module FastaMoreFacts.
Import Fasta FastaMore.

Lemma contents_remove n m fs :
  contents m (remove_file n fs) = if String.eqb m n then None else contents m fs.
Proof.
  induction fs as [| [k c] t IH]; cbn [remove_file contents].
  - destruct (String.eqb m n); reflexivity.
  - destruct (String.eqb_spec k n) as [-> | Hk].
    + rewrite IH. destruct (String.eqb_spec m n) as [-> | Hm]; [reflexivity |].
      destruct (String.eqb_spec n m); [congruence | reflexivity].
    + cbn [contents]. rewrite IH. destruct (String.eqb_spec k m) as [-> | Hkm].
      * destruct (String.eqb_spec m n); [congruence | reflexivity].
      * reflexivity.
Qed.

Lemma contents_open n fs m :
  contents m (open_w n fs) = if String.eqb m n then Some [] else contents m fs.
Proof.
  unfold open_w. cbn [contents]. rewrite contents_remove, (String.eqb_sym n m).
  destruct (String.eqb m n); reflexivity.
Qed.

Lemma contents_write n x fs c m : contents n fs = Some c ->
  contents m (write n x fs) = if String.eqb m n then Some (app c [x]) else contents m fs.
Proof.
  intros Hc. unfold write. rewrite Hc. cbn [contents]. rewrite contents_remove, (String.eqb_sym n m).
  destruct (String.eqb m n); reflexivity.
Qed.

Lemma write_loop_headers_no_split headers items : forall fasta_name acc counter split_files fs c,
  contents fasta_name fs = Some c ->
  exists fs',
    write_loop_headers None headers items fasta_name acc counter split_files fs =
      (split_files, fasta_name, counter, fs') /\
    contents fasta_name fs' =
      Some (app c (flat_map (fun '(n, s) => [n ++ nl; s ++ nl])
                            (filter (fun '(n, _) => header_kept headers n) items))) /\
    forall m, m <> fasta_name -> contents m fs' = contents m fs.
Proof.
  induction items as [| [name seq] rest IH]; intros fname acc counter sf fs c Hc.
  - exists fs. cbn. rewrite app_nil_r. auto.
  - cbn [write_loop_headers filter].
    destruct (header_kept headers name) eqn:Ek.
    + set (fs1 := write fname (seq ++ nl) (write fname (name ++ nl) fs)).
      assert (H1 : contents fname (write fname (name ++ nl) fs) = Some (app c [name ++ nl]))
        by (rewrite (contents_write _ _ _ c) by exact Hc; rewrite String.eqb_refl; reflexivity).
      assert (H2 : forall m, contents m fs1 =
                if String.eqb m fname then Some (app c [name ++ nl; seq ++ nl]) else contents m fs).
      { intros m. unfold fs1. rewrite (contents_write _ _ _ _ m H1).
        rewrite (contents_write _ _ _ c m Hc). destruct (String.eqb m fname); [| reflexivity].
        rewrite <- app_assoc. reflexivity. }
      destruct (IH fname (S acc) counter sf fs1 (app c [name ++ nl; seq ++ nl]))
        as [fs' [Hr [Hf Ho]]]; [rewrite H2, String.eqb_refl; reflexivity |].
      exists fs'. split; [exact Hr |]. split.
      * rewrite Hf. cbn [flat_map]. rewrite <- app_assoc. reflexivity.
      * intros m Hm. rewrite Ho by exact Hm. rewrite H2.
        destruct (String.eqb_spec m fname); [contradiction | reflexivity].
    + destruct (IH fname (S acc) counter sf fs c Hc) as [fs' [Hr [Hf Ho]]].
      exists fs'. auto.
Qed.

(** Without [max_seqs], [write_new_fasta] writes one file, named as given:
    it holds the header and sequence lines of exactly the entries kept by
    [headers] ([name[1:] in headers], or all of them when [headers] is
    [None]) in dict order, and no other file is touched. *)
Theorem write_new_fasta_headers_no_split (fasta_dict : list (string * string))
    (fasta_name : string) (headers : option (list string)) (fs : store) :
  let r := write_new_fasta_headers fasta_dict fasta_name None headers fs in
  fst r = [fasta_name] /\
  contents fasta_name (snd r) =
    Some (flat_map (fun '(n, s) => [n ++ nl; s ++ nl])
                   (filter (fun '(n, _) => header_kept headers n) fasta_dict)) /\
  forall m, m <> fasta_name -> contents m (snd r) = contents m fs.
Proof.
  intros r. unfold r, write_new_fasta_headers.
  destruct (write_loop_headers_no_split headers fasta_dict fasta_name 0 0 [] (open_w fasta_name fs) [])
    as [fs' [Hr [Hf Ho]]]; [rewrite contents_open, String.eqb_refl; reflexivity |].
  rewrite Hr. cbn [fst snd app]. split; [reflexivity |]. split; [exact Hf |].
  intros m Hm. rewrite Ho by exact Hm. rewrite contents_open.
  destruct (String.eqb_spec m fasta_name); [contradiction | reflexivity].
Qed.

End FastaMoreFacts.
